(** * lcsc-linker: the KiCad schematic parser and its patch engine

    A shallow embedding of [kicad_parser.py] (class [KicadSchParser]), of
    [fix_lcsc.py] (the gathering of the insertions and the splice loop), of
    the run over the components in [lcsc_linker.py] and in
    [lcsc_linker_gui.py], and of the manual-entry checks of the two
    surfaces, with the properties the specification states about them and
    further properties read off the code.

    A Python [str] is a sequence of Unicode code points: the buffer is a
    [list N].  Offsets are Python integers ([Z]) wherever the code computes
    with them and can reach a negative value ([rfind], [start_pos += diff]);
    positions produced by the regular-expression engine are [nat].  What a
    run asks of the user or of the network (the search, the prompts, the
    dialogs) is given to the model as a list of outcomes. *)

From Stdlib Require Import List Bool Arith ZArith NArith Lia Permutation.
From Stdlib Require Import Ascii String.
Import ListNotations.

(** ** Strings *)

Definition str := list N.

Definition lit (s : string) : str := map N_of_ascii (list_ascii_of_string s).

Definition dq : N := 34.       (* the double quote *)
Definition bslash : N := 92.   (* the backslash *)
Definition lparen : N := 40.
Definition rparen : N := 41.
Definition nl : N := 10.
Definition tab : N := 9.
Definition hash : N := 35.

(** Test buffers are written with ['] for the double quote, [|] for a line
    feed and [~] for a tab. *)
Definition qchar (c : N) : N :=
  if N.eqb c 39 then dq else if N.eqb c 124 then nl else if N.eqb c 126 then tab else c.
Definition qlit (s : string) : str := map qchar (lit s).

Fixpoint str_eqb (a b : str) : bool :=
  match a, b with
  | [], [] => true
  | x :: a', y :: b' => N.eqb x y && str_eqb a' b'
  | _, _ => false
  end.

(** [s.startswith(p)] *)
Fixpoint startswith (s p : str) {struct p} : bool :=
  match p with
  | [] => true
  | x :: p' => match s with
               | y :: s' => N.eqb x y && startswith s' p'
               | [] => false
               end
  end.

(** [p in s] *)
Fixpoint contains (s p : str) : bool :=
  startswith s p || match s with
                    | [] => false
                    | _ :: s' => contains s' p
                    end.

(** [s.rfind(c)] for a one-character needle: the highest index, or -1. *)
Fixpoint rfind_from (s : str) (c : N) (i : Z) (found : Z) : Z :=
  match s with
  | [] => found
  | x :: s' => rfind_from s' c (i + 1) (if N.eqb x c then i else found)
  end.
Definition rfind (s : str) (c : N) : Z := rfind_from s c 0 (-1).

Definition len (s : str) : Z := Z.of_nat (List.length s).

(** Python slice bounds: a negative bound counts from the end, and the
    result is clamped to the string. *)
Definition clamp (s : str) (k : Z) : nat :=
  let k' := if (k <? 0)%Z then (k + len s)%Z else k in
  Z.to_nat (Z.max 0 (Z.min k' (len s))).
(** [s[:k]] *)
Definition slice_to (s : str) (k : Z) : str := firstn (clamp s k) s.
(** [s[k:]] *)
Definition slice_from (s : str) (k : Z) : str := skipn (clamp s k) s.
(** [s[a:b]] *)
Definition slice (s : str) (a b : Z) : str :=
  firstn (clamp s b - clamp s a) (skipn (clamp s a) s).

(** The characters [\s] matches in a [str] pattern (and that [str.strip]
    removes): CPython's [Py_UNICODE_ISSPACE]. *)
Definition is_space (c : N) : bool :=
  ((9 <=? c) && (c <=? 13) || (28 <=? c) && (c <=? 32)
   || (c =? 133) || (c =? 160) || (c =? 5760)
   || (8192 <=? c) && (c <=? 8202)
   || (c =? 8232) || (c =? 8233) || (c =? 8239) || (c =? 8287) || (c =? 12288))%N.

(** ** A backtracking matcher for the patterns of the source

    Every pattern in the source is a sequence of literal characters,
    one-character classes, greedy [*]/[+] over a one-character class, and
    capture groups; there is no alternation and no anchor.  A pattern is a
    list of items.  [Mark k] records the current position under key [k];
    group [g] opens with mark [2g] and closes with mark [2g+1]. *)

Inductive item :=
| Chr (p : N -> bool)
| Star (greedy : bool) (p : N -> bool)
| Mark (k : nat).

Definition Lit (c : N) : item := Chr (N.eqb c).
Definition lits (s : string) : list item := map Lit (lit s).
Definition plus (p : N -> bool) : list item := [Chr p; Star true p].
Definition gopen (g : nat) : item := Mark (2 * g).
Definition gclose (g : nat) : item := Mark (2 * g + 1).

Definition marks := list (nat * nat).

Section Engine.
Variable R : Type.

(** [p*]: the greedy form tries one more character first and falls back on
    the continuation; the lazy form tries the continuation first. *)
Fixpoint m_star (p : N -> bool) (greedy : bool) (k : str -> nat -> option R)
         (s : str) (i : nat) : option R :=
  let more := match s with
              | c :: s' => if p c then m_star p greedy k s' (S i) else None
              | [] => None
              end in
  if greedy
  then match more with Some r => Some r | None => k s i end
  else match k s i with Some r => Some r | None => more end.
End Engine.
Arguments m_star {R} p greedy k s i.

(** Match the items at the head of [s], which sits at absolute position [i];
    the result is the end position and the marks. *)
Fixpoint m_items (its : list item) (s : str) (i : nat) (mk : marks)
  : option (nat * marks) :=
  match its with
  | [] => Some (i, mk)
  | Chr p :: r => match s with
                  | c :: s' => if p c then m_items r s' (S i) mk else None
                  | [] => None
                  end
  | Star g p :: r => m_star p g (fun s' i' => m_items r s' i' mk) s i
  | Mark k :: r => m_items r s i ((k, i) :: mk)
  end.

Record re_match := MkMatch { m_start : nat; m_end : nat; m_marks : marks }.

Fixpoint mark_get (mk : marks) (k : nat) : option nat :=
  match mk with
  | [] => None
  | (k', i) :: mk' => if Nat.eqb k k' then Some i else mark_get mk' k
  end.

(** [m.group(g)] read off the string the search ran on. *)
Definition group (s : str) (m : re_match) (g : nat) : str :=
  match mark_get (m_marks m) (2 * g), mark_get (m_marks m) (2 * g + 1) with
  | Some a, Some b => firstn (b - a) (skipn a s)
  | _, _ => []
  end.

Definition match_here (its : list item) (s : str) (i : nat) : option re_match :=
  match m_items its s i [] with
  | Some (j, mk) => Some (MkMatch i j mk)
  | None => None
  end.

(** [re.search]: the match at the leftmost position that has one. *)
Fixpoint search_from (its : list item) (s : str) (i : nat) : option re_match :=
  match match_here its s i with
  | Some m => Some m
  | None => match s with
            | [] => None
            | _ :: s' => search_from its s' (S i)
            end
  end.
Definition re_search (its : list item) (s : str) : option re_match :=
  search_from its s 0.

(** [re.finditer]: the non-overlapping matches, left to right.  [skip]
    counts the characters of the previous match still to be passed. *)
Fixpoint finditer_from (its : list item) (s : str) (i skip : nat) : list re_match :=
  match s with
  | [] => match skip with
          | O => match match_here its [] i with Some m => [m] | None => [] end
          | S _ => []
          end
  | _ :: s' =>
      match skip with
      | S k => finditer_from its s' (S i) k
      | O => match match_here its s i with
             | Some m => m :: finditer_from its s' (S i) (m_end m - i - 1)
             | None => finditer_from its s' (S i) 0
             end
      end
  end.
Definition re_finditer (its : list item) (s : str) : list re_match :=
  finditer_from its s 0 0.

(** [re.sub(pattern, template, s)]: the text between matches is copied and
    every match is replaced by the expansion of the template.  [whole] is
    the string the positions refer to. *)
Fixpoint sub_from (its : list item) (tpl : str -> re_match -> str)
         (whole s : str) (i skip : nat) : str :=
  match s with
  | [] => match skip with
          | O => match match_here its [] i with Some m => tpl whole m | None => [] end
          | S _ => []
          end
  | c :: s' =>
      match skip with
      | S k => sub_from its tpl whole s' (S i) k
      | O => match match_here its s i with
             | Some m =>
                 if Nat.eqb (m_end m) i
                 then tpl whole m ++ c :: sub_from its tpl whole s' (S i) 0
                 else tpl whole m ++ sub_from its tpl whole s' (S i) (m_end m - i - 1)
             | None => c :: sub_from its tpl whole s' (S i) 0
             end
      end
  end.
Definition re_sub (its : list item) (tpl : str -> re_match -> str) (s : str) : str :=
  sub_from its tpl s s 0 0.

(** ** The patterns of [kicad_parser.py]

    In comments a pattern is written with ['] for its double quotes. *)

Definition not_dq (c : N) : bool := negb (N.eqb c dq).
Definition not_rparen (c : N) : bool := negb (N.eqb c rparen).
Definition not_lparen (c : N) : bool := negb (N.eqb c lparen).

(** [\(symbol\s+\(lib_id\s+'([^']+)'\)] *)
Definition pat_symbol : list item :=
  lits "(symbol" ++ plus is_space ++ lits "(lib_id" ++ plus is_space
    ++ [Lit dq; gopen 1] ++ plus not_dq ++ [gclose 1; Lit dq; Lit rparen].

(** [\(lib_id\s+'([^']+)'\)] *)
Definition pat_lib_id : list item :=
  lits "(lib_id" ++ plus is_space
    ++ [Lit dq; gopen 1] ++ plus not_dq ++ [gclose 1; Lit dq; Lit rparen].

(** [\(property\s+'([^']+)'\s+'([^']{0,})'\s*\(at\s+[^)]+\)], the
    source writing [*] for [{0,}] *)
Definition pat_prop : list item :=
  lits "(property" ++ plus is_space
    ++ [Lit dq; gopen 1] ++ plus not_dq ++ [gclose 1; Lit dq]
    ++ plus is_space
    ++ [Lit dq; gopen 2; Star true not_dq; gclose 2; Lit dq]
    ++ [Star true is_space] ++ lits "(at" ++ plus is_space
    ++ plus not_rparen ++ [Lit rparen].

(** [(\(property\s+'{prop_name}'\s+')[^']*(')].  The name is spliced into
    the pattern text; it stands for itself when it holds none of the
    characters the pattern syntax gives a meaning to ([name_literal]). *)
Definition pat_existing (prop_name : str) : list item :=
  [gopen 1] ++ lits "(property" ++ plus is_space
    ++ [Lit dq] ++ map Lit prop_name ++ [Lit dq]
    ++ plus is_space ++ [Lit dq; gclose 1]
    ++ [Star true not_dq]
    ++ [gopen 2; Lit dq; gclose 2].

Definition regex_special (c : N) : bool :=
  existsb (N.eqb c) (lit ".^$*+?{}[]\|()").
Definition name_literal (prop_name : str) : bool :=
  forallb (fun c => negb (regex_special c)) prop_name.

(** [\g<1>{prop_value}\g<2>].  The value is spliced into the template text;
    it stands for itself when it holds no backslash ([value_literal]). *)
Definition tpl_value (prop_value : str) (whole : str) (m : re_match) : str :=
  group whole m 1 ++ prop_value ++ group whole m 2.
Definition value_literal (prop_value : str) : bool :=
  forallb (fun c => negb (N.eqb c bslash)) prop_value.

(** [\(property\s+'Reference'[^(]*\(at\s+([^)]+)\)] *)
Definition pat_ref_at : list item :=
  lits "(property" ++ plus is_space
    ++ [Lit dq] ++ lits "Reference" ++ [Lit dq]
    ++ [Star true not_lparen] ++ lits "(at" ++ plus is_space
    ++ [gopen 1] ++ plus not_rparen ++ [gclose 1; Lit rparen].

(** [\n(\s{0,})\(pin\s+'] *)
Definition pat_pin : list item :=
  [Lit nl; gopen 1; Star true is_space; gclose 1]
    ++ lits "(pin" ++ plus is_space ++ [Lit dq].

(** [\n(\s{0,})\(instances\s] *)
Definition pat_instances : list item :=
  [Lit nl; gopen 1; Star true is_space; gclose 1]
    ++ lits "(instances" ++ [Chr is_space].

(** ** The data model *)

(** A Python [dict] from [str] to [str]: insertion ordered, keys unique. *)
Definition dict := list (str * str).

Fixpoint dict_set (d : dict) (k v : str) : dict :=
  match d with
  | [] => [(k, v)]
  | (k', v') :: d' => if str_eqb k k' then (k, v) :: d' else (k', v') :: dict_set d' k v
  end.

Fixpoint dict_get (d : dict) (k default : str) : str :=
  match d with
  | [] => default
  | (k', v') :: d' => if str_eqb k k' then v' else dict_get d' k default
  end.

Record Component := MkComponent {
  lib_id : str;
  reference : str;
  value : str;
  footprint : str;
  lcsc : str;
  url : str;
  start_pos : Z;
  end_pos : Z;
  raw_content : str;
  properties : dict
}.

(** The parser object: the buffer and the tracked components.  A component
    object is identified by its index in [components]. *)
Record KicadSchParser := MkParser {
  content : str;
  components : list Component
}.

(** ** [KicadSchParser._find_matching_paren] *)

(** The [while] loop; [rest] is [content[i:]]. *)
Fixpoint paren_loop (content rest : str) (i : nat) (depth : Z) (in_string : bool) : Z :=
  match rest with
  | [] => (-1)%Z
  | c :: rest' =>
      if N.eqb c dq && (Nat.eqb i 0 || negb (N.eqb (nth (i - 1) content 0%N) bslash))
      then paren_loop content rest' (S i) depth (negb in_string)
      else if negb in_string
      then if N.eqb c lparen
           then paren_loop content rest' (S i) (depth + 1)%Z in_string
           else if N.eqb c rparen
           then if Z.eqb (depth - 1) 0
                then Z.of_nat i
                else paren_loop content rest' (S i) (depth - 1)%Z in_string
           else paren_loop content rest' (S i) depth in_string
      else paren_loop content rest' (S i) depth in_string
  end.

Definition _find_matching_paren (content : str) (start : nat) : Z :=
  paren_loop content (skipn start content) start 0%Z false.

(** ** [KicadSchParser._parse_symbol_block] *)

(** The [for prop_match in re.finditer(prop_pattern, raw)] loop. *)
Definition extract_properties (raw : str) : dict :=
  fold_left (fun properties prop_match =>
               dict_set properties (group raw prop_match 1) (group raw prop_match 2))
            (re_finditer pat_prop raw) [].

Definition is_power (lib_id : str) : bool :=
  startswith lib_id (lit "power:") || contains lib_id (lit ":PWR_").

Definition is_empty (s : str) : bool :=
  match s with [] => true | _ => false end.

Definition _parse_symbol_block (raw : str) (start end_ : Z) : option Component :=
  match re_search pat_lib_id raw with
  | None => None
  | Some lib_id_match =>
      let lib_id := group raw lib_id_match 1 in
      if is_power lib_id then None
      else
        let properties := extract_properties raw in
        let reference := dict_get properties (lit "Reference") [] in
        let value := dict_get properties (lit "Value") [] in
        let footprint := dict_get properties (lit "Footprint") [] in
        if is_empty reference || startswith reference [hash] then None
        else Some (MkComponent lib_id reference value footprint
                     (dict_get properties (lit "LCSC") [])
                     (dict_get properties (lit "URL") [])
                     start end_ raw properties)
  end.

(** ** [KicadSchParser.parse] *)

(** The [while True] loop.  Each turn moves [pos] forward, so [fuel] larger
    than the length of the buffer is never used up ([parse_loop_total]). *)
Fixpoint parse_loop (fuel : nat) (content : str) (pos : nat)
         (components : list Component) : option (list Component) :=
  match fuel with
  | O => None
  | S fuel' =>
      match re_search pat_symbol (skipn pos content) with
      | None => Some components
      | Some m =>
          let start := pos + m_start m in
          let end_ := _find_matching_paren content start in
          if Z.eqb end_ (-1)
          then parse_loop fuel' content (start + 1) components
          else
            let raw := slice content (Z.of_nat start) (end_ + 1) in
            let components' :=
              match _parse_symbol_block raw (Z.of_nat start) end_ with
              | Some component => components ++ [component]
              | None => components
              end in
            parse_loop fuel' content (Z.to_nat (end_ + 1)) components'
      end
  end.

Definition parse (content : str) : option KicadSchParser :=
  match parse_loop (S (List.length content)) content 0 [] with
  | Some components => Some (MkParser content components)
  | None => None
  end.

(** ** [KicadSchParser._update_property] *)

(** The f-string that renders a new property node. *)
Definition new_prop (indent prop_name prop_value at_coords : str) : str :=
  [nl] ++ indent ++ lit "(property " ++ [dq] ++ prop_name ++ [dq] ++ lit " "
    ++ [dq] ++ prop_value ++ [dq] ++ lit " (at " ++ at_coords ++ lit ")"
    ++ [nl] ++ indent ++ [tab] ++ lit "(effects (font (size 1.27 1.27)) hide)"
    ++ [nl] ++ indent ++ lit ")".

Definition at_coords_of (raw : str) : str :=
  match re_search pat_ref_at raw with
  | Some ref_at_match => group raw ref_at_match 1
  | None => lit "0 0 0"
  end.

(** The insertion point and the indent: before the first pin, else before
    [(instances], else before the last closing parenthesis. *)
Definition insertion_point (raw : str) : Z * str :=
  match re_search pat_pin raw with
  | Some pin_match => (Z.of_nat (m_start pin_match), group raw pin_match 1)
  | None =>
      match re_search pat_instances raw with
      | Some instances_match =>
          (Z.of_nat (m_start instances_match), group raw instances_match 1)
      | None => (rfind raw rparen, [tab; tab])
      end
  end.

Definition _update_property (raw prop_name prop_value : str) : str :=
  let pattern := pat_existing prop_name in
  match re_search pattern raw with
  | Some _ => re_sub pattern (tpl_value prop_value) raw
  | None =>
      let at_coords := at_coords_of raw in
      let '(insert_pos, indent) := insertion_point raw in
      slice_to raw insert_pos
        ++ new_prop indent prop_name prop_value at_coords
        ++ slice_from raw insert_pos
  end.

(** ** [KicadSchParser.update_component] *)

Fixpoint set_nth {A : Type} (l : list A) (j : nat) (x : A) : list A :=
  match l, j with
  | [], _ => []
  | _ :: t, O => x :: t
  | y :: t, S j' => y :: set_nth t j' x
  end.

(** [comp.start_pos += diff; comp.end_pos += diff] *)
Definition shifted (comp : Component) (diff : Z) : Component :=
  MkComponent (lib_id comp) (reference comp) (value comp) (footprint comp)
    (lcsc comp) (url comp)
    (start_pos comp + diff) (end_pos comp + diff)
    (raw_content comp) (properties comp).

(** One turn of [for comp in self.components]: [comp] is the object at index
    [j], [component] the object at index [idx]; both are read from the store
    as it is at that turn. *)
Definition shift_step (idx : nat) (diff : Z) (comps : list Component) (j : nat)
  : list Component :=
  match nth_error comps j, nth_error comps idx with
  | Some comp, Some component =>
      if (start_pos comp >? start_pos component)%Z
      then set_nth comps j (shifted comp diff)
      else comps
  | _, _ => comps
  end.

(** The four assignments that end [update_component]. *)
Definition patched (component : Component) (new_raw lcsc url : str) : Component :=
  MkComponent (lib_id component) (reference component) (value component)
    (footprint component)
    lcsc url
    (start_pos component) (start_pos component + len new_raw - 1)
    new_raw (properties component).

(** [component] is the object at index [idx] of [self.components]; [None]
    only says that there is no such object. *)
Definition update_component (self : KicadSchParser) (idx : nat) (lcsc url : str)
  : option KicadSchParser :=
  match nth_error (components self) idx with
  | None => None
  | Some component =>
      let raw := raw_content component in
      let new_raw := _update_property raw (lit "LCSC") lcsc in
      let new_raw := _update_property new_raw (lit "URL") url in
      let content' :=
        slice_to (content self) (start_pos component)
          ++ new_raw
          ++ slice_from (content self) (end_pos component + 1) in
      let diff := (len new_raw - len (raw_content component))%Z in
      let comps :=
        fold_left (shift_step idx diff)
                  (seq 0 (List.length (components self))) (components self) in
      match nth_error comps idx with
      | None => None
      | Some component' =>
          Some (MkParser content'
                  (set_nth comps idx (patched component' new_raw lcsc url)))
      end
  end.

(** ** [fix_lcsc.add_lcsc_properties]: applying the modifications *)

(** The tuple [(insert_pos, new_props, ref, lcsc_id)]. *)
Record modification := MkMod {
  insert_pos : nat;
  new_props : str;
  mod_ref : str;
  mod_lcsc_id : str
}.

(** [modifications.sort(key=lambda x: x[0], reverse=True)]: a stable sort,
    highest offset first, equal offsets in their original order. *)
Fixpoint insert_desc (x : modification) (l : list modification) : list modification :=
  match l with
  | [] => [x]
  | y :: l' => if insert_pos x <? insert_pos y
               then y :: insert_desc x l'
               else x :: l
  end.
Definition sort_desc (l : list modification) : list modification :=
  fold_right insert_desc [] l.

(** [content[:insert_pos] + new_props + content[insert_pos:]] *)
Definition splice (content : str) (pos : nat) (text : str) : str :=
  firstn pos content ++ text ++ skipn pos content.

Definition apply_modifications (content : str) (modifications : list modification) : str :=
  fold_left (fun content m => splice content (insert_pos m) (new_props m))
            (sort_desc modifications) content.

(** ** Manual entry of a part number *)

Fixpoint lstrip (s : str) : str :=
  match s with
  | c :: s' => if is_space c then lstrip s' else s
  | [] => []
  end.
(** [s.strip()] *)
Definition strip (s : str) : str := rev (lstrip (rev (lstrip s))).

(** [s.upper()] on ASCII text: the letters [a]..[z] are raised, every other
    code point below 128 stays.  Code points from 128 on are left alone
    here, which is not what Python does for all of them; the statements
    about manual entry are evaluated on ASCII input. *)
Definition upper_char (c : N) : N :=
  if ((97 <=? c) && (c <=? 122))%N then (c - 32)%N else c.
Definition upper (s : str) : str := map upper_char s.

Definition is_ascii_digit (c : N) : bool := ((48 <=? c) && (c <=? 57))%N.
(** [s.isdigit()] on ASCII text. *)
Definition isdigit (s : str) : bool :=
  negb (is_empty s) && forallb is_ascii_digit s.

Definition product_url (lcsc_id : str) : str :=
  lit "https://www.lcsc.com/product-detail/" ++ lcsc_id ++ lit ".html".

(** [lcsc_linker.prompt_selection], choice [m]: [Some] is the pair that is
    returned, [None] the message and another turn of the prompt loop. *)
Definition prompt_selection_manual (typed : str) : option (str * str) :=
  let lcsc_id := upper (strip typed) in
  if negb (is_empty lcsc_id) && startswith lcsc_id (lit "C")
  then Some (lcsc_id, product_url lcsc_id)
  else None.

(** [ComponentDialog._on_manual_entry]: [Some] is the selection the dialog
    closes with, [None] the error box. *)
Definition _on_manual_entry (typed : str) : option (str * str) :=
  let lcsc_id := upper (strip typed) in
  if negb (is_empty lcsc_id) && startswith lcsc_id (lit "C") && isdigit (tl lcsc_id)
  then Some (lcsc_id, product_url lcsc_id)
  else None.

(** ** Specification-level definitions *)

(** The delimiter scanner as the specification words it: the quoted-text
    flag is toggled by an unescaped double quote, and a parenthesis counts
    only when the flag is off.  A backslash escapes the character that
    follows it, so a double quote is unescaped when the run of backslashes
    that ends right before it has even length; [bs] is the length of that
    run.  The result is the offset of the parenthesis that brings the depth
    back to zero, [None] (NotFound) when the buffer ends first. *)
Fixpoint delimiter_loop (rest : str) (i : nat) (depth : Z) (in_quote : bool) (bs : nat)
  : option nat :=
  match rest with
  | [] => None
  | c :: rest' =>
      let bs' := if N.eqb c bslash then S bs else 0 in
      if N.eqb c dq && Nat.even bs
      then delimiter_loop rest' (S i) depth (negb in_quote) bs'
      else if negb in_quote
      then if N.eqb c lparen
           then delimiter_loop rest' (S i) (depth + 1)%Z in_quote bs'
           else if N.eqb c rparen
           then if Z.eqb (depth - 1) 0
                then Some i
                else delimiter_loop rest' (S i) (depth - 1)%Z in_quote bs'
           else delimiter_loop rest' (S i) depth in_quote bs'
      else delimiter_loop rest' (S i) depth in_quote bs'
  end.

Definition match_delimiter (buffer : str) (start : nat) : option nat :=
  delimiter_loop (skipn start buffer) start 0%Z false 0.

(** The rule of the loop of [_find_matching_paren], read position by
    position.  [quote_toggles content i] is the test the loop makes on the
    character at [i]: a double quote whose left neighbour is no backslash.
    [quoted_before content start n] is the flag, and [depth_after content
    start n] the depth, once [n] characters have been read from [start]. *)
Definition quote_toggles (content : str) (i : nat) : bool :=
  N.eqb (nth i content 0%N) dq
  && (Nat.eqb i 0 || negb (N.eqb (nth (i - 1) content 0%N) bslash)).

Fixpoint quoted_before (content : str) (start n : nat) : bool :=
  match n with
  | O => false
  | S k => xorb (quoted_before content start k) (quote_toggles content (start + k))
  end.

Definition paren_weight (content : str) (start k : nat) : Z :=
  if quote_toggles content (start + k) || quoted_before content start k then 0%Z
  else if N.eqb (nth (start + k) content 0%N) lparen then 1%Z
  else if N.eqb (nth (start + k) content 0%N) rparen then (-1)%Z
  else 0%Z.

Fixpoint depth_after (content : str) (start n : nat) : Z :=
  match n with
  | O => 0%Z
  | S k => (depth_after content start k + paren_weight content start k)%Z
  end.

(** Per-record offset bookkeeping for plain insertions (the rule of
    [update_component]: what lies at a greater offset moves by the length
    added): the modifications are applied in the order given, and after each
    one the offsets still to be used are adjusted. *)
Definition shift_after (pos added : nat) (m : modification) : modification :=
  if pos <? insert_pos m
  then MkMod (insert_pos m + added) (new_props m) (mod_ref m) (mod_lcsc_id m)
  else m.

Fixpoint bookkeeping_loop (turns : nat) (content : str) (modifications : list modification) : str :=
  match turns, modifications with
  | S turns', m :: rest =>
      bookkeeping_loop turns'
        (splice content (insert_pos m) (new_props m))
        (map (shift_after (insert_pos m) (List.length (new_props m))) rest)
  | _, _ => content
  end.
Definition apply_one_at_a_time (content : str) (modifications : list modification) : str :=
  bookkeeping_loop (List.length modifications) content modifications.

(** ** Test data *)

Definition LCSC : str := lit "LCSC".

(** A resistor with one pin and an instances node. *)
Definition block_r1 : str :=
  qlit "(symbol (lib_id 'Device:R') (at 1 2 0)|~(property 'Reference' 'R1' (at 3 4 0)|~~(effects)|~)|~(property 'Value' '10k' (at 5 6 0))|~(pin '1' (uuid x))|~(instances (project 'p'))|)".

(** A block with neither a pin nor an instances node. *)
Definition block_bare : str :=
  qlit "(symbol (lib_id 'Device:R')|~(property 'Reference' 'R1' (at 3 4 0))|)".

(** A block with no Reference property. *)
Definition block_noref : str :=
  qlit "(symbol (lib_id 'Device:R')|~(pin '1' (uuid x))|)".

(** A block that holds two LCSC nodes. *)
Definition block_twice : str :=
  qlit "(symbol (lib_id 'Device:R')|~(property 'Reference' 'R1' (at 3 4 0))|~(property 'LCSC' 'a' (at 3 4 0))|~(property 'LCSC' 'b' (at 3 4 0))|~(pin '1' (uuid x))|)".

(** A power symbol that carries an ordinary reference. *)
Definition block_power : str :=
  qlit "(symbol (lib_id 'power:GND')|~(property 'Reference' 'R9' (at 3 4 0))|)".

(** Two resistors, one after the other, as [parse] tracks them. *)
Definition two_records : KicadSchParser :=
  match parse (block_r1 ++ [nl] ++ block_r1) with
  | Some self => self
  | None => MkParser [] []
  end.

Definition mods_example : list modification :=
  [MkMod 5 (lit "<a>") [] []; MkMod 2 (lit "<b>") [] [];
   MkMod 5 (lit "<c>") [] []; MkMod 9 (lit "<d>") [] []].

(** A resistor that already carries an LCSC node. *)
Definition block_lcsc : str :=
  qlit "(symbol (lib_id 'Device:R')|~(property 'Reference' 'R1' (at 3 4 0))|~(property 'LCSC' 'C7' (at 3 4 0))|~(pin '1' (uuid x))|)".

(** A balanced text whose quoted part ends in an escaped backslash. *)
Definition text_backslash : str := qlit "(a 'x\\' b)".

(** A resistor whose value ends in a backslash, written escaped. *)
Definition block_backslash : str :=
  qlit "(symbol (lib_id 'Device:R')|~(property 'Reference' 'R1' (at 3 4 0))|~(property 'Value' 'a\\' (at 5 6 0))|~(pin '1' (uuid x))|)".

(** A resistor that carries both an LCSC and a URL node. *)
Definition block_both : str :=
  qlit "(symbol (lib_id 'Device:R')|~(property 'Reference' 'R1' (at 3 4 0))|~(property 'LCSC' 'C7' (at 3 4 0))|~(property 'URL' 'http://x' (at 3 4 0))|~(pin '1' (uuid x))|)".

(** ** Predicates and views used in the statements *)

(** What the scanner reports about the run that starts at [start]: either
    the depth stays positive to the end of the buffer, or [e] is the first
    position at which it is back at zero. *)
Definition never_closes (content : str) (start : nat) : Prop :=
  forall m, 1 <= m <= List.length content - start ->
            (0 < depth_after content start m)%Z.

Definition closes_at (content : str) (start e : nat) : Prop :=
  start < e < List.length content
  /\ nth e content 0%N = rparen
  /\ quoted_before content start (e - start) = false
  /\ depth_after content start (S (e - start)) = 0%Z
  /\ forall m, 1 <= m <= e - start -> (0 < depth_after content start m)%Z.

(** Every component [parse] collects was built by [_parse_symbol_block] from
    the slice of the buffer it records. *)
Definition extracted_from (content : str) (c : Component) : Prop :=
  raw_content c = slice content (start_pos c) (end_pos c + 1)
  /\ _parse_symbol_block (raw_content c) (start_pos c) (end_pos c) = Some c.

(** What the loop does to one component, [R] being the patched one. *)
Definition moved (R : Component) (diff : Z) (comp : Component) : Component :=
  if (start_pos comp >? start_pos R)%Z then shifted comp diff else comp.

Definition splice_mod (content : str) (m : modification) : str :=
  splice content (insert_pos m) (new_props m).

(** [sort_desc] yields a list in which offsets never increase. *)
Inductive descending : list modification -> Prop :=
| desc_nil : descending []
| desc_cons : forall m l,
    Forall (fun y => insert_pos y <= insert_pos m) l ->
    descending l -> descending (m :: l).

Fixpoint take_while (p : N -> bool) (s : str) : str :=
  match s with
  | c :: s' => if p c then c :: take_while p s' else []
  | [] => []
  end.

Fixpoint drop_while (p : N -> bool) (s : str) : str :=
  match s with
  | c :: s' => if p c then drop_while p s' else s
  | [] => []
  end.

Definition ws_plus (w : str) : bool := negb (is_empty w) && forallb is_space w.

Definition no_dq (s : str) : bool := forallb not_dq s.

(** One or more white-space characters at the head of [s], and what follows. *)
Definition eat_ws (s : str) : option (str * str) :=
  match s with
  | c :: s' => if is_space c
               then Some (c :: take_while is_space s', drop_while is_space s')
               else None
  | [] => None
  end.

Definition eat (l s : str) : option str :=
  if startswith s l then Some (skipn (List.length l) s) else None.

(** The text at the head of [s] that the pattern of [_update_property]
    matches, cut into the header (up to the quote that opens the value),
    the old value, and what follows the quote that closes it. *)
Definition node_head (prop_name s : str) : option (str * str * str) :=
  match eat (lit "(property") s with
  | None => None
  | Some s1 =>
  match eat_ws s1 with
  | None => None
  | Some (w1, s2) =>
  match eat (dq :: prop_name ++ [dq]) s2 with
  | None => None
  | Some s3 =>
  match eat_ws s3 with
  | None => None
  | Some (w2, s4) =>
  match eat [dq] s4 with
  | None => None
  | Some s5 =>
  match eat [dq] (drop_while not_dq s5) with
  | None => None
  | Some rest =>
      Some (lit "(property" ++ w1 ++ dq :: prop_name ++ dq :: w2 ++ [dq],
            take_while not_dq s5, rest)
  end end end end end end.

(** The header of a property node named [prop_name]: the text from the
    opening parenthesis to the quote that opens the value. *)
Definition header (prop_name hdr : str) : Prop :=
  exists w1 w2,
    hdr = lit "(property" ++ w1 ++ dq :: prop_name ++ dq :: w2 ++ [dq]
    /\ ws_plus w1 = true /\ ws_plus w2 = true.

(** [s] begins with such a node: header, value up to the next quote, quote. *)
Definition node_at (prop_name s hdr old rest : str) : Prop :=
  s = hdr ++ old ++ dq :: rest /\ header prop_name hdr /\ no_dq old = true.

(** Concatenations are compared in right-nested form. *)
Ltac list_norm :=
  repeat first [ rewrite <- app_assoc | rewrite <- app_comm_cons
               | rewrite app_nil_r ];
  cbn [app].

(** [new] is [old] with the value of every property node named [prop_name]
    replaced by [prop_value], the nodes being taken from left to right and
    not overlapping; every other character is kept as it is. *)
Inductive value_edit (prop_name prop_value : str) : str -> str -> Prop :=
| ve_nil : value_edit prop_name prop_value [] []
| ve_keep : forall c s s',
    (forall hdr old rest, ~ node_at prop_name (c :: s) hdr old rest) ->
    value_edit prop_name prop_value s s' ->
    value_edit prop_name prop_value (c :: s) (c :: s')
| ve_node : forall s hdr old rest rest',
    node_at prop_name s hdr old rest ->
    value_edit prop_name prop_value rest rest' ->
    value_edit prop_name prop_value s (hdr ++ prop_value ++ dq :: rest').

(** The run of backslashes at the end of [s], [bs] being the run that ends
    right before [s]. *)
Definition backslash_run (bs : nat) (s : str) : nat :=
  fold_left (fun b c => if N.eqb c bslash then S b else 0) s bs.

(** The quoted value at the head of [s], where [s] starts right after the
    opening quote: the text up to the first unescaped double quote, and
    what follows that quote.  As in [delimiter_loop], a double quote is
    unescaped when the run of backslashes before it has even length. *)
Fixpoint quoted_value_from (s : str) (bs : nat) : option (str * str) :=
  match s with
  | [] => None
  | c :: s' =>
      if N.eqb c dq && Nat.even bs then Some ([], s')
      else match quoted_value_from s' (if N.eqb c bslash then S bs else 0) with
           | Some (v, r) => Some (c :: v, r)
           | None => None
           end
  end.

Definition quoted_value (s : str) : option (str * str) := quoted_value_from s 0.

(** [s] begins with a node named [prop_name]: header, quoted value, and the
    quote that closes it. *)
Definition quoted_node_at (prop_name s hdr old rest : str) : Prop :=
  s = hdr ++ old ++ dq :: rest /\ header prop_name hdr
  /\ quoted_value (old ++ dq :: rest) = Some (old, rest).

(** [new] is [old] with the quoted value of every property node named
    [prop_name] replaced by [prop_value], the nodes being taken from left to
    right; every other character is kept as it is. *)
Inductive quoted_value_edit (prop_name prop_value : str) : str -> str -> Prop :=
| qe_nil : quoted_value_edit prop_name prop_value [] []
| qe_keep : forall c s s',
    (forall hdr old rest, ~ quoted_node_at prop_name (c :: s) hdr old rest) ->
    quoted_value_edit prop_name prop_value s s' ->
    quoted_value_edit prop_name prop_value (c :: s) (c :: s')
| qe_node : forall s hdr old rest rest',
    quoted_node_at prop_name s hdr old rest ->
    quoted_value_edit prop_name prop_value rest rest' ->
    quoted_value_edit prop_name prop_value s (hdr ++ prop_value ++ dq :: rest').

(** A text without double quote that does not end in an odd run of
    backslashes: the double quote that follows it is unescaped. *)
Definition quote_closes (old : str) : bool := Nat.even (backslash_run 0 old).

(** The block cut at its double quotes: [tokens] splits, [join] puts the
    quotes back. *)
Fixpoint tokens (s : str) : list str :=
  match s with
  | [] => [[]]
  | c :: s' =>
      if N.eqb c dq then [] :: tokens s'
      else match tokens s' with
           | t :: ts => (c :: t) :: ts
           | [] => [[c]]
           end
  end.

Fixpoint join (ts : list str) : str :=
  match ts with
  | [] => []
  | t :: ts' => match ts' with
                | [] => t
                | _ :: _ => t ++ dq :: join ts'
                end
  end.

(** [(property] and white space, the whole of a token. *)
Definition is_hdr0 (t : str) : bool :=
  startswith t (lit "(property") && ws_plus (skipn 9 t).

(** A token that ends with [(property] and white space. *)
Fixpoint ends_hdr (t : str) : bool :=
  is_hdr0 t || match t with
               | _ :: t' => ends_hdr t'
               | [] => false
               end.

(** The tokens after a header start: the name, white space, a value and
    one token more. *)
Definition tailT (prop_name : str) (r : list str) : bool :=
  match r with
  | t1 :: t2 :: _ :: _ :: _ => str_eqb t1 prop_name && ws_plus t2
  | _ => false
  end.

Definition headT (prop_name : str) (ts : list str) : bool :=
  match ts with
  | t0 :: r => is_hdr0 t0 && tailT prop_name r
  | [] => false
  end.

Definition condT (prop_name : str) (ts : list str) : bool :=
  match ts with
  | t0 :: r => ends_hdr t0 && tailT prop_name r
  | [] => false
  end.

(** [re.sub] on tokens: the value token of every node is replaced. *)
Fixpoint subT (prop_name prop_value : str) (ts : list str) : list str :=
  match ts with
  | [] => []
  | t0 :: r =>
      match r with
      | t1 :: t2 :: _ :: ((_ :: _) as tl) =>
          if condT prop_name ts
          then t0 :: t1 :: t2 :: prop_value :: subT prop_name prop_value tl
          else t0 :: subT prop_name prop_value r
      | _ => t0 :: subT prop_name prop_value r
      end
  end.

(** The value tokens of the nodes, left to right. *)
Fixpoint valuesT (prop_name : str) (ts : list str) : list str :=
  match ts with
  | [] => []
  | t0 :: r =>
      match r with
      | _ :: _ :: t3 :: ((_ :: _) as tl) =>
          if condT prop_name ts
          then t3 :: valuesT prop_name tl
          else valuesT prop_name r
      | _ => valuesT prop_name r
      end
  end.

(** The values of the nodes named [prop_name] in [s], as a declarative
    reading of the block. *)
Inductive nodes (prop_name : str) : str -> list str -> Prop :=
| nodes_nil : nodes prop_name [] []
| nodes_keep : forall c s l,
    (forall hdr old rest, ~ node_at prop_name (c :: s) hdr old rest) ->
    nodes prop_name s l ->
    nodes prop_name (c :: s) l
| nodes_node : forall s hdr old rest l,
    node_at prop_name s hdr old rest ->
    nodes prop_name rest l ->
    nodes prop_name s (old :: l).

(** The text between two marks of a match. *)
Definition between (s : str) (m : re_match) (ka kb : nat) : str :=
  match mark_get (m_marks m) ka, mark_get (m_marks m) kb with
  | Some a, Some b => firstn (b - a) (skipn a s)
  | _, _ => []
  end.

(** The values the pattern of [_update_property] finds in [s]: for every
    match of [re.finditer], the text its [[^']*] part covers. *)
Definition node_values (prop_name s : str) : list str :=
  map (fun m => between s m 3 4) (re_finditer (pat_existing prop_name) s).


(** A name, or a value, that the token reading covers: it stands for itself
    in the pattern (in the template) and holds no double quote; a value,
    moreover, does not end with the opening of a property node. *)
Definition plain_name (A : str) : bool := name_literal A && no_dq A.

Definition plain_value (v : str) : bool :=
  value_literal v && no_dq v && negb (ends_hdr v).


(** The header of a node named [X], whether a value follows or not. *)
Definition cond3 (X t0 t1 t2 : str) : bool :=
  ends_hdr t0 && str_eqb t1 X && ws_plus t2.

Fixpoint no_hdrT (X : str) (ts : list str) : bool :=
  match ts with
  | [] => true
  | t0 :: r =>
      match r with
      | t1 :: t2 :: _ => negb (cond3 X t0 t1 t2)
      | _ => true
      end && no_hdrT X r
  end.

(** The block holds no header of a node named [X]. *)
Definition no_header (X raw : str) : bool := no_hdrT X (tokens raw).

(** Tokens of a concatenation: the last token of the first text and the
    first token of the second are one token. *)
Fixpoint glue (ts us : list str) : list str :=
  match ts with
  | [] => us
  | t :: ts' =>
      match ts' with
      | [] => match us with
              | u :: us' => (t ++ u) :: us'
              | [] => [t]
              end
      | _ :: _ => t :: glue ts' us
      end
  end.

Definition no_marks (its : list item) : bool :=
  forallb (fun it => match it with Mark _ => false | _ => true end) its.

(** ** Tracked records *)

(** What [update_component] relies on for one record: its offsets lie in the
    buffer and its block is the text of the buffer between them. *)
Definition tracks (content : str) (c : Component) : Prop :=
  (0 <= start_pos c <= end_pos c)%Z /\ (end_pos c < len content)%Z
  /\ raw_content c = slice content (start_pos c) (end_pos c + 1).

(** The records come in the order of the buffer and do not overlap. *)
Definition in_order (cs : list Component) : Prop :=
  forall j k a b,
    j < k -> nth_error cs j = Some a -> nth_error cs k = Some b ->
    (end_pos a < start_pos b)%Z.

Definition well_tracked (self : KicadSchParser) : Prop :=
  Forall (tracks (content self)) (components self)
  /\ in_order (components self).

(** ** The block of a record, taken alone *)

Definition own_block (raw : str) : Prop :=
  startswith raw (lit "(symbol") = true
  /\ _find_matching_paren raw 0 = (len raw - 1)%Z.

(** ** [lcsc_linker.py]: the run over the components *)

(** What the interactive part of [process_component] (the search and
    [prompt_selection]) ends with for one component: the pair that is
    returned, or the end of the program when the user leaves with [q]
    ([sys.exit]).  A run is given the outcomes of its prompts, in order. *)
Inductive outcome :=
| Selected (lcsc_id url : str)
| Quit.

(** [process_component]: a component that has an LCSC value is passed over
    without a prompt when [skip_existing] is set; [None] is the end of the
    program (a [Quit], or no input left for the prompt). *)
Definition process_component (skip_existing : bool) (comp : Component)
           (outcomes : list outcome) : option ((str * str) * list outcome) :=
  if skip_existing && negb (is_empty (lcsc comp))
  then Some (([], []), outcomes)
  else match outcomes with
       | Selected lcsc_id url :: outcomes' => Some ((lcsc_id, url), outcomes')
       | Quit :: _ => None
       | [] => None
       end.

(** The loop [for comp in components] of [main]; [todo] holds the indices
    still to be visited, the components being the objects of the store. *)
Fixpoint main_loop (overwrite dry_run : bool) (todo : list nat)
         (sch_parser : KicadSchParser) (outcomes : list outcome)
         (updated_count skipped_count : nat)
  : option (KicadSchParser * nat * nat) :=
  match todo with
  | [] => Some (sch_parser, updated_count, skipped_count)
  | j :: todo' =>
      match nth_error (components sch_parser) j with
      | None => None
      | Some comp =>
          match process_component (negb overwrite) comp outcomes with
          | None => None
          | Some ((lcsc_id, url), outcomes') =>
              if negb (is_empty lcsc_id)
              then
                if negb dry_run
                then match update_component sch_parser j lcsc_id url with
                     | Some sch_parser' =>
                         main_loop overwrite dry_run todo' sch_parser' outcomes'
                                   (S updated_count) skipped_count
                     | None => None
                     end
                else main_loop overwrite dry_run todo' sch_parser outcomes'
                               (S updated_count) skipped_count
              else main_loop overwrite dry_run todo' sch_parser outcomes'
                             updated_count (S skipped_count)
          end
      end
  end.

(** [main], from the buffer read to the buffer written: [Some (Some b)]
    when [save] writes [b], [Some None] when the run ends without writing,
    [None] when the program ends inside the loop. *)
Definition main (overwrite dry_run : bool) (buffer : str) (outcomes : list outcome)
  : option (option str) :=
  match parse buffer with
  | None => None
  | Some sch_parser =>
      match components sch_parser with
      | [] => Some None
      | _ :: _ =>
        match main_loop overwrite dry_run
                        (seq 0 (List.length (components sch_parser)))
                        sch_parser outcomes 0 0 with
        | None => None
        | Some (sch_parser', updated_count, _) =>
            if negb dry_run && (0 <? updated_count)
            then Some (Some (content sch_parser'))
            else Some None
        end
      end
  end.

(** A record that has an LCSC value keeps its block and that value. *)
Definition keeps_linked (comps0 comps : list Component) : Prop :=
  forall j c0,
    nth_error comps0 j = Some c0 -> lcsc c0 <> [] ->
    exists c, nth_error comps j = Some c
              /\ raw_content c = raw_content c0 /\ lcsc c = lcsc c0.

(** ** [fix_lcsc.py]: what the batch of insertions makes of the buffer *)

(** The buffer with the texts of [ms] woven in, [ms] being read in
    ascending order of offsets and [prev] the offset already reached: the
    text up to the next offset, the new text, and so on. *)
Fixpoint weave (content : str) (prev : nat) (ms : list modification) : str :=
  match ms with
  | [] => skipn prev content
  | m :: ms' =>
      firstn (insert_pos m - prev) (skipn prev content)
        ++ new_props m ++ weave content (insert_pos m) ms'
  end.

Fixpoint ascending (prev : nat) (ms : list modification) : Prop :=
  match ms with
  | [] => True
  | m :: ms' => prev <= insert_pos m /\ ascending (insert_pos m) ms'
  end.

(** ** [fix_lcsc.add_lcsc_properties]: gathering the insertions *)

(** The table [LCSC_DATA]. *)
Definition LCSC_DATA : list (str * str) :=
  [ (lit "J9", lit "C99101"); (lit "U2", lit "C12084"); (lit "R9", lit "C25804");
    (lit "L1", lit "C86069"); (lit "C2", lit "C45783"); (lit "C3", lit "C307331");
    (lit "R2", lit "C4190"); (lit "C1", lit "C89632"); (lit "R4", lit "C22787");
    (lit "R10", lit "C23198"); (lit "R1", lit "C4190"); (lit "J1", lit "C99101");
    (lit "R7", lit "C1002"); (lit "R3", lit "C22787"); (lit "D3", lit "C173461");
    (lit "D2", lit "C19077604"); (lit "U3", lit "C31122263"); (lit "R6", lit "C1002");
    (lit "J2", lit "C99101") ].

(** [LCSC_DATA[ref]] when [ref in LCSC_DATA]. *)
Fixpoint lookup (d : list (str * str)) (k : str) : option str :=
  match d with
  | [] => None
  | (k', v) :: d' => if str_eqb k k' then Some v else lookup d' k
  end.

Definition any_char (c : N) : bool := true.

(** [(\(symbol\s+\(lib_id\s+'[^']+'\).{0,}?\(property\s+'Reference'\s+'([^']+)'[^)]{0,}\(at\s+([^)]+)\))]
    under [re.DOTALL], the source writing [*] for [{0,}] *)
Definition symbol_pattern : list item :=
  [gopen 1] ++ lits "(symbol" ++ plus is_space ++ lits "(lib_id" ++ plus is_space
    ++ [Lit dq] ++ plus not_dq ++ [Lit dq; Lit rparen]
    ++ [Star false any_char]
    ++ lits "(property" ++ plus is_space
    ++ [Lit dq] ++ lits "Reference" ++ [Lit dq] ++ plus is_space
    ++ [Lit dq; gopen 2] ++ plus not_dq ++ [gclose 2; Lit dq]
    ++ [Star true not_rparen] ++ lits "(at" ++ plus is_space
    ++ [gopen 3] ++ plus not_rparen ++ [gclose 3; Lit rparen; gclose 1].

(** The f-string that renders the two new nodes. *)
Definition fix_new_props (indent lcsc_id url at_coords : str) : str :=
  indent ++ lit "(property " ++ [dq] ++ lit "LCSC" ++ [dq] ++ lit " "
    ++ [dq] ++ lcsc_id ++ [dq] ++ lit " (at " ++ at_coords ++ lit ")"
    ++ [nl] ++ indent ++ [tab] ++ lit "(effects (font (size 1.27 1.27)) hide)"
    ++ [nl] ++ indent ++ lit ")" ++ [nl]
    ++ indent ++ lit "(property " ++ [dq] ++ lit "URL" ++ [dq] ++ lit " "
    ++ [dq] ++ url ++ [dq] ++ lit " (at " ++ at_coords ++ lit ")"
    ++ [nl] ++ indent ++ [tab] ++ lit "(effects (font (size 1.27 1.27)) hide)"
    ++ [nl] ++ indent ++ lit ")" ++ [nl].

(** Where the new nodes go, counted from the start of the symbol: before
    the first pin, else before [(instances]; [None] is the [continue]. *)
Definition fix_insertion (rest_of_content : str) : option (nat * str) :=
  match re_search pat_pin rest_of_content with
  | Some pin_match => Some (m_start pin_match, group rest_of_content pin_match 1)
  | None =>
      match re_search pat_instances rest_of_content with
      | Some instances_match =>
          Some (m_start instances_match, group rest_of_content instances_match 1)
      | None => None
      end
  end.

(** One turn of [for match in symbol_pattern.finditer(content)]: the
    modification that is appended, if one is. *)
Definition gather_one (content : str) (match_ : re_match) : option modification :=
  let ref := group content match_ 2 in
  let at_coords := group content match_ 3 in
  match lookup LCSC_DATA ref with
  | None => None
  | Some lcsc_id =>
      let symbol_start := m_start match_ in
      let rest_of_content := skipn symbol_start content in
      match fix_insertion rest_of_content with
      | None => None
      | Some (insert_rel_pos, indent) =>
          let insert_pos := symbol_start + insert_rel_pos in
          let symbol_end_search := firstn insert_rel_pos rest_of_content in
          if contains symbol_end_search ([dq] ++ lit "LCSC" ++ [dq])
          then None
          else Some (MkMod insert_pos
                           (fix_new_props indent lcsc_id (product_url lcsc_id) at_coords)
                           ref lcsc_id)
      end
  end.

Definition gather (content : str) : list modification :=
  flat_map (fun match_ => match gather_one content match_ with
                          | Some m => [m]
                          | None => []
                          end)
           (re_finditer symbol_pattern content).

(** [add_lcsc_properties], from the text read to the text written. *)
Definition add_lcsc_properties (content : str) : str :=
  apply_modifications content (gather content).

Definition sample_sheet : str :=
  qlit "(symbol (lib_id 'Device:R') (at 1 2 0)|~(property 'Reference' 'R7' (at 3 4 0))|~(pin '1' (uuid x))|)|(symbol (lib_id 'Device:C') (at 1 2 0)|~(property 'Reference' 'C9' (at 3 4 0))|~(pin '1' (uuid x))|)".

(** ** The properties dictionary *)

(** The name and the value a match of the property pattern captures. *)
Definition prop_name_of (raw : str) (prop_match : re_match) : str := group raw prop_match 1.

Definition prop_value_of (raw : str) (prop_match : re_match) : str := group raw prop_match 2.

(** ** Manual entry: what the two surfaces accept *)

(** Text typed on an ASCII keyboard, the range on which [upper] and
    [isdigit] are what Python computes. *)
Definition is_ascii (s : str) : bool := forallb (fun c => (c <? 128)%N) s.

Definition url_char (c : N) : bool :=
  negb (N.eqb c bslash) && negb (N.eqb c dq) && negb (N.eqb c lparen).

(** ** [lcsc_linker_gui.py]: processing components in the main window *)

(** How a [ComponentDialog] ends: the value of [ShowModal] and the
    selection the dialog object holds then. *)
Inductive modal_result := ID_OK | ID_NO | ID_CANCEL.

Record dialog_end := MkDialogEnd {
  result : modal_result;
  selected_lcsc_id : str;
  selected_url : str
}.

(** [MainFrame._process_components]: [todo] holds the indices, in the
    store, of the components of the list that is passed; [dialogs] gives
    the ends of the dialogs that are shown, in order ([None]: a dialog
    whose end is not given). *)
Fixpoint _process_components (todo : list nat) (parser : KicadSchParser)
         (dialogs : list dialog_end) (updated skipped : nat)
  : option (KicadSchParser * nat * nat) :=
  match todo with
  | [] => Some (parser, updated, skipped)
  | j :: todo' =>
      match dialogs with
      | [] => None
      | dlg :: dialogs' =>
          match result dlg with
          | ID_CANCEL => Some (parser, updated, skipped)
          | ID_OK =>
              if negb (is_empty (selected_lcsc_id dlg))
              then match update_component parser j (selected_lcsc_id dlg)
                                          (selected_url dlg) with
                   | Some parser' =>
                       _process_components todo' parser' dialogs' (S updated) skipped
                   | None => None
                   end
              else _process_components todo' parser dialogs' updated (S skipped)
          | ID_NO => _process_components todo' parser dialogs' updated (S skipped)
          end
      end
  end.

(** [[c for c in self.components if not c.lcsc]], as indices of the store
    from [j] on. *)
Fixpoint empty_comps (comps : list Component) (j : nat) : list nat :=
  match comps with
  | [] => []
  | c :: comps' =>
      if is_empty (lcsc c) then j :: empty_comps comps' (S j)
      else empty_comps comps' (S j)
  end.

(** [MainFrame._on_process_empty]; with no component to process the
    parser is left as it is. *)
Definition _on_process_empty (parser : KicadSchParser) (dialogs : list dialog_end)
  : option KicadSchParser :=
  match empty_comps (components parser) 0 with
  | [] => Some parser
  | todo =>
      match _process_components todo parser dialogs 0 0 with
      | Some (parser', _, _) => Some parser'
      | None => None
      end
  end.

Definition linked_and_empty : KicadSchParser :=
  match parse (block_lcsc ++ [nl] ++ block_r1) with
  | Some self => self
  | None => MkParser [] []
  end.

(** ** Parsing the block of a record again *)

(** The text at the head of [s] that the symbol pattern matches, cut into
    its two runs of white space, the library identifier, and what follows
    the closing parenthesis of [(lib_id]. *)
Definition symbol_head (s : str) : option (str * str * str * str) :=
  match eat (lit "(symbol") s with
  | None => None
  | Some s1 =>
  match eat_ws s1 with
  | None => None
  | Some (w1, s2) =>
  match eat (lit "(lib_id") s2 with
  | None => None
  | Some s3 =>
  match eat_ws s3 with
  | None => None
  | Some (w2, s4) =>
  match eat [dq] s4 with
  | None => None
  | Some s5 =>
  match s5 with
  | [] => None
  | c :: s5' =>
      if not_dq c
      then match eat [dq; rparen] (drop_while not_dq s5') with
           | None => None
           | Some rest => Some (w1, w2, c :: take_while not_dq s5', rest)
           end
      else None
  end end end end end end.

(** The text such a match covers. *)
Definition symbol_opening (w1 w2 name : str) : str :=
  lit "(symbol" ++ w1 ++ lit "(lib_id" ++ w2 ++ dq :: name ++ [dq; rparen].

(** A record moved to the offsets its block has when it is a buffer of its
    own. *)
Definition rebased (c : Component) : Component :=
  MkComponent (lib_id c) (reference c) (value c) (footprint c) (lcsc c) (url c)
              0 (len (raw_content c) - 1) (raw_content c) (properties c).

(** The scanner passes over characters that are neither quotes nor
    parentheses, and over any character but a quote inside quoted text. *)
Definition inert (c : N) : bool :=
  negb (N.eqb c dq) && negb (N.eqb c lparen) && negb (N.eqb c rparen).

(** ** What an upsert leaves of the block *)

(** A block as [parse] cuts it: it opens with [(symbol] and its last
    character is a closing parenthesis. *)
Definition symbol_block (raw : str) : Prop :=
  startswith raw (lit "(symbol") = true /\ exists body, raw = body ++ [rparen].

(** ** The summary of a run, and the URLs of the linked components *)

(** [MainFrame._on_open_all_urls]: the list [urls]. *)
Fixpoint urls_to_open (comps : list Component) : list str :=
  match comps with
  | [] => []
  | comp :: comps' =>
      if negb (is_empty (lcsc comp))
      then (if negb (is_empty (url comp)) then url comp else product_url (lcsc comp))
             :: urls_to_open comps'
      else urls_to_open comps'
  end.

(** [sum(1 for c in self.components if c.lcsc)], the count that enables the
    button. *)
Fixpoint linked_count (comps : list Component) : nat :=
  match comps with
  | [] => 0
  | c :: comps' =>
      if negb (is_empty (lcsc c)) then S (linked_count comps') else linked_count comps'
  end.

(** ** Updating two records *)

(** [update_component] on the record at [i], then on the record at [j]. *)
Definition update_both (self : KicadSchParser) (i : nat) (lcsc_i url_i : str)
           (j : nat) (lcsc_j url_j : str) : option KicadSchParser :=
  match update_component self i lcsc_i url_i with
  | Some self' => update_component self' j lcsc_j url_j
  | None => None
  end.

(** ** Linking a component again with what it already has *)

(** A sheet of one resistor that carries both nodes, as [parse] tracks it. *)
Definition linked_sheet : KicadSchParser :=
  match parse block_both with
  | Some self => self
  | None => MkParser [] []
  end.

(** ** Basic facts *)

Lemma len_app (a b : str) : len (a ++ b) = (len a + len b)%Z.
Proof. unfold len. rewrite length_app. lia. Qed.

Lemma clamp_in_range (s : str) (k : Z) :
  (0 <= k <= len s)%Z -> clamp s k = Z.to_nat k.
Proof.
  intros H. unfold clamp.
  destruct (Z.ltb_spec k 0); [lia|].
  f_equal. lia.
Qed.

Lemma slice_to_app (pre post : str) : slice_to (pre ++ post) (len pre) = pre.
Proof.
  unfold slice_to. rewrite clamp_in_range by (rewrite len_app; unfold len; lia).
  unfold len. rewrite Nat2Z.id, firstn_app, Nat.sub_diag, firstn_all. simpl.
  apply app_nil_r.
Qed.

Lemma slice_from_app (pre post : str) : slice_from (pre ++ post) (len pre) = post.
Proof.
  unfold slice_from. rewrite clamp_in_range by (rewrite len_app; unfold len; lia).
  unfold len. rewrite Nat2Z.id, skipn_app, Nat.sub_diag, skipn_all. reflexivity.
Qed.

Lemma slice_to_from (s : str) (k : Z) : slice_to s k ++ slice_from s k = s.
Proof. apply firstn_skipn. Qed.

Lemma rfind_from_spec (c : N) (s : str) : forall i found,
  (In c s ->
   exists pre post, s = pre ++ c :: post /\ ~ In c post
                    /\ rfind_from s c i found = (i + len pre)%Z)
  /\ (~ In c s -> rfind_from s c i found = found).
Proof.
  induction s as [|x s IH]; intros i found; simpl.
  - split; [intros []|reflexivity].
  - destruct (IH (i + 1)%Z (if N.eqb x c then i else found)) as [IHin IHout].
    split.
    + intros Hin.
      destruct (in_dec N.eq_dec c s) as [Hs|Hs].
      * destruct (IHin Hs) as (pre & post & -> & Hpost & Hr).
        exists (x :: pre), post. repeat split; auto.
        rewrite Hr. unfold len. cbn [List.length]. lia.
      * destruct Hin as [->|Hin]; [|contradiction].
        exists [], s. repeat split; auto.
        rewrite (IHout Hs), N.eqb_refl. unfold len. simpl. lia.
    + intros Hn. rewrite IHout by tauto.
      destruct (N.eqb_spec x c); [subst; tauto|reflexivity].
Qed.

Lemma rfind_last (c : N) (s : str) :
  In c s ->
  exists pre post, s = pre ++ c :: post /\ ~ In c post /\ rfind s c = len pre.
Proof.
  intros H. destruct (rfind_from_spec c s 0 (-1)) as [Hin _].
  destruct (Hin H) as (pre & post & E & Hp & Hr).
  exists pre, post. repeat split; auto.
Qed.

Lemma rfind_absent (c : N) (s : str) : ~ In c s -> rfind s c = (-1)%Z.
Proof. intros H. apply (rfind_from_spec c s 0 (-1)); assumption. Qed.

Lemma str_eqb_spec (a b : str) : reflect (a = b) (str_eqb a b).
Proof.
  revert b. induction a as [|x a IH]; intros [|y b]; simpl;
    try (constructor; congruence).
  destruct (N.eqb_spec x y); simpl.
  - destruct (IH b); constructor; congruence.
  - constructor; congruence.
Qed.

Lemma str_neq (a b : str) : str_eqb a b = false -> a <> b.
Proof. intros H E. destruct (str_eqb_spec a b); congruence. Qed.

(** ** Synthesis of a new property node *)

Lemma update_property_absent (raw prop_name prop_value : str) :
  re_search (pat_existing prop_name) raw = None ->
  _update_property raw prop_name prop_value
  = slice_to raw (fst (insertion_point raw))
      ++ new_prop (snd (insertion_point raw)) prop_name prop_value (at_coords_of raw)
      ++ slice_from raw (fst (insertion_point raw)).
Proof.
  intros H. unfold _update_property. rewrite H.
  destruct (insertion_point raw); reflexivity.
Qed.

Lemma insertion_point_fallback (raw : str) :
  re_search pat_pin raw = None ->
  re_search pat_instances raw = None ->
  insertion_point raw = (rfind raw rparen, [tab; tab]).
Proof. intros Hp Hi. unfold insertion_point. rewrite Hp, Hi. reflexivity. Qed.

Lemma length_new_prop (indent prop_name prop_value at_coords : str) :
  0 < List.length (new_prop indent prop_name prop_value at_coords).
Proof. unfold new_prop. simpl. lia. Qed.

(** C1, as the code has it.  When a property must be synthesized in a block
    with neither a pin nor an instances node, the update does not fail and
    does not leave the block alone: the new node, indented by two tabs, is
    spliced in at [raw.rfind(')')], which in a block that holds a closing
    parenthesis is immediately before the last one; the block grows by the
    length of the node. *)
Theorem update_property_falls_back_to_last_paren (raw prop_name prop_value : str) :
  name_literal prop_name = true ->
  re_search (pat_existing prop_name) raw = None ->
  re_search pat_pin raw = None ->
  re_search pat_instances raw = None ->
  let node := new_prop [tab; tab] prop_name prop_value (at_coords_of raw) in
  _update_property raw prop_name prop_value
  = slice_to raw (rfind raw rparen) ++ node ++ slice_from raw (rfind raw rparen)
  /\ List.length (_update_property raw prop_name prop_value)
     = List.length raw + List.length node
  /\ _update_property raw prop_name prop_value <> raw
  /\ (In rparen raw ->
      exists pre post,
        raw = pre ++ rparen :: post /\ ~ In rparen post
        /\ _update_property raw prop_name prop_value = pre ++ node ++ rparen :: post).
Proof.
  intros _ He Hp Hi node.
  assert (E : _update_property raw prop_name prop_value
              = slice_to raw (rfind raw rparen) ++ node
                  ++ slice_from raw (rfind raw rparen)).
  { rewrite (update_property_absent _ _ _ He), (insertion_point_fallback _ Hp Hi).
    reflexivity. }
  assert (L : List.length (_update_property raw prop_name prop_value)
              = List.length raw + List.length node).
  { pose proof (f_equal (@List.length N) (slice_to_from raw (rfind raw rparen))) as S.
    rewrite length_app in S. rewrite E, !length_app. lia. }
  repeat split; auto.
  - intros C. rewrite C in L.
    pose proof (length_new_prop [tab; tab] prop_name prop_value (at_coords_of raw)).
    fold node in H. lia.
  - intros Hin. destruct (rfind_last _ _ Hin) as (pre & post & Er & Hpost & Hr).
    exists pre, post. repeat split; auto.
    rewrite E, Hr. subst raw.
    rewrite slice_to_app, slice_from_app. reflexivity.
Qed.

Lemma update_property_falls_back_to_last_paren_witness :
  name_literal LCSC = true
  /\ re_search (pat_existing LCSC) block_bare = None
  /\ re_search pat_pin block_bare = None
  /\ re_search pat_instances block_bare = None
  /\ _update_property block_bare LCSC (lit "C1002") <> block_bare
  /\ exists pre post,
       block_bare = pre ++ rparen :: post /\ ~ In rparen post
       /\ _update_property block_bare LCSC (lit "C1002")
          = pre ++ new_prop [tab; tab] LCSC (lit "C1002") (lit "3 4 0") ++ rparen :: post.
Proof.
  repeat (split; [reflexivity|]).
  destruct (update_property_falls_back_to_last_paren block_bare LCSC (lit "C1002"))
    as (_ & _ & Hne & Hex); try reflexivity.
  split; [exact Hne|].
  apply Hex. vm_compute. tauto.
Defined.

(** C1, as the specification words it, fails on the code: the block below
    holds neither a pin nor an instances node and no LCSC property, and the
    update returns a longer block; through [update_component] the buffer of
    the parser changes. *)
Lemma no_insertion_point_still_inserts :
  re_search (pat_existing LCSC) block_bare = None
  /\ re_search pat_pin block_bare = None
  /\ re_search pat_instances block_bare = None
  /\ _update_property block_bare LCSC (lit "C1002") <> block_bare
  /\ exists self self',
       parse block_bare = Some self
       /\ List.length (components self) = 1
       /\ update_component self 0 (lit "C1002") (product_url (lit "C1002")) = Some self'
       /\ content self' <> content self.
Proof.
  split; [reflexivity|]. split; [reflexivity|]. split; [reflexivity|].
  split.
  - apply str_neq. vm_compute. reflexivity.
  - eexists. eexists.
    split; [vm_compute; reflexivity|].
    split; [reflexivity|].
    split; [vm_compute; reflexivity|].
    apply str_neq. vm_compute. reflexivity.
Qed.

(** C10.  When a property is synthesized and the block has no Reference
    node with a position hint that the pattern can read, the node is still
    created, and it carries the position hint [(at 0 0 0)]. *)
Theorem update_property_default_position (raw prop_name prop_value : str) :
  name_literal prop_name = true ->
  re_search (pat_existing prop_name) raw = None ->
  re_search pat_ref_at raw = None ->
  let insert_pos := fst (insertion_point raw) in
  let indent := snd (insertion_point raw) in
  _update_property raw prop_name prop_value
  = slice_to raw insert_pos
      ++ ([nl] ++ indent ++ lit "(property " ++ [dq] ++ prop_name ++ [dq]
            ++ lit " " ++ [dq] ++ prop_value ++ [dq] ++ lit " (at 0 0 0)"
            ++ [nl] ++ indent ++ [tab] ++ lit "(effects (font (size 1.27 1.27)) hide)"
            ++ [nl] ++ indent ++ lit ")")
      ++ slice_from raw insert_pos.
Proof.
  intros _ He Hr insert_pos indent.
  rewrite (update_property_absent _ _ _ He).
  unfold at_coords_of. rewrite Hr. reflexivity.
Qed.

Lemma update_property_default_position_witness :
  name_literal LCSC = true
  /\ re_search (pat_existing LCSC) block_noref = None
  /\ re_search pat_ref_at block_noref = None
  /\ _update_property block_noref LCSC (lit "C1002")
     = qlit "(symbol (lib_id 'Device:R')|~(property 'LCSC' 'C1002' (at 0 0 0)|~~(effects (font (size 1.27 1.27)) hide)|~)|~(pin '1' (uuid x))|)".
Proof.
  repeat (split; [reflexivity|]).
  rewrite (update_property_default_position block_noref LCSC (lit "C1002"));
    reflexivity.
Defined.

(** ** Manual entry *)

(** C9 on the command-line surface: [cat] is typed, it is raised to [CAT],
    it starts with [C], and it is accepted, although no digit follows.  The
    dialog refuses the same text. *)
Theorem prompt_selection_accepts_non_digits :
  prompt_selection_manual (lit "cat")
  = Some (lit "CAT", lit "https://www.lcsc.com/product-detail/CAT.html")
  /\ prompt_selection_manual (lit "C") <> None
  /\ _on_manual_entry (lit "cat") = None
  /\ _on_manual_entry (lit "C") = None.
Proof. repeat split; try reflexivity. discriminate. Qed.

(** ** The delimiter scanner *)

Lemma skipn_cons_nth (content : str) (k : nat) (c : N) (rest : str) :
  skipn k content = c :: rest ->
  nth k content 0%N = c /\ skipn (S k) content = rest /\ k < List.length content.
Proof.
  revert k. induction content as [|x content IH]; intros [|k] H; simpl in *;
    try discriminate.
  - inversion H; subst. repeat split. lia.
  - destruct (IH _ H) as (A & B & C). repeat split; auto. lia.
Qed.

Lemma skipn_nil_length (content : str) (k : nat) :
  skipn k content = [] -> List.length content <= k.
Proof.
  intros H. pose proof (length_skipn k content) as L. rewrite H in L.
  simpl in L. lia.
Qed.

Lemma paren_loop_spec (content : str) (start : nat) :
  forall rest n,
    skipn (start + n) content = rest ->
    1 <= n ->
    (forall m, 1 <= m <= n -> (0 < depth_after content start m)%Z) ->
    let r := paren_loop content rest (start + n)
               (depth_after content start n) (quoted_before content start n) in
    (r = (-1)%Z /\ never_closes content start)
    \/ (exists e, r = Z.of_nat e /\ closes_at content start e).
Proof.
  induction rest as [|c rest IH]; intros n Hs Hn Hpos; cbn zeta.
  - left. split; [reflexivity|].
    intros m Hm. apply Hpos. apply skipn_nil_length in Hs. lia.
  - destruct (skipn_cons_nth _ _ _ _ Hs) as (Hc & Hrest & Hlt).
    assert (Hnext : skipn (start + S n) content = rest)
      by (rewrite Nat.add_succ_r; exact Hrest).
    assert (Hstep : forall w,
               paren_weight content start n = w ->
               (0 < depth_after content start n + w)%Z ->
               forall m, 1 <= m <= S n -> (0 < depth_after content start m)%Z).
    { intros w Hw Hd m Hm. destruct (Nat.eq_dec m (S n)) as [->|Hne].
      - simpl. rewrite Hw. exact Hd.
      - apply Hpos. lia. }
    pose proof (Hpos n (conj Hn (le_n _))) as Hdn.
    simpl paren_loop.
    assert (Hq : (N.eqb c dq
                  && (Nat.eqb (start + n) 0
                      || negb (N.eqb (nth (start + n - 1) content 0%N) bslash)))
                 = quote_toggles content (start + n))
      by (unfold quote_toggles; rewrite Hc; reflexivity).
    rewrite Hq.
    destruct (quote_toggles content (start + n)) eqn:Huq.
    + (* an unescaped quote toggles the flag *)
      assert (Hw : paren_weight content start n = 0%Z)
        by (unfold paren_weight; rewrite Huq; reflexivity).
      specialize (IH (S n) Hnext (le_S _ _ Hn)
                     (Hstep _ Hw ltac:(lia))).
      cbn zeta in IH. simpl in IH. rewrite Hw, Huq, Z.add_0_r, xorb_true_r in IH.
      rewrite Nat.add_succ_r in IH. exact IH.
    + destruct (quoted_before content start n) eqn:Hqb; simpl negb; cbv iota.
      * (* inside quoted text nothing counts *)
        assert (Hw : paren_weight content start n = 0%Z)
          by (unfold paren_weight; rewrite Huq, Hqb; reflexivity).
        specialize (IH (S n) Hnext (le_S _ _ Hn) (Hstep _ Hw ltac:(lia))).
        cbn zeta in IH. simpl in IH.
        rewrite Hw, Huq, Hqb, Z.add_0_r in IH.
        rewrite Nat.add_succ_r in IH. exact IH.
      * destruct (N.eqb c lparen) eqn:Hl.
        { assert (Hw : paren_weight content start n = 1%Z)
            by (unfold paren_weight; rewrite Huq, Hqb, Hc, Hl; reflexivity).
          specialize (IH (S n) Hnext (le_S _ _ Hn) (Hstep _ Hw ltac:(lia))).
          cbn zeta in IH. simpl in IH.
          rewrite Hw, Huq, Hqb in IH.
          rewrite Nat.add_succ_r in IH. exact IH. }
        destruct (N.eqb c rparen) eqn:Hr.
        { assert (Hw : paren_weight content start n = (-1)%Z)
            by (unfold paren_weight; rewrite Huq, Hqb, Hc, Hl, Hr; reflexivity).
          destruct (Z.eqb_spec (depth_after content start n - 1) 0) as [Hz|Hz].
          - right. exists (start + n). split; [reflexivity|].
            unfold closes_at.
            replace (start + n - start) with n by lia.
            split; [lia|].
            split; [rewrite Hc; apply N.eqb_eq; exact Hr|].
            split; [exact Hqb|].
            split; [simpl; rewrite Hw; lia|].
            exact Hpos.
          - specialize (IH (S n) Hnext (le_S _ _ Hn) (Hstep _ Hw ltac:(lia))).
            cbn zeta in IH. simpl in IH.
            rewrite Hw, Huq, Hqb in IH.
            rewrite Nat.add_succ_r in IH. exact IH. }
        assert (Hw : paren_weight content start n = 0%Z)
          by (unfold paren_weight; rewrite Huq, Hqb, Hc, Hl, Hr; reflexivity).
        specialize (IH (S n) Hnext (le_S _ _ Hn) (Hstep _ Hw ltac:(lia))).
        cbn zeta in IH. simpl in IH.
        rewrite Hw, Huq, Hqb, Z.add_0_r in IH.
        rewrite Nat.add_succ_r in IH. exact IH.
Qed.

Lemma nth_error_skipn (content : str) (k : nat) (c : N) :
  nth_error content k = Some c -> exists rest, skipn k content = c :: rest.
Proof.
  revert k. induction content as [|x content IH]; intros [|k] H; simpl in *;
    try discriminate.
  - inversion H. eauto.
  - auto.
Qed.

Lemma find_matching_paren_cases (content : str) (start : nat) :
  nth_error content start = Some lparen ->
  (_find_matching_paren content start = (-1)%Z /\ never_closes content start)
  \/ (exists e, _find_matching_paren content start = Z.of_nat e
                /\ closes_at content start e).
Proof.
  intros H. destruct (nth_error_skipn _ _ _ H) as [rest Hs].
  destruct (skipn_cons_nth _ _ _ _ Hs) as (Hc & Hrest & Hlt).
  assert (Huq : quote_toggles content (start + 0) = false)
    by (unfold quote_toggles; rewrite Nat.add_0_r, Hc; reflexivity).
  assert (Hw : paren_weight content start 0 = 1%Z)
    by (unfold paren_weight; rewrite Huq, Nat.add_0_r, Hc; reflexivity).
  assert (Hd : depth_after content start 1 = 1%Z) by (simpl; rewrite Hw; reflexivity).
  assert (Hq : quoted_before content start 1 = false) by (simpl; rewrite Huq; reflexivity).
  unfold _find_matching_paren. rewrite Hs. simpl.
  pose proof (paren_loop_spec content start rest 1) as P.
  cbn zeta in P. rewrite Hd, Hq, Nat.add_1_r in P.
  apply P; auto.
  intros m Hm. replace m with 1 by lia. rewrite Hd. lia.
Qed.

(** X23.  Started on an opening parenthesis, [_find_matching_paren] returns
    the position of the closing parenthesis at which the depth is back at
    zero for the first time, under the rule of its own loop: parentheses
    count outside quoted text, and the flag toggles on a double quote whose
    left neighbour is no backslash.  It returns -1 exactly when that depth
    stays away from zero up to the end of the buffer, and it returns
    nothing else. *)
Theorem find_matching_paren_correct (content : str) (start : nat) :
  nth_error content start = Some lparen ->
  let r := _find_matching_paren content start in
  (r = (-1)%Z \/ exists e, r = Z.of_nat e)
  /\ (r = (-1)%Z <->
      forall m, 1 <= m <= List.length content - start ->
                depth_after content start m <> 0%Z)
  /\ (forall e, r = Z.of_nat e ->
        start < e < List.length content
        /\ nth e content 0%N = rparen
        /\ quoted_before content start (e - start) = false
        /\ depth_after content start (S (e - start)) = 0%Z
        /\ forall m, 1 <= m <= e - start -> (0 < depth_after content start m)%Z).
Proof.
  intros H r. subst r.
  destruct (find_matching_paren_cases content start H)
    as [[Hr Hn]|(e & Hr & Hc)]; rewrite Hr.
  - split; [left; reflexivity|]. split.
    + split; [|reflexivity]. intros _ m Hm. specialize (Hn m Hm). lia.
    + intros e He. lia.
  - split; [right; eauto|]. split.
    + split; [lia|]. intros Hall. exfalso.
      destruct Hc as (Hrange & _ & _ & Hz & _).
      apply (Hall (S (e - start))); [lia|exact Hz].
    + intros e' He'. apply Nat2Z.inj in He'. subst e'. exact Hc.
Qed.

Lemma find_matching_paren_correct_witness :
  nth_error block_r1 0 = Some lparen
  /\ _find_matching_paren block_r1 0 = 177%Z
  /\ nth 177 block_r1 0%N = rparen
  /\ depth_after block_r1 0 178 = 0%Z.
Proof.
  split; [reflexivity|]. split; [reflexivity|].
  destruct (find_matching_paren_correct block_r1 0 eq_refl) as (_ & _ & Hc).
  destruct (Hc 177 eq_refl) as (_ & Hn & _ & Hd & _).
  split; [exact Hn|exact Hd].
Defined.

(** C5.  The loop takes a double quote for escaped whenever a backslash
    stands right before it, also when that backslash is itself escaped.  On
    a balanced text whose quoted part ends in an escaped backslash the
    scanner of the specification finds the closing parenthesis, while
    [_find_matching_paren] never leaves the quoted text and returns -1; a
    record with such a value is not extracted by [parse]. *)
Theorem find_matching_paren_misses_escaped_backslash :
  match_delimiter text_backslash 0 = Some 10
  /\ _find_matching_paren text_backslash 0 = (-1)%Z
  /\ nth_error block_backslash 0 = Some lparen
  /\ match_delimiter block_backslash 0 = Some (List.length block_backslash - 1)
  /\ _find_matching_paren block_backslash 0 = (-1)%Z
  /\ parse block_backslash = Some (MkParser block_backslash []).
Proof. vm_compute. repeat split. Qed.

Lemma paren_loop_without_backslash (content : str) :
  forallb (fun c => negb (N.eqb c bslash)) content = true ->
  forall rest i depth in_string,
    forallb (fun c => negb (N.eqb c bslash)) rest = true ->
    paren_loop content rest i depth in_string
    = match delimiter_loop rest i depth in_string 0 with
      | Some e => Z.of_nat e
      | None => (-1)%Z
      end.
Proof.
  intros Hall.
  assert (Hnth : forall k, N.eqb (nth k content 0%N) bslash = false).
  { intros k. destruct (Nat.lt_ge_cases k (List.length content)) as [Hk|Hk].
    - rewrite forallb_forall in Hall. apply negb_true_iff, Hall, nth_In. exact Hk.
    - rewrite nth_overflow by exact Hk. reflexivity. }
  induction rest as [|c rest IH]; intros i depth in_string Hr; [reflexivity|].
  cbn [forallb] in Hr. apply andb_true_iff in Hr. destruct Hr as [Hc Hr].
  apply negb_true_iff in Hc.
  cbn [paren_loop delimiter_loop]. rewrite Hc, Hnth. cbn [negb Nat.even].
  rewrite orb_true_r.
  destruct (N.eqb c dq && true); [apply IH; exact Hr|].
  destruct (negb in_string); [|apply IH; exact Hr].
  destruct (N.eqb c lparen); [apply IH; exact Hr|].
  destruct (N.eqb c rparen); [|apply IH; exact Hr].
  destruct (Z.eqb (depth - 1) 0); [reflexivity|apply IH; exact Hr].
Qed.

Lemma forallb_skipn {A : Type} (p : A -> bool) (l : list A) (k : nat) :
  forallb p l = true -> forallb p (skipn k l) = true.
Proof.
  intros H. rewrite forallb_forall in *. intros x Hx. apply H.
  rewrite <- (firstn_skipn k l). apply in_or_app. right. exact Hx.
Qed.

(** X24.  On a buffer that holds no backslash the scanner does what the
    specification asks of it: its result is the offset the scanner of the
    specification finds, and -1 where that one signals NotFound. *)
Theorem find_matching_paren_meets_contract_without_backslash
        (content : str) (start : nat) :
  forallb (fun c => negb (N.eqb c bslash)) content = true ->
  _find_matching_paren content start
  = match match_delimiter content start with
    | Some e => Z.of_nat e
    | None => (-1)%Z
    end.
Proof.
  intros H. unfold _find_matching_paren, match_delimiter.
  apply paren_loop_without_backslash; [exact H|].
  apply forallb_skipn. exact H.
Qed.

Lemma find_matching_paren_meets_contract_without_backslash_witness :
  forallb (fun c => negb (N.eqb c bslash)) block_r1 = true
  /\ match_delimiter block_r1 0 = Some 177
  /\ _find_matching_paren block_r1 0 = 177%Z.
Proof.
  split; [reflexivity|]. split; [reflexivity|].
  rewrite (find_matching_paren_meets_contract_without_backslash block_r1 0 eq_refl).
  reflexivity.
Defined.

(** ** Searching *)

Lemma match_here_start (its : list item) (s : str) (i : nat) (m : re_match) :
  match_here its s i = Some m -> m_start m = i.
Proof.
  unfold match_here. destruct (m_items its s i []) as [[j mk]|]; intros H;
    inversion H; reflexivity.
Qed.

(** The match [re.search] returns sits at the first position that has one. *)
Lemma search_from_sound (its : list item) :
  forall s i m,
    search_from its s i = Some m ->
    exists k, k <= List.length s
              /\ m_start m = i + k
              /\ match_here its (skipn k s) (i + k) = Some m
              /\ forall k', k' < k -> match_here its (skipn k' s) (i + k') = None.
Proof.
  induction s as [|c s IH]; intros i m H; simpl in H.
  - destruct (match_here its [] i) eqn:E; inversion H; subst.
    exists 0. rewrite Nat.add_0_r. simpl.
    repeat split; auto; [apply match_here_start in E; auto|lia].
  - destruct (match_here its (c :: s) i) eqn:E.
    + inversion H; subst. exists 0. rewrite Nat.add_0_r. simpl.
      repeat split; auto; [lia|apply match_here_start in E; auto|lia].
    + destruct (IH _ _ H) as (k & Hk & Hst & Hm & Hnone).
      exists (S k). simpl. rewrite Nat.add_succ_r.
      repeat split; auto; try lia.
      intros [|k'] Hlt; simpl.
      * rewrite Nat.add_0_r. exact E.
      * rewrite Nat.add_succ_r. apply Hnone. lia.
Qed.

Lemma search_from_complete (its : list item) :
  forall s i k m,
    k <= List.length s ->
    match_here its (skipn k s) (i + k) = Some m ->
    exists m', search_from its s i = Some m' /\ m_start m' <= i + k.
Proof.
  induction s as [|c s IH]; intros i k m Hk Hm; simpl.
  - assert (k = 0) by (simpl in Hk; lia). subst k.
    simpl in Hm. rewrite Nat.add_0_r in Hm. rewrite Hm.
    eexists; split; eauto. apply match_here_start in Hm. lia.
  - destruct (match_here its (c :: s) i) eqn:E.
    + eexists; split; eauto. apply match_here_start in E. lia.
    + destruct k as [|k].
      * simpl in Hm. rewrite Nat.add_0_r in Hm. congruence.
      * simpl in Hm, Hk. rewrite Nat.add_succ_r in Hm.
        destruct (IH (S i) k m ltac:(lia) Hm) as (m' & Hs & Hle).
        exists m'. split; auto. lia.
Qed.

Lemma search_from_none (its : list item) :
  forall s i,
    search_from its s i = None ->
    forall k, k <= List.length s -> match_here its (skipn k s) (i + k) = None.
Proof.
  intros s i H k Hk.
  destruct (match_here its (skipn k s) (i + k)) eqn:E; auto.
  destruct (search_from_complete its s i k _ Hk E) as (m' & Hs & _). congruence.
Qed.

(** ** Extraction *)

Lemma parse_symbol_block_some (raw : str) (start end_ : Z) (c : Component) :
  _parse_symbol_block raw start end_ = Some c ->
  raw_content c = raw /\ start_pos c = start /\ end_pos c = end_
  /\ properties c = extract_properties raw
  /\ reference c = dict_get (extract_properties raw) (lit "Reference") []
  /\ is_empty (reference c) = false
  /\ startswith (reference c) [hash] = false
  /\ is_power (lib_id c) = false
  /\ exists m, re_search pat_lib_id raw = Some m /\ lib_id c = group raw m 1.
Proof.
  unfold _parse_symbol_block.
  destruct (re_search pat_lib_id raw) as [m|] eqn:Em; [|discriminate].
  destruct (is_power (group raw m 1)) eqn:Ep; [discriminate|].
  destruct (is_empty _ || startswith _ [hash]) eqn:Er; [discriminate|].
  apply orb_false_iff in Er. destruct Er as [Er1 Er2].
  intros H. inversion H; subst; clear H. simpl.
  repeat split; auto. exists m. auto.
Qed.

Lemma parse_symbol_block_same (raw : str) (start end_ : Z) (c : Component) :
  _parse_symbol_block raw start end_ = Some c ->
  _parse_symbol_block (raw_content c) (start_pos c) (end_pos c) = Some c.
Proof.
  intros H. destruct (parse_symbol_block_some _ _ _ _ H) as (-> & -> & -> & _).
  exact H.
Qed.

Lemma parse_loop_extracted (content : str) :
  forall fuel pos acc result,
    Forall (extracted_from content) acc ->
    parse_loop fuel content pos acc = Some result ->
    Forall (extracted_from content) result.
Proof.
  induction fuel as [|fuel IH]; intros pos acc result Hacc H; simpl in H;
    [discriminate|].
  destruct (re_search pat_symbol (skipn pos content)) as [m|]; [|congruence].
  destruct (Z.eqb _ (-1)); [eapply IH; eauto|].
  destruct (_parse_symbol_block _ _ _) as [c|] eqn:Ec; [|eapply IH; eauto].
  eapply IH; [|exact H].
  apply Forall_app. split; auto. constructor; [|constructor].
  pose proof (parse_symbol_block_some _ _ _ _ Ec) as (Hr & Hs & He & _).
  split.
  - rewrite Hr, Hs, He. reflexivity.
  - eapply parse_symbol_block_same; eauto.
Qed.

Lemma paren_loop_range (content : str) :
  forall rest i depth in_string,
    paren_loop content rest i depth in_string = (-1)%Z
    \/ exists e, paren_loop content rest i depth in_string = Z.of_nat e
                 /\ i <= e < i + List.length rest.
Proof.
  induction rest as [|c rest IH]; intros i depth in_string; simpl; [auto|].
  assert (Hrec : forall d q,
             paren_loop content rest (S i) d q = (-1)%Z
             \/ exists e, paren_loop content rest (S i) d q = Z.of_nat e
                          /\ i <= e < i + S (List.length rest)).
  { intros d q. destruct (IH (S i) d q) as [H|(e & H & Hr)]; [auto|].
    right. exists e. split; [exact H|lia]. }
  destruct (_ && _); [apply Hrec|].
  destruct (negb in_string); [|apply Hrec].
  destruct (N.eqb c lparen); [apply Hrec|].
  destruct (N.eqb c rparen); [|apply Hrec].
  destruct (Z.eqb _ 0); [|apply Hrec].
  right. exists i. split; [reflexivity|lia].
Qed.

Lemma search_symbol_start (s : str) (m : re_match) :
  re_search pat_symbol s = Some m -> m_start m < List.length s.
Proof.
  intros H. destruct (search_from_sound _ _ _ _ H) as (k & Hk & Hst & Hm & _).
  simpl in Hst. subst k.
  destruct (Nat.eq_dec (m_start m) (List.length s)) as [E|E]; [|lia].
  rewrite E, skipn_all in Hm. discriminate Hm.
Qed.

(** The loop of [parse] ends: fuel above the number of characters left is
    never used up. *)
Lemma parse_loop_total (content : str) :
  forall fuel pos acc,
    List.length content - pos < fuel ->
    exists result, parse_loop fuel content pos acc = Some result.
Proof.
  induction fuel as [|fuel IH]; intros pos acc Hf; [lia|]. simpl.
  destruct (re_search pat_symbol (skipn pos content)) as [m|] eqn:Es; [|eauto].
  apply search_symbol_start in Es. rewrite length_skipn in Es.
  destruct (Z.eqb_spec (_find_matching_paren content (pos + m_start m)) (-1))
    as [E|E].
  - apply IH. lia.
  - unfold _find_matching_paren in *.
    destruct (paren_loop_range content (skipn (pos + m_start m) content)
                (pos + m_start m) 0%Z false) as [H|(e & H & Hr)];
      [contradiction|].
    rewrite H. apply IH. lia.
Qed.

Lemma parse_total (content : str) : exists self, parse content = Some self.
Proof.
  unfold parse.
  destruct (parse_loop_total content (S (List.length content)) 0 []) as [r Hr];
    [lia|].
  rewrite Hr. eauto.
Qed.

(** C6.  A block whose Reference is missing, empty or starts with [#] yields
    no component, and neither does a block whose library identifier is a
    power symbol, whatever its Reference; so every component in the set
    [parse] returns has a Reference that is not empty and does not start
    with [#], has a library identifier that is no power symbol, and is what
    [_parse_symbol_block] builds from its own block. *)
Theorem extraction_excludes_non_components :
  (forall raw start end_,
      let reference := dict_get (extract_properties raw) (lit "Reference") [] in
      reference = [] \/ startswith reference [hash] = true ->
      _parse_symbol_block raw start end_ = None)
  /\ (forall raw start end_ m,
         re_search pat_lib_id raw = Some m ->
         startswith (group raw m 1) (lit "power:") = true
         \/ contains (group raw m 1) (lit ":PWR_") = true ->
         _parse_symbol_block raw start end_ = None)
  /\ (forall buffer,
         exists self,
           parse buffer = Some self
           /\ content self = buffer
           /\ forall c, In c (components self) ->
                reference c <> []
                /\ startswith (reference c) [hash] = false
                /\ startswith (lib_id c) (lit "power:") = false
                /\ contains (lib_id c) (lit ":PWR_") = false
                /\ reference c
                   = dict_get (extract_properties (raw_content c)) (lit "Reference") []
                /\ raw_content c = slice buffer (start_pos c) (end_pos c + 1)
                /\ _parse_symbol_block (raw_content c) (start_pos c) (end_pos c)
                   = Some c).
Proof.
  split; [|split].
  - intros raw start end_ reference Href. unfold _parse_symbol_block.
    destruct (re_search pat_lib_id raw); [|reflexivity].
    destruct (is_power _); [reflexivity|].
    fold reference.
    destruct Href as [->| ->]; [reflexivity|].
    rewrite orb_true_r. reflexivity.
  - intros raw start end_ m Hm Hp. unfold _parse_symbol_block. rewrite Hm.
    unfold is_power. destruct Hp as [-> | ->]; [reflexivity|].
    rewrite orb_true_r. reflexivity.
  - intros content0. unfold parse.
    destruct (parse_loop_total content0 (S (List.length content0)) 0 [])
      as [r Hr]; [lia|].
    rewrite Hr. eexists. split; [reflexivity|]. split; [reflexivity|].
    simpl. intros c Hc.
    pose proof (parse_loop_extracted content0 _ _ _ _ (Forall_nil _) Hr) as Hall.
    rewrite Forall_forall in Hall. destruct (Hall c Hc) as [Hraw Hblk].
    destruct (parse_symbol_block_some _ _ _ _ Hblk)
      as (_ & _ & _ & _ & Href & Hne & Hhash & Hpow & _).
    unfold is_power in Hpow. apply orb_false_iff in Hpow. destruct Hpow.
    repeat split; auto.
    intros E. rewrite E in Hne. discriminate.
Qed.

Lemma extraction_excludes_non_components_witness :
  _parse_symbol_block block_noref 0 48 = None
  /\ _parse_symbol_block block_power 0 72 = None
  /\ exists self,
       parse (block_power ++ block_r1 ++ block_noref) = Some self
       /\ map reference (components self) = [lit "R1"].
Proof.
  destruct extraction_excludes_non_components as (Href & Hpow & _).
  split; [apply Href; left; reflexivity|].
  split.
  - eapply Hpow; [vm_compute; reflexivity|].
    left. reflexivity.
  - eexists. split; vm_compute; reflexivity.
Defined.

(** ** Offset propagation *)

Lemma length_set_nth {A : Type} (l : list A) : forall j x,
  List.length (set_nth l j x) = List.length l.
Proof. induction l as [|y l IH]; intros [|j] x; simpl; auto. Qed.

Lemma nth_error_set_nth_eq {A : Type} (l : list A) : forall j x,
  j < List.length l -> nth_error (set_nth l j x) j = Some x.
Proof.
  induction l as [|y l IH]; intros [|j] x H; simpl in *; try lia; auto.
  apply IH. lia.
Qed.

Lemma nth_error_set_nth_neq {A : Type} (l : list A) : forall j k x,
  k <> j -> nth_error (set_nth l j x) k = nth_error l k.
Proof.
  induction l as [|y l IH]; intros [|j] [|k] x H; simpl; auto; try congruence.
Qed.

Lemma moved_self (R : Component) (diff : Z) : moved R diff R = R.
Proof.
  unfold moved. destruct (Z.gtb_spec (start_pos R) (start_pos R)); [lia|reflexivity].
Qed.

Lemma shift_fold_nth (idx : nat) (diff : Z) (comps : list Component) (R : Component) :
  nth_error comps idx = Some R ->
  forall k, k <= List.length comps ->
  forall j,
    nth_error (fold_left (shift_step idx diff) (seq 0 k) comps) j
    = if j <? k then option_map (moved R diff) (nth_error comps j)
      else nth_error comps j.
Proof.
  intros HR. induction k as [|k IH]; intros Hk j.
  - reflexivity.
  - rewrite seq_S, fold_left_app. simpl.
    specialize (IH ltac:(lia)).
    set (cur := fold_left (shift_step idx diff) (seq 0 k) comps) in *.
    assert (Hlen : List.length cur = List.length comps).
    { destruct (Nat.lt_ge_cases (List.length cur) (List.length comps)) as [Hl|Hl].
      - pose proof (IH (List.length cur)) as E.
        rewrite (proj2 (nth_error_None cur _) (le_n _)) in E.
        destruct (List.length cur <? k).
        + destruct (nth_error comps (List.length cur)) eqn:En; [discriminate|].
          apply nth_error_None in En. lia.
        + symmetry in E. apply nth_error_None in E. lia.
      - destruct (Nat.eq_dec (List.length cur) (List.length comps)); auto.
        pose proof (IH (List.length comps)) as E.
        rewrite (proj2 (nth_error_None comps _) (le_n _)) in E.
        assert (E' : nth_error cur (List.length comps) = None)
          by (destruct (_ <? _); exact E).
        apply nth_error_None in E'. lia. }
    destruct (nth_error comps k) as [comp|] eqn:Ek;
      [|apply nth_error_None in Ek; lia].
    assert (Hcur_k : nth_error cur k = Some comp).
    { rewrite IH, Nat.ltb_irrefl. exact Ek. }
    assert (Hcur_idx : nth_error cur idx = Some R).
    { rewrite IH, HR. simpl. rewrite moved_self. destruct (idx <? k); reflexivity. }
    unfold shift_step. rewrite Hcur_k, Hcur_idx.
    destruct (Nat.eq_dec j k) as [->|Hjk].
    + rewrite (proj2 (Nat.ltb_lt k (S k))) by lia. rewrite Ek. simpl.
      unfold moved. destruct (start_pos comp >? start_pos R)%Z.
      * apply nth_error_set_nth_eq. lia.
      * exact Hcur_k.
    + assert (Hlt : (j <? S k) = (j <? k)).
      { destruct (Nat.ltb_spec j (S k)), (Nat.ltb_spec j k); auto; lia. }
      rewrite Hlt, <- IH.
      destruct (start_pos comp >? start_pos R)%Z; auto.
      apply nth_error_set_nth_neq. exact Hjk.
Qed.

Lemma length_shift_fold (idx : nat) (diff : Z) (js : list nat) :
  forall comps,
    List.length (fold_left (shift_step idx diff) js comps) = List.length comps.
Proof.
  induction js as [|j js IH]; intros comps; simpl; auto.
  rewrite IH. unfold shift_step.
  destruct (nth_error comps j); auto. destruct (nth_error comps idx); auto.
  destruct (_ >? _)%Z; auto. apply length_set_nth.
Qed.

Lemma shift_loop_nth (idx : nat) (diff : Z) (comps : list Component) (R : Component) :
  nth_error comps idx = Some R ->
  forall j,
    nth_error (fold_left (shift_step idx diff)
                 (seq 0 (List.length comps)) comps) j
    = option_map (moved R diff) (nth_error comps j).
Proof.
  intros HR j. rewrite (shift_fold_nth idx diff comps R HR _ (le_n _)).
  destruct (Nat.ltb_spec j (List.length comps)); auto.
  rewrite (proj2 (nth_error_None comps j)) by lia. reflexivity.
Qed.

(** C2.  After [update_component] on the record [R] at index [idx], with
    [delta] the change of length of its block, every other record [S] keeps
    its block text and its attributes; its [start_pos] and [end_pos] have
    both grown by [delta] when its [start_pos] was greater than that of [R],
    and it is unchanged otherwise. *)
Theorem update_component_shifts_later_records
        (self self' : KicadSchParser) (idx : nat) (lcsc url : str) :
  update_component self idx lcsc url = Some self' ->
  exists R R',
    nth_error (components self) idx = Some R
    /\ nth_error (components self') idx = Some R'
    /\ List.length (components self') = List.length (components self)
    /\ forall j S,
         j <> idx ->
         nth_error (components self) j = Some S ->
         exists S',
           nth_error (components self') j = Some S'
           /\ raw_content S' = raw_content S
           /\ properties S' = properties S
           /\ ((start_pos S > start_pos R)%Z ->
               start_pos S' = (start_pos S + (len (raw_content R') - len (raw_content R)))%Z
               /\ end_pos S' = (end_pos S + (len (raw_content R') - len (raw_content R)))%Z)
           /\ ((start_pos S <= start_pos R)%Z -> S' = S).
Proof.
  unfold update_component. intros H.
  destruct (nth_error (components self) idx) as [R|] eqn:HR; [|discriminate].
  set (new_raw := _update_property (_update_property (raw_content R) (lit "LCSC") lcsc)
                    (lit "URL") url) in *.
  set (diff := (len new_raw - len (raw_content R))%Z) in *.
  set (comps := fold_left (shift_step idx diff)
                  (seq 0 (List.length (components self))) (components self)) in *.
  assert (Hnth : forall j, nth_error comps j
                           = option_map (moved R diff) (nth_error (components self) j))
    by (intros j; apply shift_loop_nth; exact HR).
  assert (Hidx : nth_error comps idx = Some R)
    by (rewrite Hnth, HR; simpl; rewrite moved_self; reflexivity).
  rewrite Hidx in H. inversion H; subst self'; clear H. simpl.
  assert (Hlt : idx < List.length comps)
    by (apply nth_error_Some; rewrite Hidx; discriminate).
  exists R, (patched R new_raw lcsc url).
  split; [reflexivity|]. split; [apply nth_error_set_nth_eq; exact Hlt|].
  split.
  { rewrite length_set_nth. apply length_shift_fold. }
  intros j S Hj HS.
  exists (moved R diff S).
  split; [rewrite nth_error_set_nth_neq by exact Hj; rewrite Hnth, HS; reflexivity|].
  unfold moved.
  destruct (Z.gtb_spec (start_pos S) (start_pos R)); simpl.
  - split; [reflexivity|]. split; [reflexivity|]. split; [auto|lia].
  - split; [reflexivity|]. split; [reflexivity|]. split; [lia|auto].
Qed.

Lemma update_component_shifts_later_records_witness :
  exists self',
    update_component two_records 0 (lit "C1002") (lit "u") = Some self'
    /\ map start_pos (components two_records) = [0; 179]%Z
    /\ map end_pos (components two_records) = [177; 356]%Z
    /\ map start_pos (components self') = [0; 336]%Z
    /\ map end_pos (components self') = [334; 513]%Z
    /\ exists R S1 S1',
         nth_error (components two_records) 0 = Some R
         /\ nth_error (components two_records) 1 = Some S1
         /\ nth_error (components self') 1 = Some S1'
         /\ (start_pos S1 > start_pos R)%Z
         /\ raw_content S1' = raw_content S1.
Proof.
  assert (Hu0 : exists self', update_component two_records 0 (lit "C1002") (lit "u")
                              = Some self')
    by (vm_compute; eexists; reflexivity).
  destruct Hu0 as [self' Hu]. exists self'. split; [exact Hu|].
  destruct (update_component_shifts_later_records two_records self' 0 _ _ Hu)
    as (R & R' & HR & HR' & Hlen & Hother).
  assert (HS0 : exists S1, nth_error (components two_records) 1 = Some S1)
    by (vm_compute; eexists; reflexivity).
  destruct HS0 as [S1 HS].
  assert (Hne : 1 <> 0) by discriminate.
  destruct (Hother 1 S1 Hne HS) as (S1' & HS' & Hraw & _).
  vm_compute in Hu. inversion Hu; subst self'; clear Hu.
  do 4 (split; [reflexivity|]).
  exists R, S1, S1'.
  split; [exact HR|]. split; [exact HS|]. split; [exact HS'|].
  split; [|exact Hraw].
  vm_compute in HR, HS. inversion HR; inversion HS. reflexivity.
Defined.

(** ** Batch insertion *)

Lemma length_splice (content : str) (pos : nat) (text : str) :
  List.length (splice content pos text) = List.length content + List.length text.
Proof.
  unfold splice. rewrite !length_app.
  pose proof (f_equal (@List.length N) (firstn_skipn pos content)) as E.
  rewrite length_app in E. lia.
Qed.

Lemma firstn_past (A B : str) (k : nat) :
  firstn (List.length A + k) (A ++ B) = A ++ firstn k B.
Proof. induction A as [|x A IH]; simpl; [reflexivity|]. rewrite IH. reflexivity. Qed.

Lemma skipn_past (A B : str) (k : nat) :
  skipn (List.length A + k) (A ++ B) = skipn k B.
Proof. induction A as [|x A IH]; simpl; [reflexivity|]. exact IH. Qed.

Lemma splice_past (A B : str) (k : nat) (text : str) :
  splice (A ++ B) (List.length A + k) text = A ++ firstn k B ++ text ++ skipn k B.
Proof.
  unfold splice. rewrite firstn_past, skipn_past, <- app_assoc. reflexivity.
Qed.

(** Two insertions commute once the later offset is moved by the length
    the earlier one adds. *)
Lemma splice_comm (content : str) (p q : nat) (t u : str) :
  p <= q -> p <= List.length content ->
  splice (splice content p t) (q + List.length t) u
  = splice (splice content q u) p t.
Proof.
  intros Hpq Hp.
  rewrite <- (firstn_skipn p content).
  set (A := firstn p content). set (B := skipn p content).
  assert (La : List.length A = p) by (apply firstn_length_le; exact Hp).
  replace p with (List.length A + 0) by lia.
  replace q with (List.length A + (q - p)) by lia.
  rewrite (splice_past A B 0 t). simpl firstn. simpl skipn. simpl app.
  rewrite (splice_past A B (q - p) u).
  rewrite (splice_past A _ 0 t). simpl firstn. simpl skipn. simpl app.
  rewrite (app_assoc A t B).
  replace (List.length A + (q - p) + List.length t)
    with (List.length (A ++ t) + (q - p)) by (rewrite length_app; lia).
  rewrite (splice_past (A ++ t) B (q - p) u).
  rewrite <- app_assoc. reflexivity.
Qed.

Lemma apply_modifications_fold (content : str) (mods : list modification) :
  apply_modifications content mods = fold_left splice_mod (sort_desc mods) content.
Proof. reflexivity. Qed.

Lemma insert_desc_split (x : modification) (l : list modification) :
  descending l ->
  exists hi lo,
    l = hi ++ lo /\ insert_desc x l = hi ++ x :: lo
    /\ Forall (fun y => insert_pos x < insert_pos y) hi
    /\ Forall (fun y => insert_pos y <= insert_pos x) lo.
Proof.
  induction 1 as [|m l Hall Hd IH]; simpl.
  - exists [], []. repeat split; constructor.
  - destruct (Nat.ltb_spec (insert_pos x) (insert_pos m)) as [Hlt|Hge].
    + destruct IH as (hi & lo & -> & E & Hhi & Hlo).
      exists (m :: hi), lo. simpl. rewrite E.
      repeat split; auto.
    + exists [], (m :: l). repeat split; auto.
      constructor; [exact Hge|].
      eapply Forall_impl; [|exact Hall]. simpl. intros; lia.
Qed.

Lemma insert_desc_descending (x : modification) (l : list modification) :
  descending l -> descending (insert_desc x l).
Proof.
  intros Hd. destruct (insert_desc_split x l Hd) as (hi & lo & -> & E & Hhi & Hlo).
  rewrite E. clear E.
  induction hi as [|h hi IH]; simpl in *.
  - constructor; auto.
  - inversion Hd as [|? ? Hall Hd']; subst. inversion Hhi; subst.
    constructor; auto.
    apply Forall_app in Hall. destruct Hall as [Ha Hb].
    apply Forall_app. split; auto. constructor; [lia|auto].
Qed.

Lemma sort_desc_descending (l : list modification) : descending (sort_desc l).
Proof.
  induction l as [|x l IH]; simpl; [constructor|].
  apply insert_desc_descending. exact IH.
Qed.

(** A map that keeps the order of the offsets commutes with the sort. *)
Lemma sort_desc_map (f : modification -> modification) :
  (forall a b, (insert_pos (f a) <? insert_pos (f b)) = (insert_pos a <? insert_pos b)) ->
  forall l, sort_desc (map f l) = map f (sort_desc l).
Proof.
  intros Hf. induction l as [|x l IH]; simpl; [reflexivity|].
  rewrite IH. generalize (sort_desc l). clear IH l.
  induction l as [|y l IH]; simpl; [reflexivity|].
  rewrite Hf. destruct (insert_pos x <? insert_pos y); simpl; [rewrite IH|];
    reflexivity.
Qed.

Lemma shift_after_order (pos added : nat) (a b : modification) :
  (insert_pos (shift_after pos added a) <? insert_pos (shift_after pos added b))
  = (insert_pos a <? insert_pos b).
Proof.
  unfold shift_after.
  destruct (Nat.ltb_spec pos (insert_pos a)), (Nat.ltb_spec pos (insert_pos b));
    simpl;
    repeat match goal with
           | |- context [?x <? ?y] => destruct (Nat.ltb_spec x y)
           end;
    try reflexivity; lia.
Qed.

Lemma shift_after_low (pos added : nat) (lo : list modification) :
  Forall (fun y => insert_pos y <= pos) lo ->
  map (shift_after pos added) lo = lo.
Proof.
  induction 1 as [|y lo Hy _ IH]; simpl; [reflexivity|].
  rewrite IH. unfold shift_after.
  destruct (Nat.ltb_spec pos (insert_pos y)); [lia|reflexivity].
Qed.

(** The insertions above [pos] may be made before or after the one at
    [pos], provided they are moved when they come after. *)
Lemma fold_shifted_high (pos : nat) (text : str) (hi : list modification) :
  Forall (fun y => pos < insert_pos y) hi ->
  forall content,
    pos <= List.length content ->
    fold_left splice_mod (map (shift_after pos (List.length text)) hi)
              (splice content pos text)
    = splice (fold_left splice_mod hi content) pos text.
Proof.
  induction 1 as [|h hi Hh _ IH]; intros content Hp; [reflexivity|].
  assert (E : splice_mod (splice content pos text) (shift_after pos (List.length text) h)
              = splice (splice_mod content h) pos text).
  { unfold shift_after. rewrite (proj2 (Nat.ltb_lt _ _) Hh).
    unfold splice_mod. simpl. apply splice_comm; lia. }
  cbn [map fold_left]. rewrite E.
  apply IH. unfold splice_mod. rewrite length_splice. lia.
Qed.

Lemma apply_modifications_cons (content : str) (m : modification)
      (rest : list modification) :
  insert_pos m <= List.length content ->
  apply_modifications (splice content (insert_pos m) (new_props m))
    (map (shift_after (insert_pos m) (List.length (new_props m))) rest)
  = apply_modifications content (m :: rest).
Proof.
  intros Hp. rewrite !apply_modifications_fold.
  rewrite sort_desc_map by (intros; apply shift_after_order).
  simpl sort_desc.
  destruct (insert_desc_split m (sort_desc rest) (sort_desc_descending rest))
    as (hi & lo & E & Ei & Hhi & Hlo).
  rewrite Ei, E, map_app, !fold_left_app. simpl.
  rewrite (shift_after_low _ _ lo Hlo).
  rewrite fold_shifted_high by assumption.
  reflexivity.
Qed.

Lemma shift_after_in_range (content : str) (m : modification)
      (rest : list modification) :
  Forall (fun y => insert_pos y <= List.length content) rest ->
  Forall (fun y => insert_pos y
                   <= List.length (splice content (insert_pos m) (new_props m)))
         (map (shift_after (insert_pos m) (List.length (new_props m))) rest).
Proof.
  intros H. apply Forall_map. eapply Forall_impl; [|exact H].
  intros y Hy. simpl in Hy. rewrite length_splice. unfold shift_after.
  destruct (_ <? _); simpl; lia.
Qed.

(** C4.  For insertions whose offsets lie in the original buffer, splicing
    them in from the highest offset down gives the buffer that results from
    making them one at a time, in the order given, with the offsets still
    to be used moved after each one. *)
Theorem batch_equals_bookkeeping (content : str) (modifications : list modification) :
  Forall (fun m => insert_pos m <= List.length content) modifications ->
  apply_modifications content modifications
  = apply_one_at_a_time content modifications.
Proof.
  unfold apply_one_at_a_time.
  remember (List.length modifications) as turns eqn:Ht.
  revert content modifications Ht.
  induction turns as [|turns IH]; intros content mods Ht Hall.
  - destruct mods; [reflexivity|discriminate].
  - destruct mods as [|m rest]; [discriminate|]. simpl.
    inversion Hall as [|? ? Hm Hrest]; subst.
    rewrite <- apply_modifications_cons by exact Hm.
    apply IH.
    + rewrite length_map. simpl in Ht. lia.
    + apply shift_after_in_range. exact Hrest.
Qed.

Lemma batch_equals_bookkeeping_witness :
  Forall (fun m => insert_pos m <= List.length (lit "012345678")) mods_example
  /\ apply_modifications (lit "012345678") mods_example = lit "01<b>234<c><a>5678<d>"
  /\ apply_one_at_a_time (lit "012345678") mods_example = lit "01<b>234<c><a>5678<d>".
Proof.
  assert (H : Forall (fun m => insert_pos m <= List.length (lit "012345678"))
                     mods_example)
    by (repeat constructor).
  split; [exact H|]. split; [reflexivity|].
  rewrite <- (batch_equals_bookkeeping _ _ H). reflexivity.
Defined.

(** ** The property pattern, read as a decomposition of the text *)

Lemma take_drop_while (p : N -> bool) (s : str) :
  take_while p s ++ drop_while p s = s.
Proof. induction s as [|c s IH]; simpl; [reflexivity|]. destruct (p c); simpl; congruence. Qed.

Lemma take_while_all (p : N -> bool) (s : str) : forallb p (take_while p s) = true.
Proof.
  induction s as [|c s IH]; simpl; [reflexivity|].
  destruct (p c) eqn:E; simpl; [rewrite E; exact IH|reflexivity].
Qed.

Lemma drop_while_head (p : N -> bool) (s : str) (c : N) (r : str) :
  drop_while p s = c :: r -> p c = false.
Proof.
  induction s as [|x s IH]; simpl; [discriminate|].
  destruct (p x) eqn:E; [exact IH|]. intros H. inversion H; subst. exact E.
Qed.

(** Splitting [u ++ c :: r] at the first character outside [p] is unique. *)
Lemma take_while_app (p : N -> bool) (u : str) (c : N) (r : str) :
  forallb p u = true -> p c = false ->
  take_while p (u ++ c :: r) = u /\ drop_while p (u ++ c :: r) = c :: r.
Proof.
  intros Hu Hc. induction u as [|x u IH]; simpl in *.
  - rewrite Hc. auto.
  - apply andb_true_iff in Hu. destruct Hu as [Hx Hu]. rewrite Hx.
    destruct (IH Hu) as [A B]. rewrite A, B. auto.
Qed.

(** A greedy star whose continuation refuses every character of the class
    takes the longest run and never gives any of it back. *)
Lemma m_star_greedy_run (R : Type) (p : N -> bool) (k : str -> nat -> option R) :
  (forall c s i, p c = true -> k (c :: s) i = None) ->
  forall s i,
    m_star p true k s i
    = k (drop_while p s) (i + List.length (take_while p s)).
Proof.
  intros Hk. induction s as [|c s IH]; intros i; simpl.
  - rewrite Nat.add_0_r. destruct (k [] i); reflexivity.
  - destruct (p c) eqn:E; simpl.
    + rewrite IH, Nat.add_succ_r. simpl.
      destruct (k (drop_while p s) (S (i + List.length (take_while p s))));
        [reflexivity|].
      apply Hk. exact E.
    + rewrite Nat.add_0_r. destruct (k (c :: s) i); reflexivity.
Qed.

Lemma m_items_lits (l : str) (r : list item) :
  forall s i mk,
    m_items (map Lit l ++ r) s i mk
    = if startswith s l
      then m_items r (skipn (List.length l) s) (i + List.length l) mk
      else None.
Proof.
  induction l as [|x l IH]; intros s i mk; simpl.
  - rewrite Nat.add_0_r. destruct s; reflexivity.
  - destruct s as [|c s]; [reflexivity|].
    unfold Lit at 1. cbn [m_items].
    destruct (N.eqb x c) eqn:E; simpl; rewrite ?E; simpl; [|reflexivity].
    rewrite IH, Nat.add_succ_r. reflexivity.
Qed.

Lemma startswith_app (l rest : str) : startswith (l ++ rest) l = true.
Proof. induction l as [|x l IH]; simpl; [reflexivity|]. rewrite N.eqb_refl. exact IH. Qed.

Lemma startswith_split (s l : str) :
  startswith s l = true -> s = l ++ skipn (List.length l) s.
Proof.
  revert s. induction l as [|x l IH]; intros s H; simpl in *; [reflexivity|].
  destruct s as [|c s]; [discriminate|].
  apply andb_true_iff in H. destruct H as [Hx Hs].
  apply N.eqb_eq in Hx. subst c. simpl. f_equal. apply IH. exact Hs.
Qed.

Lemma skipn_exact (l rest : str) : skipn (List.length l) (l ++ rest) = rest.
Proof. induction l; simpl; auto. Qed.

Lemma m_items_plus (p : N -> bool) (r : list item) (s : str) (i : nat) (mk : marks) :
  (forall c s' i', p c = true -> m_items r (c :: s') i' mk = None) ->
  m_items (plus p ++ r) s i mk
  = match s with
    | c :: s' =>
        if p c
        then m_items r (drop_while p s') (S i + List.length (take_while p s')) mk
        else None
    | [] => None
    end.
Proof.
  intros Hr. simpl. destruct s as [|c s']; [reflexivity|].
  destruct (p c); [|reflexivity].
  apply (m_star_greedy_run _ p (fun s0 i0 => m_items r s0 i0 mk)).
  intros; apply Hr; assumption.
Qed.

Lemma m_items_star (p : N -> bool) (r : list item) (s : str) (i : nat) (mk : marks) :
  (forall c s' i', p c = true -> m_items r (c :: s') i' mk = None) ->
  m_items (Star true p :: r) s i mk
  = m_items r (drop_while p s) (i + List.length (take_while p s)) mk.
Proof.
  intros Hr. simpl.
  apply (m_star_greedy_run _ p (fun s0 i0 => m_items r s0 i0 mk)).
  intros; apply Hr; assumption.
Qed.

Lemma m_items_mark (k : nat) (r : list item) (s : str) (i : nat) (mk : marks) :
  m_items (Mark k :: r) s i mk = m_items r s i ((k, i) :: mk).
Proof. reflexivity. Qed.

Lemma is_space_not_dq (c : N) : is_space c = true -> N.eqb dq c = false.
Proof. intros H. destruct (N.eqb_spec dq c); [subst; discriminate|reflexivity]. Qed.

Lemma pat_existing_shape (prop_name : str) :
  pat_existing prop_name
  = Mark 2 :: map Lit (lit "(property")
      ++ plus is_space
      ++ map Lit (dq :: prop_name ++ [dq])
      ++ plus is_space
      ++ map Lit [dq]
      ++ Mark 3 :: Star true not_dq :: Mark 4 :: map Lit [dq] ++ [Mark 5].
Proof.
  unfold pat_existing, lits, gopen, gclose. simpl.
  rewrite map_app. simpl. rewrite <- !app_assoc. reflexivity.
Qed.

Lemma eat_ws_length (s w r : str) :
  eat_ws s = Some (w, r) -> s = w ++ r /\ ws_plus w = true.
Proof.
  unfold eat_ws. destruct s as [|c s]; [discriminate|].
  destruct (is_space c) eqn:E; [|discriminate].
  intros H. inversion H; subst; clear H. split.
  - simpl. rewrite take_drop_while. reflexivity.
  - unfold ws_plus. simpl. rewrite E, take_while_all. reflexivity.
Qed.

Lemma eat_split (l s r : str) : eat l s = Some r -> s = l ++ r.
Proof.
  unfold eat. destruct (startswith s l) eqn:E; [|discriminate].
  intros H. inversion H; subst. apply startswith_split. exact E.
Qed.

(** What the engine finds at position [i] is what [node_head] reads. *)
Lemma match_here_existing (prop_name s : str) (i : nat) :
  match_here (pat_existing prop_name) s i
  = match node_head prop_name s with
    | Some (hdr, old, rest) =>
        let a := i + List.length hdr in
        let b := a + List.length old in
        Some (MkMatch i (S b) [(5, S b); (4, b); (3, a); (2, i)])
    | None => None
    end.
Proof.
  unfold match_here, node_head, eat. rewrite pat_existing_shape.
  rewrite m_items_mark, m_items_lits.
  destruct (startswith s (lit "(property")) eqn:E1; [|reflexivity].
  set (s1 := skipn (List.length (lit "(property")) s).
  rewrite m_items_plus.
  2:{ intros c s' i' Hc. rewrite m_items_lits. cbn [startswith].
      rewrite (is_space_not_dq _ Hc). reflexivity. }
  unfold eat_ws. destruct s1 as [|c1 s1']; [reflexivity|].
  destruct (is_space c1) eqn:Ec1; [|reflexivity].
  set (w1 := take_while is_space s1'). set (s2 := drop_while is_space s1').
  rewrite m_items_lits.
  destruct (startswith s2 (dq :: prop_name ++ [dq])) eqn:E2; [|reflexivity].
  set (s3 := skipn (List.length (dq :: prop_name ++ [dq])) s2).
  rewrite m_items_plus.
  2:{ intros c s' i' Hc. rewrite m_items_lits. cbn [startswith].
      rewrite (is_space_not_dq _ Hc). reflexivity. }
  destruct s3 as [|c3 s3']; [reflexivity|].
  destruct (is_space c3) eqn:Ec3; [|reflexivity].
  set (w2 := take_while is_space s3'). set (s4 := drop_while is_space s3').
  rewrite m_items_lits.
  destruct (startswith s4 [dq]) eqn:E4; [|reflexivity].
  set (s5 := skipn (List.length [dq]) s4).
  rewrite m_items_mark, m_items_star.
  2:{ intros c s' i' Hc. rewrite m_items_mark, m_items_lits. cbn [startswith].
      unfold not_dq in Hc. apply negb_true_iff in Hc.
      rewrite N.eqb_sym, Hc. reflexivity. }
  rewrite m_items_mark, m_items_lits.
  destruct (startswith (drop_while not_dq s5) [dq]) eqn:E5; [|reflexivity].
  cbn [m_items]. cbv zeta.
  rewrite !length_app. cbn [List.length]. rewrite !length_app. cbn [List.length].
  fold w1 w2.
  repeat match goal with
         | |- Some _ = Some _ => f_equal
         | |- (_, _) = (_, _) => f_equal
         | |- _ :: _ = _ :: _ => f_equal
         | |- MkMatch _ _ _ = MkMatch _ _ _ => f_equal
         | |- @eq nat _ _ =>
             repeat (rewrite length_app; cbn [List.length]); lia
         end.
Qed.

Lemma eat_app (l r : str) : eat l (l ++ r) = Some r.
Proof. unfold eat. rewrite startswith_app, skipn_exact. reflexivity. Qed.

Lemma eat_ws_app (w : str) (c : N) (r : str) :
  ws_plus w = true -> is_space c = false ->
  eat_ws (w ++ c :: r) = Some (w, c :: r).
Proof.
  unfold ws_plus. intros Hw Hc. destruct w as [|x w]; [discriminate|].
  simpl in Hw. apply andb_true_iff in Hw. destruct Hw as [Hx Hw].
  simpl. rewrite Hx.
  destruct (take_while_app is_space w c r Hw Hc) as [A B]. rewrite A, B.
  reflexivity.
Qed.

Lemma node_head_sound (prop_name s hdr old rest : str) :
  node_head prop_name s = Some (hdr, old, rest) ->
  node_at prop_name s hdr old rest.
Proof.
  unfold node_head.
  destruct (eat (lit "(property") s) as [s1|] eqn:E1; [|discriminate].
  destruct (eat_ws s1) as [[w1 s2]|] eqn:E2; [|discriminate].
  destruct (eat (dq :: prop_name ++ [dq]) s2) as [s3|] eqn:E3; [|discriminate].
  destruct (eat_ws s3) as [[w2 s4]|] eqn:E4; [|discriminate].
  destruct (eat [dq] s4) as [s5|] eqn:E5; [|discriminate].
  destruct (eat [dq] (drop_while not_dq s5)) as [r|] eqn:E6; [|discriminate].
  intros H. inversion H; subst; clear H.
  apply eat_split in E1, E3, E5, E6.
  apply eat_ws_length in E2, E4. destruct E2 as [E2 W1], E4 as [E4 W2].
  split; [|split].
  - rewrite E1, E2, E3, E4, E5.
    rewrite <- (take_drop_while not_dq s5) at 1. rewrite E6.
    list_norm. reflexivity.
  - exists w1, w2. auto.
  - apply take_while_all.
Qed.

Lemma node_head_complete (prop_name s hdr old rest : str) :
  node_at prop_name s hdr old rest ->
  node_head prop_name s = Some (hdr, old, rest).
Proof.
  intros (Es & (w1 & w2 & Eh & W1 & W2) & Hold). subst s hdr.
  unfold node_head.
  pose (s5 := old ++ dq :: rest).
  pose (s3 := w2 ++ dq :: s5).
  pose (s2 := (prop_name ++ [dq]) ++ s3).
  assert (E1 : (lit "(property" ++ w1 ++ dq :: prop_name ++ dq :: w2 ++ [dq])
                 ++ old ++ dq :: rest
               = lit "(property" ++ w1 ++ dq :: s2)
    by (unfold s2, s3, s5; list_norm; reflexivity).
  rewrite E1, eat_app.
  rewrite eat_ws_app by (auto; reflexivity).
  change (dq :: s2) with ((dq :: prop_name ++ [dq]) ++ s3).
  rewrite eat_app. unfold s3.
  rewrite eat_ws_app by (auto; reflexivity).
  change (dq :: s5) with ([dq] ++ s5). rewrite eat_app. unfold s5.
  destruct (take_while_app not_dq old dq rest Hold eq_refl) as [A B].
  rewrite A, B. change (dq :: rest) with ([dq] ++ rest). rewrite eat_app.
  reflexivity.
Qed.

Lemma node_head_none (prop_name s : str) :
  node_head prop_name s = None ->
  forall hdr old rest, ~ node_at prop_name s hdr old rest.
Proof.
  intros H hdr old rest Hn. apply node_head_complete in Hn. congruence.
Qed.

Lemma header_length (prop_name hdr : str) :
  header prop_name hdr -> 0 < List.length hdr.
Proof. intros (w1 & w2 & -> & _). simpl. lia. Qed.

Lemma firstn_skipn_mid (pre x post : str) (a b : nat) :
  a = List.length pre -> b = a + List.length x ->
  firstn (b - a) (skipn a (pre ++ x ++ post)) = x.
Proof.
  intros -> ->. rewrite skipn_exact.
  replace (List.length pre + List.length x - List.length pre)
    with (List.length x + 0) by lia.
  rewrite firstn_past. simpl. apply app_nil_r.
Qed.

(** The template puts the two groups back around the new value. *)
Lemma tpl_value_node (prop_name prop_value pre s hdr old rest : str) :
  node_at prop_name s hdr old rest ->
  let i := List.length pre in
  let a := i + List.length hdr in
  let b := a + List.length old in
  tpl_value prop_value (pre ++ s)
    (MkMatch i (S b) [(5, S b); (4, b); (3, a); (2, i)])
  = hdr ++ prop_value ++ [dq].
Proof.
  intros (Es & _ & _) i a b. subst s. unfold tpl_value, group.
  cbn [m_marks mark_get Nat.eqb Nat.mul Nat.add].
  rewrite (firstn_skipn_mid pre hdr (old ++ dq :: rest) i a eq_refl eq_refl).
  replace (pre ++ hdr ++ old ++ dq :: rest)
    with ((pre ++ hdr ++ old) ++ [dq] ++ rest)
    by (list_norm; reflexivity).
  rewrite (firstn_skipn_mid (pre ++ hdr ++ old) [dq] rest b (S b)).
  - reflexivity.
  - unfold b, a, i. rewrite !length_app. lia.
  - simpl. lia.
Qed.

(** ** In-place replacement *)

Lemma sub_from_skip (its : list item) (tpl : str -> re_match -> str) (whole : str) :
  forall k s i,
    k <= List.length s ->
    sub_from its tpl whole s i k = sub_from its tpl whole (skipn k s) (i + k) 0.
Proof.
  induction k as [|k IH]; intros s i Hk.
  - rewrite Nat.add_0_r. reflexivity.
  - destruct s as [|c s]; [simpl in Hk; lia|].
    simpl in Hk. cbn [sub_from skipn]. rewrite IH by lia.
    rewrite Nat.add_succ_r. reflexivity.
Qed.

Lemma node_at_skipn (prop_name s hdr old rest : str) :
  node_at prop_name s hdr old rest ->
  skipn (S (List.length hdr + List.length old)) s = rest.
Proof.
  intros (-> & _ & _).
  replace (hdr ++ old ++ dq :: rest) with ((hdr ++ old ++ [dq]) ++ rest)
    by (list_norm; reflexivity).
  replace (S (List.length hdr + List.length old))
    with (List.length (hdr ++ old ++ [dq]))
    by (rewrite !length_app; simpl; lia).
  apply skipn_exact.
Qed.

Lemma node_at_length (prop_name s hdr old rest : str) :
  node_at prop_name s hdr old rest ->
  List.length s = S (List.length hdr + List.length old) + List.length rest.
Proof. intros (-> & _ & _). rewrite !length_app. simpl. lia. Qed.

Lemma sub_from_value_edit (prop_name prop_value : str) :
  forall n s pre,
    List.length s <= n ->
    value_edit prop_name prop_value s
      (sub_from (pat_existing prop_name) (tpl_value prop_value)
                (pre ++ s) s (List.length pre) 0).
Proof.
  induction n as [|n IH]; intros s pre Hn.
  - destruct s; [|simpl in Hn; lia]. cbn [sub_from].
    rewrite match_here_existing. simpl. constructor.
  - destruct s as [|c s].
    + cbn [sub_from]. rewrite match_here_existing. simpl. constructor.
    + cbn [sub_from]. rewrite match_here_existing.
      destruct (node_head prop_name (c :: s)) as [[[hdr old] rest]|] eqn:Eh.
      * apply node_head_sound in Eh. cbv zeta.
        cbn [m_end].
        replace (Nat.eqb _ (List.length pre)) with false
          by (symmetry; apply Nat.eqb_neq; lia).
        rewrite (tpl_value_node prop_name prop_value pre (c :: s) hdr old rest Eh).
        pose proof (node_at_skipn _ _ _ _ _ Eh) as Hsk.
        pose proof (node_at_length _ _ _ _ _ Eh) as Hlen.
        simpl in Hsk, Hlen.
        rewrite sub_from_skip by lia.
        replace (S (List.length pre + List.length hdr + List.length old)
                 - List.length pre - 1)
          with (List.length hdr + List.length old) by lia.
        rewrite Hsk.
        assert (Ew : pre ++ c :: s = (pre ++ hdr ++ old ++ [dq]) ++ rest).
        { destruct Eh as (-> & _). list_norm. reflexivity. }
        rewrite Ew.
        replace (S (List.length pre) + (List.length hdr + List.length old))
          with (List.length (pre ++ hdr ++ old ++ [dq]))
          by (rewrite !length_app; simpl; lia).
        set (out := sub_from _ _ _ rest _ 0).
        replace ((hdr ++ prop_value ++ [dq]) ++ out)
          with (hdr ++ prop_value ++ dq :: out) by (list_norm; reflexivity).
        apply (ve_node prop_name prop_value (c :: s) hdr old rest out Eh).
        unfold out.
        apply IH. simpl in Hn. lia.
      * apply ve_keep; [apply node_head_none; exact Eh|].
        replace (pre ++ c :: s) with ((pre ++ [c]) ++ s) by (list_norm; reflexivity).
        replace (S (List.length pre)) with (List.length (pre ++ [c]))
          by (rewrite length_app; simpl; lia).
        apply IH. simpl in Hn. lia.
Qed.

Lemma re_sub_value_edit (prop_name prop_value s : str) :
  value_edit prop_name prop_value s
    (re_sub (pat_existing prop_name) (tpl_value prop_value) s).
Proof.
  unfold re_sub.
  exact (sub_from_value_edit prop_name prop_value (List.length s) s [] (le_n _)).
Qed.

(** C7, as the specification words it, fails on a block that holds the
    property twice: both values are rewritten, so the result is not the
    block with one stretch of text replaced by the new value. *)
Lemma both_nodes_rewritten :
  re_search (pat_existing LCSC) block_twice <> None
  /\ _update_property block_twice LCSC (lit "C1002")
     = qlit "(symbol (lib_id 'Device:R')|~(property 'Reference' 'R1' (at 3 4 0))|~(property 'LCSC' 'C1002' (at 3 4 0))|~(property 'LCSC' 'C1002' (at 3 4 0))|~(pin '1' (uuid x))|)"
  /\ ~ exists pre old post,
         block_twice = pre ++ old ++ post
         /\ _update_property block_twice LCSC (lit "C1002")
            = pre ++ lit "C1002" ++ post.
Proof.
  split; [vm_compute; discriminate|]. split; [vm_compute; reflexivity|].
  intros (pre & old & post & E1 & E2).
  apply (f_equal (@List.length N)) in E1, E2.
  rewrite !length_app in E1, E2.
  set (n1 := List.length block_twice) in E1. vm_compute in n1.
  set (n2 := List.length (_update_property block_twice LCSC (lit "C1002"))) in E2.
  vm_compute in n2.
  set (n3 := List.length (lit "C1002")) in E2. vm_compute in n3.
  subst n1 n2 n3. lia.
Qed.

(** ** The block as a list of tokens

    Matches of the property pattern are decided by the double quotes of
    the text: the block is cut at every double quote, and a node is four
    consecutive tokens (header start, name, white space, value) followed by
    at least one more. *)

Lemma tokens_nonempty (s : str) : tokens s <> [].
Proof.
  induction s as [|c s IH]; simpl; [discriminate|].
  destruct (N.eqb c dq); [discriminate|].
  destruct (tokens s); discriminate.
Qed.

Lemma join_cons (t : str) (ts : list str) :
  ts <> [] -> join (t :: ts) = t ++ dq :: join ts.
Proof. destruct ts; [congruence|reflexivity]. Qed.

Lemma join_tokens (s : str) : join (tokens s) = s.
Proof.
  induction s as [|c s IH]; [reflexivity|]. cbn [tokens].
  destruct (N.eqb_spec c dq) as [->|Hc].
  - rewrite join_cons by apply tokens_nonempty. simpl. rewrite IH. reflexivity.
  - pose proof (tokens_nonempty s) as Hne.
    destruct (tokens s) as [|t [|t' ts]]; [congruence| |].
    + simpl in *. rewrite IH. reflexivity.
    + rewrite join_cons by discriminate. rewrite join_cons in IH by discriminate.
      rewrite <- IH. reflexivity.
Qed.

Lemma tokens_inj (a b : str) : tokens a = tokens b -> a = b.
Proof. intros H. rewrite <- (join_tokens a), <- (join_tokens b), H. reflexivity. Qed.

Lemma tokens_no_dq (s : str) : Forall (fun t => no_dq t = true) (tokens s).
Proof.
  induction s as [|c s IH]; simpl; [repeat constructor|].
  destruct (N.eqb c dq) eqn:Ec; [constructor; auto|].
  destruct (tokens s) as [|t ts]; [repeat constructor; simpl|].
  - unfold not_dq. rewrite Ec. reflexivity.
  - inversion IH; subst. constructor; auto. simpl.
    unfold not_dq at 1. rewrite Ec. simpl. assumption.
Qed.

Lemma tokens_app_dq (x r : str) :
  no_dq x = true -> tokens (x ++ dq :: r) = x :: tokens r.
Proof.
  induction x as [|c x IH]; intros H; simpl in *.
  - reflexivity.
  - apply andb_true_iff in H. destruct H as [Hc Hx].
    unfold not_dq in Hc. apply negb_true_iff in Hc. rewrite Hc.
    rewrite (IH Hx). reflexivity.
Qed.

Lemma tokens_plain (x : str) : no_dq x = true -> tokens x = [x].
Proof.
  induction x as [|c x IH]; intros H; simpl in *; [reflexivity|].
  apply andb_true_iff in H. destruct H as [Hc Hx].
  unfold not_dq in Hc. apply negb_true_iff in Hc. rewrite Hc.
  rewrite (IH Hx). reflexivity.
Qed.

Lemma ws_plus_no_dq (w : str) : ws_plus w = true -> no_dq w = true.
Proof.
  unfold ws_plus, no_dq. intros H. apply andb_true_iff in H. destruct H as [_ H].
  rewrite forallb_forall in *. intros c Hc. specialize (H c Hc).
  unfold not_dq. destruct (N.eqb_spec c dq); [subst; discriminate|reflexivity].
Qed.

Lemma no_dq_app (a b : str) : no_dq (a ++ b) = no_dq a && no_dq b.
Proof. apply forallb_app. Qed.

Lemma is_hdr0_split (t : str) :
  is_hdr0 t = true ->
  t = lit "(property" ++ skipn 9 t /\ ws_plus (skipn 9 t) = true.
Proof.
  unfold is_hdr0. intros H. apply andb_true_iff in H. destruct H as [H1 H2].
  split; [|exact H2]. exact (startswith_split _ _ H1).
Qed.

Lemma is_hdr0_intro (w : str) :
  ws_plus w = true -> is_hdr0 (lit "(property" ++ w) = true.
Proof.
  intros H. unfold is_hdr0. rewrite startswith_app.
  change 9 with (List.length (lit "(property")). rewrite skipn_exact. exact H.
Qed.

Lemma is_hdr0_ends (t : str) : is_hdr0 t = true -> ends_hdr t = true.
Proof. intros H. destruct t; cbn [ends_hdr]; rewrite H; reflexivity. Qed.

Lemma header_tokens (prop_name hdr : str) :
  header prop_name hdr ->
  exists t0 t2,
    hdr = t0 ++ dq :: prop_name ++ dq :: t2 ++ [dq]
    /\ is_hdr0 t0 = true /\ ws_plus t2 = true /\ no_dq t0 = true.
Proof.
  intros (w1 & w2 & -> & W1 & W2).
  exists (lit "(property" ++ w1), w2.
  split; [list_norm; reflexivity|].
  split; [apply is_hdr0_intro; exact W1|].
  split; [exact W2|].
  rewrite no_dq_app, (ws_plus_no_dq _ W1). reflexivity.
Qed.

(** A node at the head of the text, read on its tokens. *)
Lemma node_at_tokens (prop_name s hdr old rest : str) :
  no_dq prop_name = true ->
  node_at prop_name s hdr old rest ->
  exists t0 t2,
    tokens s = t0 :: prop_name :: t2 :: old :: tokens rest
    /\ hdr = t0 ++ dq :: prop_name ++ dq :: t2 ++ [dq]
    /\ is_hdr0 t0 = true /\ ws_plus t2 = true /\ no_dq t0 = true.
Proof.
  intros Hname (-> & Hh & Hold).
  destruct (header_tokens _ _ Hh) as (t0 & t2 & -> & H0 & H2 & N0).
  exists t0, t2. repeat split; auto.
  replace ((t0 ++ dq :: prop_name ++ dq :: t2 ++ [dq]) ++ old ++ dq :: rest)
    with (t0 ++ dq :: prop_name ++ dq :: t2 ++ dq :: old ++ dq :: rest)
    by (list_norm; reflexivity).
  rewrite !tokens_app_dq; auto using ws_plus_no_dq.
Qed.

Lemma tokens_node_at (prop_name s t0 t2 t3 t4 : str) (ts : list str) :
  tokens s = t0 :: prop_name :: t2 :: t3 :: t4 :: ts ->
  is_hdr0 t0 = true -> ws_plus t2 = true ->
  node_at prop_name s (t0 ++ dq :: prop_name ++ dq :: t2 ++ [dq]) t3
          (join (t4 :: ts)).
Proof.
  intros Ht H0 H2.
  pose proof (tokens_no_dq s) as Hnd. rewrite Ht in Hnd.
  inversion Hnd as [|? ? _ Hnd1]; subst. inversion Hnd1 as [|? ? _ Hnd2]; subst.
  inversion Hnd2 as [|? ? _ Hnd3]; subst. inversion Hnd3 as [|? ? N3 _]; subst.
  split; [|split; [|exact N3]].
  - rewrite <- (join_tokens s), Ht.
    rewrite !join_cons by discriminate. list_norm. reflexivity.
  - destruct (is_hdr0_split _ H0) as [E W1].
    exists (skipn 9 t0), t2. split; [|auto].
    rewrite E at 1. list_norm. reflexivity.
Qed.

Lemma str_eqb_refl (a : str) : str_eqb a a = true.
Proof. destruct (str_eqb_spec a a); congruence. Qed.

Lemma node_at_headT (prop_name s hdr old rest : str) :
  no_dq prop_name = true ->
  node_at prop_name s hdr old rest -> headT prop_name (tokens s) = true.
Proof.
  intros Hn H. destruct (node_at_tokens _ _ _ _ _ Hn H)
    as (t0 & t2 & Ht & _ & H0 & H2 & _).
  rewrite Ht. simpl. rewrite H0, H2, str_eqb_refl.
  pose proof (tokens_nonempty rest). destruct (tokens rest); [congruence|reflexivity].
Qed.

Lemma no_node_headT (prop_name s : str) :
  (forall hdr old rest, ~ node_at prop_name s hdr old rest) ->
  headT prop_name (tokens s) = false.
Proof.
  intros H. destruct (headT prop_name (tokens s)) eqn:E; [|reflexivity].
  exfalso. unfold headT in E.
  destruct (tokens s) as [|t0 [|t1 [|t2 [|t3 [|t4 ts]]]]] eqn:Ht;
    simpl in E; try discriminate;
    try (rewrite andb_false_r in E; discriminate).
  apply andb_true_iff in E. destruct E as [H0 E].
  apply andb_true_iff in E. destruct E as [E1 E2].
  destruct (str_eqb_spec t1 prop_name); [subst t1|discriminate].
  exact (H _ _ _ (tokens_node_at _ _ _ _ _ _ _ Ht H0 E2)).
Qed.

Lemma subT_hit (prop_name v t0 t1 t2 t3 t4 : str) (ts : list str) :
  condT prop_name (t0 :: t1 :: t2 :: t3 :: t4 :: ts) = true ->
  subT prop_name v (t0 :: t1 :: t2 :: t3 :: t4 :: ts)
  = t0 :: t1 :: t2 :: v :: subT prop_name v (t4 :: ts).
Proof. intros H. cbn [subT]. rewrite H. reflexivity. Qed.

Lemma subT_miss (prop_name v t0 : str) (r : list str) :
  condT prop_name (t0 :: r) = false ->
  subT prop_name v (t0 :: r) = t0 :: subT prop_name v r.
Proof.
  intros H. destruct r as [|t1 [|t2 [|t3 [|t4 ts]]]]; try reflexivity.
  cbn [subT]. rewrite H. reflexivity.
Qed.

Lemma valuesT_hit (prop_name t0 t1 t2 t3 t4 : str) (ts : list str) :
  condT prop_name (t0 :: t1 :: t2 :: t3 :: t4 :: ts) = true ->
  valuesT prop_name (t0 :: t1 :: t2 :: t3 :: t4 :: ts)
  = t3 :: valuesT prop_name (t4 :: ts).
Proof. intros H. cbn [valuesT]. rewrite H. reflexivity. Qed.

Lemma valuesT_miss (prop_name t0 : str) (r : list str) :
  condT prop_name (t0 :: r) = false ->
  valuesT prop_name (t0 :: r) = valuesT prop_name r.
Proof.
  intros H. destruct r as [|t1 [|t2 [|t3 [|t4 ts]]]]; try reflexivity.
  cbn [valuesT]. rewrite H. reflexivity.
Qed.

Lemma subT_head (prop_name v t0 : str) (r : list str) :
  exists r', subT prop_name v (t0 :: r) = t0 :: r'.
Proof.
  destruct (condT prop_name (t0 :: r)) eqn:E.
  - destruct r as [|t1 [|t2 [|t3 [|t4 ts]]]]; simpl in E;
      try (rewrite andb_false_r in E; discriminate).
    rewrite subT_hit by exact E. eauto.
  - rewrite subT_miss by exact E. eauto.
Qed.

(** One character more in front of a token that starts no node. *)
Lemma condT_grow (prop_name : str) (c : N) (t : str) (r : list str) :
  headT prop_name ((c :: t) :: r) = false ->
  condT prop_name ((c :: t) :: r) = condT prop_name (t :: r).
Proof.
  unfold headT, condT. cbn [ends_hdr].
  destruct (tailT prop_name r); [|rewrite !andb_false_r; reflexivity].
  rewrite !andb_true_r. intros ->. reflexivity.
Qed.

Lemma tokens_cons (c : N) (s : str) :
  N.eqb c dq = false ->
  exists t ts, tokens s = t :: ts /\ tokens (c :: s) = (c :: t) :: ts.
Proof.
  intros Hc. cbn [tokens]. rewrite Hc.
  pose proof (tokens_nonempty s). destruct (tokens s) as [|t ts]; [congruence|].
  eauto.
Qed.

Lemma condT_nil_head (prop_name : str) (r : list str) :
  condT prop_name ([] :: r) = false.
Proof. reflexivity. Qed.

Lemma node_condT (prop_name s hdr old rest : str) :
  no_dq prop_name = true ->
  node_at prop_name s hdr old rest ->
  exists t0 t2 t4 ts,
    tokens s = t0 :: prop_name :: t2 :: old :: t4 :: ts
    /\ tokens rest = t4 :: ts
    /\ hdr = t0 ++ dq :: prop_name ++ dq :: t2 ++ [dq]
    /\ no_dq t0 = true /\ ws_plus t2 = true
    /\ condT prop_name (t0 :: prop_name :: t2 :: old :: t4 :: ts) = true.
Proof.
  intros Hn H.
  destruct (node_at_tokens _ _ _ _ _ Hn H) as (t0 & t2 & Ht & Eh & H0 & H2 & N0).
  pose proof (tokens_nonempty rest) as Hne.
  destruct (tokens rest) as [|t4 ts] eqn:Er; [congruence|].
  exists t0, t2, t4, ts. repeat split; auto.
  simpl. rewrite (is_hdr0_ends _ H0), str_eqb_refl, H2. reflexivity.
Qed.

(** [re.sub] on the text is [subT] on its tokens. *)
Lemma value_edit_tokens (prop_name v s s' : str) :
  no_dq prop_name = true -> no_dq v = true ->
  value_edit prop_name v s s' ->
  tokens s' = subT prop_name v (tokens s).
Proof.
  intros Hn Hv. induction 1 as [|c s s' Hno _ IH|s hdr old rest rest' Hnode _ IH].
  - reflexivity.
  - destruct (N.eqb c dq) eqn:Ec.
    + cbn [tokens]. rewrite Ec, IH.
      rewrite subT_miss by apply condT_nil_head. reflexivity.
    + destruct (tokens_cons c s Ec) as (t & ts & Ht & Hct).
      destruct (tokens_cons c s' Ec) as (t' & ts' & Ht' & Hct').
      rewrite Hct, Hct'.
      pose proof (no_node_headT _ _ Hno) as Hh. rewrite Hct in Hh.
      pose proof (condT_grow _ _ _ _ Hh) as Hc.
      rewrite Ht, Ht' in IH.
      destruct (condT prop_name (t :: ts)) eqn:E.
      * destruct ts as [|t1 [|t2 [|t3 [|t4 ts]]]]; simpl in E;
          try (rewrite andb_false_r in E; discriminate).
        rewrite subT_hit in IH |- * by assumption.
        inversion IH; subst. reflexivity.
      * rewrite subT_miss in IH |- * by assumption.
        inversion IH; subst. reflexivity.
  - destruct (node_condT _ _ _ _ _ Hn Hnode)
      as (t0 & t2 & t4 & ts & Ht & Hr & -> & N0 & W2 & Hc).
    rewrite Ht, subT_hit by exact Hc. rewrite <- Hr, <- IH.
    replace ((t0 ++ dq :: prop_name ++ dq :: t2 ++ [dq]) ++ v ++ dq :: rest')
      with (t0 ++ dq :: prop_name ++ dq :: t2 ++ dq :: v ++ dq :: rest')
      by (list_norm; reflexivity).
    rewrite !tokens_app_dq; auto using ws_plus_no_dq.
Qed.

Lemma nodes_tokens (prop_name s : str) (l : list str) :
  no_dq prop_name = true ->
  nodes prop_name s l ->
  l = valuesT prop_name (tokens s).
Proof.
  intros Hn. induction 1 as [|c s l Hno _ IH|s hdr old rest l Hnode _ IH].
  - reflexivity.
  - destruct (N.eqb c dq) eqn:Ec.
    + cbn [tokens]. rewrite Ec, valuesT_miss by apply condT_nil_head. exact IH.
    + destruct (tokens_cons c s Ec) as (t & ts & Ht & Hct).
      rewrite Hct.
      pose proof (no_node_headT _ _ Hno) as Hh. rewrite Hct in Hh.
      pose proof (condT_grow _ _ _ _ Hh) as Hc.
      rewrite Ht in IH.
      destruct (condT prop_name (t :: ts)) eqn:E.
      * destruct ts as [|t1 [|t2 [|t3 [|t4 ts]]]]; simpl in E;
          try (rewrite andb_false_r in E; discriminate).
        rewrite valuesT_hit in IH |- * by assumption. exact IH.
      * rewrite valuesT_miss in IH |- * by assumption. exact IH.
  - destruct (node_condT _ _ _ _ _ Hn Hnode)
      as (t0 & t2 & t4 & ts & Ht & Hr & -> & N0 & W2 & Hc).
    rewrite Ht, valuesT_hit by exact Hc. rewrite <- Hr, <- IH. reflexivity.
Qed.

Lemma finditer_skip (its : list item) :
  forall k s i,
    k <= List.length s ->
    finditer_from its s i k = finditer_from its (skipn k s) (i + k) 0.
Proof.
  induction k as [|k IH]; intros s i Hk.
  - rewrite Nat.add_0_r. reflexivity.
  - destruct s as [|c s]; [simpl in Hk; lia|].
    simpl in Hk. cbn [finditer_from skipn]. rewrite IH by lia.
    rewrite Nat.add_succ_r. reflexivity.
Qed.

Lemma between_value (prop_name pre s hdr old rest : str) :
  node_at prop_name s hdr old rest ->
  let i := List.length pre in
  let a := i + List.length hdr in
  let b := a + List.length old in
  between (pre ++ s) (MkMatch i (S b) [(5, S b); (4, b); (3, a); (2, i)]) 3 4 = old.
Proof.
  intros (-> & _ & _) i a b. unfold between.
  cbn [m_marks mark_get Nat.eqb].
  replace (pre ++ hdr ++ old ++ dq :: rest)
    with ((pre ++ hdr) ++ old ++ dq :: rest) by (list_norm; reflexivity).
  apply firstn_skipn_mid.
  - unfold a, i. rewrite length_app. reflexivity.
  - reflexivity.
Qed.

(** What [re.finditer] returns for the pattern are the nodes of the text. *)
Lemma finditer_nodes (prop_name : str) :
  forall n s pre,
    List.length s <= n ->
    nodes prop_name s
      (map (fun m => between (pre ++ s) m 3 4)
           (finditer_from (pat_existing prop_name) s (List.length pre) 0)).
Proof.
  induction n as [|n IH]; intros s pre Hn.
  - destruct s; [|simpl in Hn; lia]. cbn [finditer_from].
    rewrite match_here_existing. simpl. constructor.
  - destruct s as [|c s].
    + cbn [finditer_from]. rewrite match_here_existing. simpl. constructor.
    + cbn [finditer_from]. rewrite match_here_existing.
      destruct (node_head prop_name (c :: s)) as [[[hdr old] rest]|] eqn:Eh.
      * apply node_head_sound in Eh. cbv zeta. cbn [map m_end].
        rewrite (between_value prop_name pre (c :: s) hdr old rest Eh).
        pose proof (node_at_skipn _ _ _ _ _ Eh) as Hsk.
        pose proof (node_at_length _ _ _ _ _ Eh) as Hlen.
        simpl in Hsk, Hlen.
        rewrite finditer_skip by lia.
        replace (S (List.length pre + List.length hdr + List.length old)
                 - List.length pre - 1)
          with (List.length hdr + List.length old) by lia.
        rewrite Hsk.
        assert (Ew : pre ++ c :: s = (pre ++ hdr ++ old ++ [dq]) ++ rest).
        { destruct Eh as (-> & _). list_norm. reflexivity. }
        rewrite Ew.
        replace (S (List.length pre) + (List.length hdr + List.length old))
          with (List.length (pre ++ hdr ++ old ++ [dq]))
          by (rewrite !length_app; simpl; lia).
        apply (nodes_node prop_name (c :: s) hdr old rest _ Eh).
        apply IH. simpl in Hn. lia.
      * apply nodes_keep; [apply node_head_none; exact Eh|].
        replace (pre ++ c :: s) with ((pre ++ [c]) ++ s) by (list_norm; reflexivity).
        replace (S (List.length pre)) with (List.length (pre ++ [c]))
          by (rewrite length_app; simpl; lia).
        apply IH. simpl in Hn. lia.
Qed.

Lemma node_values_nodes (prop_name s : str) :
  nodes prop_name s (node_values prop_name s).
Proof.
  exact (finditer_nodes prop_name (List.length s) s [] (le_n _)).
Qed.

Lemma node_values_tokens (prop_name s : str) :
  no_dq prop_name = true ->
  node_values prop_name s = valuesT prop_name (tokens s).
Proof. intros Hn. apply nodes_tokens; [exact Hn|apply node_values_nodes]. Qed.

Lemma search_nodes (prop_name s : str) (l : list str) :
  nodes prop_name s l ->
  forall i, search_from (pat_existing prop_name) s i = None <-> l = [].
Proof.
  induction 1 as [|c s l Hno _ IH|s hdr old rest l Hnode _ IH]; intros i.
  - cbn [search_from]. rewrite match_here_existing. simpl. tauto.
  - cbn [search_from]. rewrite match_here_existing.
    destruct (node_head prop_name (c :: s)) as [[[hdr old] rest]|] eqn:Eh.
    + apply node_head_sound in Eh. exfalso. exact (Hno _ _ _ Eh).
    + apply IH.
  - apply node_head_complete in Hnode.
    destruct s as [|c s]; cbn [search_from]; rewrite match_here_existing, Hnode;
      cbv zeta; split; discriminate.
Qed.

(** The test of [_update_property]: the pattern is found exactly when the
    block holds a node. *)
Lemma search_existing_values (prop_name s : str) :
  re_search (pat_existing prop_name) s = None <-> node_values prop_name s = [].
Proof. apply search_nodes. apply node_values_nodes. Qed.

(** ** The values the replacement rewrites, and the quoted values *)

Lemma quoted_value_from_plain (old rest : str) :
  no_dq old = true ->
  forall bs,
    Nat.even (backslash_run bs old) = true ->
    quoted_value_from (old ++ dq :: rest) bs = Some (old, rest).
Proof.
  intros Hnd. induction old as [|c old IH]; intros bs Hev.
  - cbn [app quoted_value_from]. unfold backslash_run in Hev. simpl in Hev.
    rewrite N.eqb_refl, Hev. reflexivity.
  - cbn [no_dq forallb] in Hnd. apply andb_true_iff in Hnd. destruct Hnd as [Hc Hnd].
    unfold not_dq in Hc. apply negb_true_iff in Hc.
    cbn [app quoted_value_from]. rewrite Hc. cbn [andb].
    unfold backslash_run in Hev. cbn [fold_left] in Hev.
    rewrite (IH Hnd _ Hev). reflexivity.
Qed.

Lemma drop_while_dq (t : str) :
  In dq t -> exists r, drop_while not_dq t = dq :: r.
Proof.
  induction t as [|c t IH]; intros Hin; [contradiction|].
  cbn [drop_while]. unfold not_dq at 1.
  destruct (N.eqb_spec c dq) as [->|Hne]; cbn [negb].
  - eauto.
  - destruct Hin as [Hc|Hin]; [congruence|]. exact (IH Hin).
Qed.

(** Where a node of the specification starts, the pattern finds a node. *)
Lemma quoted_node_is_node (prop_name s hdr old rest : str) :
  quoted_node_at prop_name s hdr old rest ->
  exists old' rest', node_at prop_name s hdr old' rest'.
Proof.
  intros (Es & Hh & _).
  assert (Hin : In dq (old ++ dq :: rest))
    by (apply in_or_app; right; left; reflexivity).
  destruct (drop_while_dq _ Hin) as [r Hr].
  exists (take_while not_dq (old ++ dq :: rest)), r.
  split; [|split; [exact Hh|apply take_while_all]].
  rewrite Es. f_equal. rewrite <- Hr. symmetry. apply take_drop_while.
Qed.

Lemma node_at_unique (prop_name s h1 o1 r1 h2 o2 r2 : str) :
  node_at prop_name s h1 o1 r1 -> node_at prop_name s h2 o2 r2 ->
  h1 = h2 /\ o1 = o2 /\ r1 = r2.
Proof.
  intros H1 H2. apply node_head_complete in H1, H2.
  rewrite H1 in H2. inversion H2. auto.
Qed.

Lemma node_at_nonempty (prop_name hdr old rest : str) :
  ~ node_at prop_name [] hdr old rest.
Proof.
  intros (Es & Hh & _). pose proof (header_length _ _ Hh) as L.
  destruct hdr; [simpl in L; lia|discriminate].
Qed.

(** In a block none of whose nodes holds an escaped double quote, the
    values the pattern rewrites are the quoted values. *)
Lemma value_edit_quoted (prop_name v s s' : str) :
  value_edit prop_name v s s' ->
  forall l,
    nodes prop_name s l ->
    forallb quote_closes l = true ->
    quoted_value_edit prop_name v s s'.
Proof.
  induction 1 as [|c s s' Hno _ IH|s hdr old rest rest' Hnode _ IH];
    intros l Hl Hq.
  - constructor.
  - inversion Hl as [|c0 s0 l0 Hno0 Hl0|s0 hdr0 old0 rest0 l0 Hnode0 Hl0]; subst.
    + apply qe_keep; [|exact (IH _ Hl0 Hq)].
      intros hdr old rest Hn.
      destruct (quoted_node_is_node _ _ _ _ _ Hn) as (old' & rest' & Hn').
      exact (Hno _ _ _ Hn').
    + exfalso. exact (Hno _ _ _ Hnode0).
  - inversion Hl as [|c0 s0 l0 Hno0 Hl0|s0 hdr0 old0 rest0 l0 Hnode0 Hl0]; subst.
    + exfalso. exact (node_at_nonempty _ _ _ _ Hnode).
    + exfalso. exact (Hno0 _ _ _ Hnode).
    + destruct (node_at_unique _ _ _ _ _ _ _ _ Hnode Hnode0) as (<- & <- & <-).
      cbn [forallb] in Hq. apply andb_true_iff in Hq. destruct Hq as [Hq1 Hq2].
      apply (qe_node _ _ _ hdr old rest rest'); [|exact (IH _ Hl0 Hq2)].
      destruct Hnode as (Es & Hh & Hnd).
      split; [exact Es|]. split; [exact Hh|].
      apply quoted_value_from_plain; assumption.
Qed.

(** C7, as the code has it.  When the block holds property nodes with the
    target name, the update changes nothing but their quoted values: in
    every such node (not in one node only) the quoted value is replaced by
    the new value, and every other character of the block is kept.  (The
    name is literal pattern text, the new value holds no backslash, and no
    such node of the block has an escaped double quote in its value.) *)
Theorem update_property_rewrites_quoted_values (raw prop_name prop_value : str) :
  name_literal prop_name = true ->
  value_literal prop_value = true ->
  re_search (pat_existing prop_name) raw <> None ->
  forallb quote_closes (node_values prop_name raw) = true ->
  quoted_value_edit prop_name prop_value raw
    (_update_property raw prop_name prop_value).
Proof.
  intros _ _ Hs Hq. unfold _update_property.
  destruct (re_search (pat_existing prop_name) raw); [|congruence].
  apply (value_edit_quoted _ _ _ _ (re_sub_value_edit _ _ _)
           (node_values prop_name raw)); [apply node_values_nodes|exact Hq].
Qed.

Lemma update_property_rewrites_quoted_values_witness :
  name_literal LCSC = true
  /\ value_literal (lit "C1002") = true
  /\ re_search (pat_existing LCSC) block_lcsc <> None
  /\ forallb quote_closes (node_values LCSC block_lcsc) = true
  /\ _update_property block_lcsc LCSC (lit "C1002")
     = qlit "(symbol (lib_id 'Device:R')|~(property 'Reference' 'R1' (at 3 4 0))|~(property 'LCSC' 'C1002' (at 3 4 0))|~(pin '1' (uuid x))|)"
  /\ quoted_value_edit LCSC (lit "C1002") block_lcsc
       (_update_property block_lcsc LCSC (lit "C1002")).
Proof.
  split; [reflexivity|]. split; [reflexivity|].
  assert (H : re_search (pat_existing LCSC) block_lcsc <> None)
    by (vm_compute; discriminate).
  split; [exact H|].
  assert (Hq : forallb quote_closes (node_values LCSC block_lcsc) = true)
    by (vm_compute; reflexivity).
  split; [exact Hq|]. split; [vm_compute; reflexivity|].
  apply update_property_rewrites_quoted_values;
    [reflexivity|reflexivity|exact H|exact Hq].
Defined.

(** ** Replacement on tokens *)

Lemma list_len_ind (A : Type) (P : list A -> Prop) :
  (forall l, (forall l', List.length l' < List.length l -> P l') -> P l) ->
  forall l, P l.
Proof.
  intros H l. remember (List.length l) as n eqn:E. revert l E.
  induction n as [n IH] using lt_wf_ind. intros l ->.
  apply H. intros l' Hl. exact (IH _ Hl l' eq_refl).
Qed.

Lemma subT_length (X v : str) : forall ts,
  List.length (subT X v ts) = List.length ts.
Proof.
  induction ts as [ts IH] using list_len_ind.
  destruct ts as [|t0 r]; [reflexivity|].
  destruct (condT X (t0 :: r)) eqn:E.
  - destruct r as [|t1 [|t2 [|t3 [|t4 ts]]]]; simpl in E;
      try (rewrite andb_false_r in E; discriminate).
    rewrite subT_hit by exact E. cbn [List.length].
    rewrite IH by (simpl; lia). reflexivity.
  - rewrite subT_miss by exact E. cbn [List.length].
    rewrite IH by (simpl; lia). reflexivity.
Qed.

Lemma tailT_ext (n : str) (r r' : list str) :
  firstn 2 r = firstn 2 r' -> List.length r = List.length r' ->
  tailT n r = tailT n r'.
Proof.
  intros Hf Hl.
  destruct r as [|a [|b [|c [|d r]]]], r' as [|a' [|b' [|c' [|d' r']]]];
    simpl in *; try discriminate; try reflexivity.
  inversion Hf; subst. reflexivity.
Qed.

Lemma subT_firstn2 (X v : str) (ts : list str) :
  firstn 2 (subT X v ts) = firstn 2 ts.
Proof.
  destruct ts as [|t0 r]; [reflexivity|].
  destruct (condT X (t0 :: r)) eqn:E.
  - destruct r as [|t1 [|t2 [|t3 [|t4 ts]]]]; simpl in E;
      try (rewrite andb_false_r in E; discriminate).
    rewrite subT_hit by exact E. reflexivity.
  - rewrite subT_miss by exact E.
    destruct r as [|t1 r]; [reflexivity|].
    destruct (subT_head X v t1 r) as [r' ->]. reflexivity.
Qed.

Lemma tailT_subT (n X v : str) (r : list str) :
  tailT n (subT X v r) = tailT n r.
Proof. apply tailT_ext; [apply subT_firstn2|apply subT_length]. Qed.

Lemma condT_subT_tail (n X v t0 : str) (r : list str) :
  condT n (t0 :: subT X v r) = condT n (t0 :: r).
Proof. unfold condT. rewrite tailT_subT. reflexivity. Qed.

(** Replacing twice is replacing once. *)
Lemma subT_idempotent (X v : str) : forall ts,
  subT X v (subT X v ts) = subT X v ts.
Proof.
  induction ts as [ts IH] using list_len_ind.
  destruct ts as [|t0 r]; [reflexivity|].
  destruct (condT X (t0 :: r)) eqn:E.
  - destruct r as [|t1 [|t2 [|t3 [|t4 ts]]]]; simpl in E;
      try (rewrite andb_false_r in E; discriminate).
    rewrite subT_hit by exact E.
    destruct (subT_head X v t4 ts) as [r' Hr'].
    rewrite Hr'. rewrite subT_hit by exact E. rewrite <- Hr'.
    rewrite IH by (simpl; lia). reflexivity.
  - rewrite subT_miss by exact E.
    rewrite subT_miss by (rewrite condT_subT_tail; exact E).
    rewrite IH by (simpl; lia). reflexivity.
Qed.

(** After the replacement every node carries the new value, and there are
    as many nodes as before. *)
Lemma valuesT_subT (X v : str) : forall ts,
  valuesT X (subT X v ts) = repeat v (List.length (valuesT X ts)).
Proof.
  induction ts as [ts IH] using list_len_ind.
  destruct ts as [|t0 r]; [reflexivity|].
  destruct (condT X (t0 :: r)) eqn:E.
  - destruct r as [|t1 [|t2 [|t3 [|t4 ts]]]]; simpl in E;
      try (rewrite andb_false_r in E; discriminate).
    rewrite (subT_hit X v _ _ _ _ _ _ E), (valuesT_hit X _ _ _ _ _ _ E).
    destruct (subT_head X v t4 ts) as [r' Hr'].
    rewrite Hr'. rewrite valuesT_hit by exact E. rewrite <- Hr'.
    rewrite IH by (simpl; lia). reflexivity.
  - rewrite (subT_miss X v t0 r E), (valuesT_miss X t0 r E).
    rewrite valuesT_miss by (rewrite condT_subT_tail; exact E).
    apply IH. simpl. lia.
Qed.

(** ** Two upserts of the same property *)

Lemma re_sub_tokens (prop_name v s : str) :
  no_dq prop_name = true -> no_dq v = true ->
  tokens (re_sub (pat_existing prop_name) (tpl_value v) s)
  = subT prop_name v (tokens s).
Proof.
  intros Hn Hv. apply value_edit_tokens; auto. apply re_sub_value_edit.
Qed.

Lemma re_sub_idempotent (prop_name v s : str) :
  no_dq prop_name = true -> no_dq v = true ->
  re_sub (pat_existing prop_name) (tpl_value v)
         (re_sub (pat_existing prop_name) (tpl_value v) s)
  = re_sub (pat_existing prop_name) (tpl_value v) s.
Proof.
  intros Hn Hv. apply tokens_inj.
  rewrite !re_sub_tokens by assumption. apply subT_idempotent.
Qed.

Lemma node_values_re_sub (prop_name v s : str) :
  no_dq prop_name = true -> no_dq v = true ->
  node_values prop_name (re_sub (pat_existing prop_name) (tpl_value v) s)
  = repeat v (List.length (node_values prop_name s)).
Proof.
  intros Hn Hv. rewrite !node_values_tokens by assumption.
  rewrite re_sub_tokens by assumption. apply valuesT_subT.
Qed.

(** The node that [new_prop] renders is one the pattern finds. *)
Lemma new_prop_found (prop_name v pre post indent coords : str) :
  no_dq v = true ->
  re_search (pat_existing prop_name)
            (pre ++ new_prop indent prop_name v coords ++ post) <> None.
Proof.
  intros Hv.
  set (rest := lit " (at " ++ coords ++ lit ")" ++ [nl] ++ indent ++ [tab]
                 ++ lit "(effects (font (size 1.27 1.27)) hide)"
                 ++ [nl] ++ indent ++ lit ")" ++ post).
  set (hdr := lit "(property" ++ [32%N] ++ dq :: prop_name ++ dq :: [32%N] ++ [dq]).
  assert (E : pre ++ new_prop indent prop_name v coords ++ post
              = (pre ++ [nl] ++ indent) ++ hdr ++ v ++ dq :: rest).
  { unfold new_prop, hdr, rest. list_norm. reflexivity. }
  assert (Hnode : node_at prop_name (hdr ++ v ++ dq :: rest) hdr v rest).
  { split; [reflexivity|]. split; [|exact Hv].
    exists [32%N], [32%N]. repeat split; reflexivity. }
  rewrite E.
  pose proof (match_here_existing prop_name (hdr ++ v ++ dq :: rest)
                (0 + List.length (pre ++ [nl] ++ indent))) as Hm.
  rewrite (node_head_complete _ _ _ _ _ Hnode) in Hm. cbv zeta in Hm.
  set (k := List.length (pre ++ [nl] ++ indent)) in *.
  set (whole := (pre ++ [nl] ++ indent) ++ hdr ++ v ++ dq :: rest).
  assert (Hlen : k <= List.length whole)
    by (unfold whole, k; rewrite !length_app; lia).
  rewrite <- (skipn_exact (pre ++ [nl] ++ indent) (hdr ++ v ++ dq :: rest)) in Hm.
  fold k whole in Hm.
  destruct (search_from_complete _ _ _ _ _ Hlen Hm) as (m' & Hs & _).
  unfold re_search. rewrite Hs. discriminate.
Qed.

(** After an update the block holds the property. *)
Lemma update_property_present (raw prop_name v : str) :
  no_dq prop_name = true -> no_dq v = true ->
  re_search (pat_existing prop_name) (_update_property raw prop_name v) <> None.
Proof.
  intros Hn Hv. unfold _update_property.
  destruct (re_search (pat_existing prop_name) raw) as [m|] eqn:Es.
  - rewrite search_existing_values, node_values_re_sub by assumption.
    assert (Hne : node_values prop_name raw <> []).
    { intros C. apply search_existing_values in C. congruence. }
    destruct (node_values prop_name raw); [congruence|discriminate].
  - destruct (insertion_point raw) as [p indent].
    apply new_prop_found. exact Hv.
Qed.

(** ** Two upserts of different properties *)

Lemma ends_hdr_lparen (t : str) : ends_hdr t = true -> In lparen t.
Proof.
  induction t as [|c t IH]; cbn [ends_hdr].
  - rewrite orb_false_r. unfold is_hdr0. simpl. discriminate.
  - intros H. apply orb_true_iff in H. destruct H as [H|H].
    + unfold is_hdr0 in H. apply andb_true_iff in H. destruct H as [H _].
      apply startswith_split in H. simpl in H. inversion H. left. reflexivity.
    + right. apply IH. exact H.
Qed.


















Lemma update_property_in_place (raw prop_name v : str) :
  re_search (pat_existing prop_name) raw <> None ->
  _update_property raw prop_name v
  = re_sub (pat_existing prop_name) (tpl_value v) raw.
Proof.
  intros H. unfold _update_property.
  destruct (re_search (pat_existing prop_name) raw); [reflexivity|congruence].
Qed.





(** ** A synthesized node in a block that had none *)

Lemma glue_cons (t : str) (ts us : list str) :
  ts <> [] -> glue (t :: ts) us = t :: glue ts us.
Proof. destruct ts; [congruence|reflexivity]. Qed.

Lemma tokens_app (x y : str) : tokens (x ++ y) = glue (tokens x) (tokens y).
Proof.
  induction x as [|c x IH].
  - simpl. pose proof (tokens_nonempty y). destruct (tokens y); [congruence|reflexivity].
  - cbn [app tokens]. destruct (N.eqb c dq).
    + rewrite glue_cons by apply tokens_nonempty. rewrite IH. reflexivity.
    + rewrite IH. pose proof (tokens_nonempty x) as Hx.
      destruct (tokens x) as [|t [|t' ts]]; [congruence| |].
      * simpl. pose proof (tokens_nonempty y).
        destruct (tokens y); [congruence|reflexivity].
      * rewrite !glue_cons by discriminate. reflexivity.
Qed.

Lemma glue_snoc (TA : list str) (la u : str) (us : list str) :
  glue (TA ++ [la]) (u :: us) = TA ++ (la ++ u) :: us.
Proof.
  induction TA as [|t TA IH]; [reflexivity|].
  cbn [app]. rewrite glue_cons by (destruct TA; discriminate).
  rewrite IH. reflexivity.
Qed.

Lemma tokens_snoc (x : str) : exists TA la, tokens x = TA ++ [la].
Proof.
  destruct (exists_last (tokens_nonempty x)) as (TA & la & E). eauto.
Qed.

Lemma ends_hdr_app_r (x h : str) : ends_hdr h = true -> ends_hdr (x ++ h) = true.
Proof.
  intros H. induction x as [|c x IH]; [exact H|].
  cbn [app ends_hdr]. rewrite IH. apply orb_true_r.
Qed.

Lemma is_hdr0_no_rparen (t : str) : is_hdr0 t = true -> ~ In rparen t.
Proof.
  intros H Hin. destruct (is_hdr0_split _ H) as [E W]. rewrite E in Hin.
  apply in_app_or in Hin. destruct Hin as [Hin|Hin].
  - simpl in Hin. repeat (destruct Hin as [Hin|Hin]; [discriminate|]). exact Hin.
  - unfold ws_plus in W. apply andb_true_iff in W. destruct W as [_ W].
    rewrite forallb_forall in W. specialize (W _ Hin). discriminate.
Qed.

Lemma ends_hdr_after_rparen (x y : str) :
  ends_hdr (x ++ rparen :: y) = ends_hdr y.
Proof.
  induction x as [|c x IH]; cbn [app ends_hdr].
  - destruct (is_hdr0 (rparen :: y)) eqn:E; [|reflexivity].
    exfalso. apply (is_hdr0_no_rparen _ E). left. reflexivity.
  - rewrite IH. destruct (is_hdr0 (c :: x ++ rparen :: y)) eqn:E; [|reflexivity].
    exfalso. apply (is_hdr0_no_rparen _ E). right. apply in_or_app. right. left.
    reflexivity.
Qed.

Lemma condT_cond3 (X t0 t1 t2 : str) (r : list str) :
  cond3 X t0 t1 t2 = false -> condT X (t0 :: t1 :: t2 :: r) = false.
Proof.
  unfold cond3, condT, tailT. intros H.
  destruct r as [|t3 [|t4 r]]; try (apply andb_false_r).
  rewrite andb_assoc. exact H.
Qed.

Lemma no_hdrT_tail (X t : str) (r : list str) :
  no_hdrT X (t :: r) = true -> no_hdrT X r = true.
Proof. cbn [no_hdrT]. intros H. apply andb_true_iff in H. tauto. Qed.

Lemma no_hdrT_head (X t0 t1 t2 : str) (r : list str) :
  no_hdrT X (t0 :: t1 :: t2 :: r) = true -> cond3 X t0 t1 t2 = false.
Proof.
  cbn [no_hdrT]. intros H. apply andb_true_iff in H. destruct H as [H _].
  apply negb_true_iff in H. exact H.
Qed.

Lemma no_hdrT_condT (X : str) (ts : list str) :
  no_hdrT X ts = true -> condT X ts = false.
Proof.
  intros H. destruct ts as [|t0 [|t1 [|t2 r]]]; try reflexivity;
    try (unfold condT, tailT; apply andb_false_r).
  apply condT_cond3. exact (no_hdrT_head _ _ _ _ _ H).
Qed.

Lemma no_hdrT_values (X : str) (ts : list str) :
  no_hdrT X ts = true -> valuesT X ts = [].
Proof.
  induction ts as [|t r IH]; intros H; [reflexivity|].
  rewrite valuesT_miss by (apply no_hdrT_condT; exact H).
  apply IH. exact (no_hdrT_tail _ _ _ H).
Qed.

(** Nothing in front of the inserted node is taken for a node. *)
Lemma valuesT_before_insert (X Y Z : str) (TB REST : list str) :
  str_eqb Z X = false -> ws_plus Z = false ->
  forall TA,
    no_hdrT X (TA ++ Y :: TB) = true ->
    valuesT X (TA ++ Z :: REST) = valuesT X (Z :: REST).
Proof.
  intros HZ WZ. induction TA as [|t TA IH]; intros H; [reflexivity|].
  cbn [app] in *. rewrite valuesT_miss; [apply IH; exact (no_hdrT_tail _ _ _ H)|].
  destruct TA as [|u [|u' TA]]; cbn [app] in *.
  - unfold condT, tailT. destruct REST as [|? [|? [|? ?]]];
      rewrite ?HZ; simpl; apply andb_false_r.
  - unfold condT, tailT. destruct REST as [|? [|? ?]];
      rewrite ?WZ, ?andb_false_r; reflexivity.
  - apply condT_cond3. exact (no_hdrT_head _ _ _ _ _ H).
Qed.

Lemma no_hdrT_replace_head (X Y Y' : str) (TB : list str) :
  (ends_hdr Y' = true -> ends_hdr Y = true) ->
  no_hdrT X (Y :: TB) = true -> no_hdrT X (Y' :: TB) = true.
Proof.
  intros Himp. cbn [no_hdrT]. intros H. apply andb_true_iff in H.
  destruct H as [H1 H2]. rewrite H2, andb_true_r.
  destruct TB as [|t1 [|t2 r]]; try reflexivity.
  apply negb_true_iff in H1. apply negb_true_iff. unfold cond3 in *.
  destruct (ends_hdr Y') eqn:E; [|reflexivity].
  rewrite (Himp eq_refl) in H1. exact H1.
Qed.

Lemma no_hdrT_suffix (X : str) (TA ts : list str) :
  no_hdrT X (TA ++ ts) = true -> no_hdrT X ts = true.
Proof.
  induction TA as [|t TA IH]; intros H; [exact H|].
  apply IH. exact (no_hdrT_tail _ _ _ H).
Qed.

(** The tokens of the block with the node inserted hold one node, and its
    value is the new one. *)
Lemma valuesT_inserted (X v la hb N0 N1 sp : str) (TA TB : list str) :
  no_hdrT X (TA ++ (la ++ hb) :: TB) = true ->
  ends_hdr N0 = true ->
  ~ In lparen X ->
  ws_plus sp = true ->
  (ends_hdr (N1 ++ hb) = true -> ends_hdr hb = true) ->
  valuesT X (TA ++ (la ++ N0) :: X :: sp :: v :: (N1 ++ hb) :: TB) = [v].
Proof.
  intros Hno H0 HX Wsp Himp.
  assert (Hin : In lparen (la ++ N0))
    by (apply in_or_app; right; apply ends_hdr_lparen; exact H0).
  rewrite (valuesT_before_insert X (la ++ hb) (la ++ N0) TB).
  - rewrite valuesT_hit.
    + f_equal. apply no_hdrT_values.
      apply (no_hdrT_replace_head X (la ++ hb)).
      * intros E. apply ends_hdr_app_r, Himp, E.
      * exact (no_hdrT_suffix _ _ _ Hno).
    + simpl. rewrite (ends_hdr_app_r la N0 H0), str_eqb_refl, Wsp. reflexivity.
  - destruct (str_eqb_spec (la ++ N0) X) as [E|]; [|reflexivity].
    rewrite E in Hin. contradiction.
  - destruct (ws_plus (la ++ N0)) eqn:E; [|reflexivity].
    unfold ws_plus in E. apply andb_true_iff in E. destruct E as [_ E].
    rewrite forallb_forall in E. specialize (E _ Hin). discriminate.
  - exact Hno.
Qed.

Lemma m_star_result (R : Type) (p : N -> bool) (g : bool)
      (k : str -> nat -> option R) :
  forall s i r, m_star p g k s i = Some r -> exists s' i', k s' i' = Some r.
Proof.
  induction s as [|c s IH]; intros i r; simpl.
  - destruct g; destruct (k [] i) eqn:E; intros H; inversion H; subst; eauto.
  - destruct (p c).
    + destruct g.
      * destruct (m_star p true k s (S i)) eqn:E.
        -- intros H. inversion H; subst. eapply IH; eauto.
        -- intros H. eauto.
      * destruct (k (c :: s) i) eqn:E.
        -- intros H. inversion H; subst. eauto.
        -- intros H. eapply IH; eauto.
    + destruct g; destruct (k (c :: s) i) eqn:E; intros H; inversion H; subst; eauto.
Qed.

Lemma m_items_no_marks (its : list item) :
  no_marks its = true ->
  forall s i mk j mk', m_items its s i mk = Some (j, mk') -> mk' = mk.
Proof.
  induction its as [|it its IH]; intros Hn s i mk j mk' H.
  - simpl in H. inversion H. reflexivity.
  - simpl in Hn. apply andb_true_iff in Hn. destruct Hn as [Hit Hn].
    destruct it as [p|g p|k]; [| |discriminate].
    + simpl in H. destruct s as [|c s]; [discriminate|].
      destruct (p c); [|discriminate]. eapply IH; eauto.
    + simpl in H. apply m_star_result in H. destruct H as (s' & i' & H).
      eapply IH; eauto.
Qed.

(** The indent that the pin and the instances patterns capture is white
    space. *)
Lemma indent_group_ws (tail : list item) (whole : str) (m : re_match) :
  no_marks tail = true ->
  (forall c s i mk, is_space c = true -> m_items tail (c :: s) i mk = None) ->
  re_search (Lit nl :: Mark 2 :: Star true is_space :: Mark 3 :: tail) whole = Some m ->
  forallb is_space (group whole m 1) = true.
Proof.
  intros Hnm Href Hs.
  destruct (search_from_sound _ _ _ _ Hs) as (k & Hk & _ & Hm & _).
  unfold match_here in Hm. simpl Nat.add in Hm.
  destruct (skipn k whole) as [|c s'] eqn:Esk; [discriminate|].
  change (m_items (Lit nl :: ?r) (c :: s') k [])
    with (if N.eqb nl c then m_items r s' (S k) [] else None) in Hm.
  destruct (N.eqb nl c); [|discriminate].
  rewrite m_items_mark, m_items_star in Hm
    by (intros; rewrite m_items_mark; apply Href; assumption).
  rewrite m_items_mark in Hm.
  destruct (m_items tail _ _ _) as [[j mk]|] eqn:Et; [|discriminate].
  apply (m_items_no_marks _ Hnm) in Et. subst mk.
  inversion Hm; subst m; clear Hm.
  unfold group. cbn [m_marks mark_get Nat.eqb Nat.mul Nat.add].
  destruct (skipn_cons_nth _ _ _ _ Esk) as (_ & Hrest & _).
  rewrite Hrest.
  pose proof (take_drop_while is_space s') as E.
  pose proof (take_while_all is_space s') as Hall.
  remember (take_while is_space s') as tw. remember (drop_while is_space s') as dw.
  replace (S (k + List.length tw) - S k) with (List.length tw + 0) by lia.
  rewrite <- E, firstn_past. simpl. rewrite app_nil_r. exact Hall.
Qed.

Lemma insertion_indent_ws (raw : str) :
  forallb is_space (snd (insertion_point raw)) = true.
Proof.
  unfold insertion_point.
  destruct (re_search pat_pin raw) as [m|] eqn:Ep.
  - simpl. apply (indent_group_ws (lits "(pin" ++ plus is_space ++ [Lit dq])).
    + reflexivity.
    + intros c s i mk Hc. unfold lits. rewrite m_items_lits.
      cbn [startswith lit list_ascii_of_string map].
      destruct (N.eqb_spec (N_of_ascii "("%char) c) as [<-|]; [discriminate|reflexivity].
    + exact Ep.
  - destruct (re_search pat_instances raw) as [m|] eqn:Ei; [|reflexivity].
    simpl. apply (indent_group_ws (lits "(instances" ++ [Chr is_space])).
    + reflexivity.
    + intros c s i mk Hc. unfold lits. rewrite m_items_lits.
      cbn [startswith lit list_ascii_of_string map].
      destruct (N.eqb_spec (N_of_ascii "("%char) c) as [<-|]; [discriminate|reflexivity].
    + exact Ei.
Qed.

Lemma ws_no_dq (w : str) : forallb is_space w = true -> no_dq w = true.
Proof.
  unfold no_dq. intros H. rewrite forallb_forall in *. intros c Hc.
  specialize (H c Hc). unfold not_dq.
  destruct (N.eqb_spec c dq); [subst; discriminate|reflexivity].
Qed.

Lemma name_no_lparen (X : str) : name_literal X = true -> ~ In lparen X.
Proof.
  intros H Hin. unfold name_literal in H. rewrite forallb_forall in H.
  specialize (H _ Hin). discriminate.
Qed.

Lemma no_header_absent (X raw : str) :
  no_dq X = true -> no_header X raw = true ->
  re_search (pat_existing X) raw = None.
Proof.
  intros HX H. apply search_existing_values.
  rewrite node_values_tokens by exact HX. apply no_hdrT_values. exact H.
Qed.

(** In a block without a header of the property, the first update
    synthesizes the one node the block then holds. *)
Lemma synthesized_values (X v raw : str) :
  name_literal X = true -> no_dq X = true -> no_dq v = true ->
  no_header X raw = true ->
  no_dq (at_coords_of raw) = true ->
  node_values X (_update_property raw X v) = [v].
Proof.
  intros HX NX Nv Hno Nc.
  rewrite (update_property_absent _ _ _ (no_header_absent _ _ NX Hno)).
  pose proof (insertion_indent_ws raw) as Hind.
  set (p := fst (insertion_point raw)).
  set (indent := snd (insertion_point raw)) in *.
  set (coords := at_coords_of raw) in *.
  pose proof (ws_no_dq _ Hind) as Ni.
  set (a := slice_to raw p). set (b := slice_from raw p).
  assert (Eab : a ++ b = raw) by apply slice_to_from.
  set (N0 := [nl] ++ indent ++ lit "(property ").
  set (N1' := lit " (at " ++ coords ++ lit ")" ++ [nl] ++ indent ++ [tab]
                ++ lit "(effects (font (size 1.27 1.27)) hide)"
                ++ [nl] ++ indent).
  assert (En : a ++ new_prop indent X v coords ++ b
               = a ++ N0 ++ dq :: X ++ dq :: lit " " ++ dq :: v ++ dq
                   :: (N1' ++ [rparen]) ++ b).
  { unfold new_prop, N0, N1'. list_norm. reflexivity. }
  assert (NN0 : no_dq N0 = true).
  { unfold N0. rewrite !no_dq_app, Ni. reflexivity. }
  assert (NN1 : no_dq (N1' ++ [rparen]) = true).
  { unfold N1'. rewrite !no_dq_app, Ni, Nc. reflexivity. }
  assert (H0 : ends_hdr N0 = true).
  { unfold N0. rewrite app_assoc. apply ends_hdr_app_r. reflexivity. }
  destruct (tokens_snoc a) as (TA & la & Ea).
  pose proof (tokens_nonempty b) as Hb.
  destruct (tokens b) as [|hb TB] eqn:Eb; [congruence|].
  assert (Traw : tokens raw = TA ++ (la ++ hb) :: TB).
  { rewrite <- Eab, tokens_app, Ea, Eb. apply glue_snoc. }
  rewrite node_values_tokens by exact NX.
  rewrite En, tokens_app, Ea.
  rewrite !tokens_app_dq by (auto; reflexivity).
  rewrite tokens_app, (tokens_plain _ NN1), Eb. cbn [glue].
  rewrite glue_snoc.
  apply valuesT_inserted.
  - unfold no_header in Hno. rewrite Traw in Hno. exact Hno.
  - exact H0.
  - apply name_no_lparen. exact HX.
  - reflexivity.
  - rewrite <- app_assoc. cbn [app]. rewrite ends_hdr_after_rparen. auto.
Qed.

(** Where every node already carries the value, the replacement changes
    nothing. *)
Lemma subT_same (X v : str) : forall ts n,
  valuesT X ts = repeat v n -> subT X v ts = ts.
Proof.
  induction ts as [ts IH] using list_len_ind. intros n Hv.
  destruct ts as [|t0 r]; [reflexivity|].
  destruct (condT X (t0 :: r)) eqn:E.
  - destruct r as [|t1 [|t2 [|t3 [|t4 ts]]]];
      try (simpl in E; rewrite andb_false_r in E; discriminate).
    rewrite (valuesT_hit X _ _ _ _ _ _ E) in Hv.
    destruct n as [|n]; [discriminate|]. simpl in Hv. inversion Hv; subst.
    rewrite (subT_hit X v _ _ _ _ _ _ E).
    rewrite (IH (t4 :: ts)) with (n := n); auto. simpl. lia.
  - rewrite (valuesT_miss X _ _ E) in Hv. rewrite (subT_miss X v _ _ E).
    rewrite (IH r) with (n := n); auto.
Qed.

Lemma update_property_same (raw X v : str) (n : nat) :
  no_dq X = true -> no_dq v = true ->
  node_values X raw = repeat v (S n) ->
  _update_property raw X v = raw.
Proof.
  intros NX Nv Hv.
  rewrite update_property_in_place.
  - apply tokens_inj. rewrite re_sub_tokens by assumption.
    apply (subT_same X v _ (S n)). rewrite <- node_values_tokens by exact NX.
    exact Hv.
  - rewrite search_existing_values, Hv. discriminate.
Qed.

(** C8, as the code has it.  The second of two equal upserts finds the
    property in the block and rewrites in place: it changes values only,
    the block holds as many nodes of the property after it as after the
    first call (at least one), and all of them carry the new value.  A
    block that held exactly one node of the property, or no header of the
    property at all, ends with exactly one node, and the second call
    changes nothing. *)
Theorem second_upsert_adds_no_node (raw X v : str) :
  plain_name X = true -> value_literal v = true -> no_dq v = true ->
  let once := _update_property raw X v in
  let twice := _update_property once X v in
  re_search (pat_existing X) once <> None
  /\ value_edit X v once twice
  /\ node_values X twice = repeat v (List.length (node_values X once))
  /\ node_values X once <> []
  /\ (forall old, node_values X raw = [old] ->
        node_values X twice = [v] /\ twice = once)
  /\ (no_header X raw = true -> no_dq (at_coords_of raw) = true ->
        node_values X twice = [v] /\ twice = once).
Proof.
  intros HX _ Nv once twice.
  pose proof HX as HX'. unfold plain_name in HX'.
  apply andb_true_iff in HX'. destruct HX' as [LX NX].
  pose proof (update_property_present raw X v NX Nv) as Hp. fold once in Hp.
  assert (Et : twice = re_sub (pat_existing X) (tpl_value v) once)
    by (apply update_property_in_place; exact Hp).
  assert (Hone : node_values X once = [v] ->
                 node_values X twice = [v] /\ twice = once).
  { intros H1.
    assert (E : twice = once)
      by (apply (update_property_same once X v 0 NX Nv); exact H1).
    rewrite E. auto. }
  split; [exact Hp|].
  split; [rewrite Et; apply re_sub_value_edit|].
  split; [rewrite Et; apply node_values_re_sub; assumption|].
  split; [intros C; apply search_existing_values in C; contradiction|].
  split.
  - intros old Hold. apply Hone. unfold once.
    rewrite update_property_in_place
      by (rewrite search_existing_values, Hold; discriminate).
    rewrite node_values_re_sub, Hold by assumption. reflexivity.
  - intros Hno Nc. apply Hone. apply synthesized_values; assumption.
Qed.

Lemma second_upsert_adds_no_node_witness :
  plain_name LCSC = true /\ value_literal (lit "C1002") = true
  /\ no_dq (lit "C1002") = true
  /\ no_header LCSC block_r1 = true
  /\ no_dq (at_coords_of block_r1) = true
  /\ node_values LCSC block_lcsc = [lit "C7"]
  /\ node_values LCSC
       (_update_property (_update_property block_r1 LCSC (lit "C1002"))
                         LCSC (lit "C1002"))
     = [lit "C1002"]
  /\ node_values LCSC
       (_update_property (_update_property block_lcsc LCSC (lit "C1002"))
                         LCSC (lit "C1002"))
     = [lit "C1002"].
Proof.
  do 5 (split; [reflexivity|]).
  assert (H7 : node_values LCSC block_lcsc = [lit "C7"]) by (vm_compute; reflexivity).
  split; [exact H7|]. split.
  - destruct (second_upsert_adds_no_node block_r1 LCSC (lit "C1002")
                eq_refl eq_refl eq_refl)
      as (_ & _ & _ & _ & _ & Hz).
    exact (proj1 (Hz eq_refl eq_refl)).
  - destruct (second_upsert_adds_no_node block_lcsc LCSC (lit "C1002")
                eq_refl eq_refl eq_refl)
      as (_ & _ & _ & _ & Ho & _).
    exact (proj1 (Ho _ H7)).
Defined.

(** C8, as the specification words it, fails on a block that holds the
    property twice: after the two calls it still holds two nodes. *)
Lemma two_nodes_stay_two :
  node_values LCSC block_twice = [lit "a"; lit "b"]
  /\ node_values LCSC
       (_update_property (_update_property block_twice LCSC (lit "C1002"))
                         LCSC (lit "C1002"))
     = [lit "C1002"; lit "C1002"]
  /\ _update_property (_update_property block_twice LCSC (lit "C1002"))
                      LCSC (lit "C1002")
     = qlit "(symbol (lib_id 'Device:R')|~(property 'Reference' 'R1' (at 3 4 0))|~(property 'LCSC' 'C1002' (at 3 4 0))|~(property 'LCSC' 'C1002' (at 3 4 0))|~(pin '1' (uuid x))|)".
Proof. repeat split; vm_compute; reflexivity. Qed.

(** ** Tracked records *)

Lemma in_order_snoc (acc : list Component) (c : Component) :
  in_order acc ->
  Forall (fun a => (end_pos a < start_pos c)%Z) acc ->
  in_order (acc ++ [c]).
Proof.
  intros Ho Hall j k a b Hjk Ha Hb.
  destruct (Nat.lt_ge_cases k (List.length acc)) as [Hk|Hk].
  - rewrite nth_error_app1 in Ha, Hb by lia. exact (Ho j k a b Hjk Ha Hb).
  - rewrite nth_error_app2 in Hb by lia.
    destruct (k - List.length acc) as [|n] eqn:En; simpl in Hb;
      [|destruct n; discriminate].
    inversion Hb; subst b.
    assert (Hj : j < List.length acc) by lia.
    rewrite nth_error_app1 in Ha by lia.
    rewrite Forall_forall in Hall. apply Hall. eapply nth_error_In; eauto.
Qed.

Lemma find_matching_paren_range (content : str) (start : nat) (e : Z) :
  _find_matching_paren content start = e -> e <> (-1)%Z ->
  start < List.length content
  /\ (Z.of_nat start <= e < len content)%Z.
Proof.
  unfold _find_matching_paren. intros H Hne.
  destruct (paren_loop_range content (skipn start content) start 0%Z false)
    as [E|(e' & E & Hr)]; [congruence|].
  rewrite length_skipn in Hr. rewrite E in H. subst e. unfold len. lia.
Qed.

Lemma parse_loop_tracked (content : str) :
  forall fuel pos acc result,
    Forall (tracks content) acc -> in_order acc ->
    Forall (fun a => (end_pos a < Z.of_nat pos)%Z) acc ->
    parse_loop fuel content pos acc = Some result ->
    Forall (tracks content) result /\ in_order result.
Proof.
  induction fuel as [|fuel IH]; intros pos acc result Ht Ho Hb H; simpl in H;
    [discriminate|].
  destruct (re_search pat_symbol (skipn pos content)) as [m|] eqn:Es;
    [|inversion H; subst; auto].
  set (start := pos + m_start m) in *.
  destruct (Z.eqb_spec (_find_matching_paren content start) (-1)) as [E|E].
  - eapply IH; [exact Ht|exact Ho| |exact H].
    eapply Forall_impl; [|exact Hb]. simpl. intros; lia.
  - destruct (find_matching_paren_range content start _ eq_refl E) as (Hs & Hr).
    set (end_ := _find_matching_paren content start) in *.
    assert (Hb' : Forall (fun a => (end_pos a < Z.of_nat (Z.to_nat (end_ + 1)))%Z) acc).
    { eapply Forall_impl; [|exact Hb]. simpl. intros; lia. }
    destruct (_parse_symbol_block _ _ _) as [c|] eqn:Ec;
      [|eapply IH; eauto].
    destruct (parse_symbol_block_some _ _ _ _ Ec) as (Hraw & Hsp & Hep & _).
    eapply IH; [| | |exact H].
    + apply Forall_app. split; [exact Ht|]. constructor; [|constructor].
      unfold tracks. rewrite Hraw, Hsp, Hep. repeat split; lia.
    + apply in_order_snoc; [exact Ho|].
      eapply Forall_impl; [|exact Hb]. simpl. intros a Ha. rewrite Hsp. lia.
    + apply Forall_app. split; [exact Hb'|]. constructor; [|constructor].
      rewrite Hep. lia.
Qed.

Lemma parse_well_tracked (buffer : str) (self : KicadSchParser) :
  parse buffer = Some self -> content self = buffer /\ well_tracked self.
Proof.
  unfold parse. destruct (parse_loop _ _ _ _) as [r|] eqn:E; [|discriminate].
  intros H. inversion H; subst; clear H. split; [reflexivity|].
  unfold well_tracked. simpl.
  eapply parse_loop_tracked; [| | |exact E]; try constructor.
  intros j k a b _ Ha. destruct j; discriminate.
Qed.

(** ** The block of a record, taken alone *)

Lemma nth_middle_app (pre raw post : str) (k : nat) :
  k < List.length raw ->
  nth (List.length pre + k) (pre ++ raw ++ post) 0%N = nth k raw 0%N.
Proof.
  intros H. rewrite app_nth2 by lia.
  replace (List.length pre + k - List.length pre) with k by lia.
  apply app_nth1. exact H.
Qed.

(** The scanner looks at no character before the one it starts on, so a
    run that ends inside [raw] is the run of [raw] taken alone. *)
Lemma paren_loop_local (pre post : str) :
  forall rest taken k d q e,
    List.length taken = k -> 1 <= k ->
    paren_loop (pre ++ (taken ++ rest) ++ post) (rest ++ post)
               (List.length pre + k) d q = Z.of_nat e ->
    e < List.length pre + k + List.length rest ->
    paren_loop (taken ++ rest) rest k d q = Z.of_nat (e - List.length pre).
Proof.
  induction rest as [|c rest IH]; intros taken k d q e Hk H1 H He.
  - exfalso.
    destruct (paren_loop_range (pre ++ (taken ++ []) ++ post) ([] ++ post)
                (List.length pre + k) d q) as [E|(e' & E & Hr)].
    + rewrite E in H. lia.
    + rewrite E in H. apply Nat2Z.inj in H. subst e'. simpl in He. lia.
  - assert (Hstep : forall d' q',
               paren_loop (pre ++ (taken ++ c :: rest) ++ post) (rest ++ post)
                          (S (List.length pre + k)) d' q' = Z.of_nat e ->
               paren_loop (taken ++ c :: rest) rest (S k) d' q'
               = Z.of_nat (e - List.length pre)).
    { intros d' q' H'.
      replace (taken ++ c :: rest) with ((taken ++ [c]) ++ rest) in *
        by (rewrite <- app_assoc; reflexivity).
      apply IH.
      - rewrite length_app. simpl. lia.
      - lia.
      - rewrite Nat.add_succ_r. exact H'.
      - simpl in He. lia. }
    simpl app in H. simpl paren_loop in *.
    assert (Hprev : nth (List.length pre + k - 1) (pre ++ (taken ++ c :: rest) ++ post) 0%N
                    = nth (k - 1) (taken ++ c :: rest) 0%N).
    { replace (List.length pre + k - 1) with (List.length pre + (k - 1)) by lia.
      apply nth_middle_app. rewrite length_app. simpl. lia. }
    rewrite Hprev in H.
    assert (Hz1 : Nat.eqb (List.length pre + k) 0 = false) by (apply Nat.eqb_neq; lia).
    assert (Hz2 : Nat.eqb k 0 = false) by (apply Nat.eqb_neq; lia).
    rewrite Hz1 in H. rewrite Hz2.
    destruct (N.eqb c dq && (false || negb (N.eqb (nth (k - 1) (taken ++ c :: rest) 0%N) bslash)));
      [apply Hstep; exact H|].
    destruct (negb q); [|apply Hstep; exact H].
    destruct (N.eqb c lparen); [apply Hstep; exact H|].
    destruct (N.eqb c rparen); [|apply Hstep; exact H].
    destruct (Z.eqb (d - 1) 0); [|apply Hstep; exact H].
    apply Nat2Z.inj in H. subst e. f_equal. lia.
Qed.

Lemma startswith_firstn (s p : str) (n : nat) :
  startswith s p = true -> List.length p <= n -> startswith (firstn n s) p = true.
Proof.
  revert s n. induction p as [|x p IH]; intros s n H Hn; [reflexivity|].
  destruct s as [|y s]; [discriminate|]. simpl in H.
  apply andb_true_iff in H. destruct H as [Hxy Hs].
  destruct n as [|n]; [simpl in Hn; lia|]. simpl. rewrite Hxy. simpl.
  apply IH; [exact Hs|simpl in Hn; lia].
Qed.

Lemma search_symbol_opens (s : str) (m : re_match) :
  re_search pat_symbol s = Some m ->
  startswith (skipn (m_start m) s) (lit "(symbol") = true.
Proof.
  intros H. destruct (search_from_sound _ _ _ _ H) as (k & Hk & Hst & Hm & _).
  simpl in Hst. subst k. simpl in Hm.
  unfold match_here, pat_symbol, lits in Hm. rewrite m_items_lits in Hm.
  destruct (startswith _ _); [reflexivity|discriminate].
Qed.

(** A block that opens with [(symbol] and is closed at [e] in the buffer is
    closed at its last character when scanned alone. *)
Lemma block_scanned_alone (content : str) (start : nat) (e : nat) :
  startswith (skipn start content) (lit "(symbol") = true ->
  _find_matching_paren content start = Z.of_nat e ->
  own_block (slice content (Z.of_nat start) (Z.of_nat e + 1)).
Proof.
  intros Hsw He.
  assert (He' : _find_matching_paren content start <> (-1)%Z) by lia.
  destruct (find_matching_paren_range content start _ eq_refl He') as (Hs & Hr).
  rewrite He in Hr.
  assert (Hlen : e < List.length content) by (unfold len in Hr; lia).
  assert (Hsl : slice content (Z.of_nat start) (Z.of_nat e + 1)
                = firstn (S e - start) (skipn start content)).
  { unfold slice. rewrite !clamp_in_range by (unfold len; lia).
    rewrite Nat2Z.id. replace (Z.to_nat (Z.of_nat e + 1)) with (S e) by lia.
    reflexivity. }
  rewrite Hsl.
  pose proof (startswith_split _ _ Hsw) as Esk.
  set (tl7 := skipn (List.length (lit "(symbol")) (skipn start content)) in Esk.
  change (lit "(symbol") with [40; 115; 121; 109; 98; 111; 108]%N in Esk.
  cbn [app] in Esk.
  set (pre := firstn start content).
  assert (Lpre : List.length pre = start) by (apply firstn_length_le; lia).
  assert (Econt : content = pre ++ skipn start content)
    by (symmetry; apply firstn_skipn).
  unfold _find_matching_paren in He. rewrite Esk in He |- *.
  assert (Hstep1 : forall tl,
             paren_loop content (40 :: tl)%N start 0 false
             = paren_loop content tl (S start) 1 false) by reflexivity.
  assert (Hstep7 : paren_loop content (115 :: 121 :: 109 :: 98 :: 111 :: 108 :: tl7)%N
                              (S start) 1 false
                   = paren_loop content tl7 (7 + start) 1 false) by reflexivity.
  rewrite Hstep1 in He.
  assert (H7 : 7 + start <= e).
  { rewrite Hstep7 in He.
    destruct (paren_loop_range content tl7 (7 + start) 1 false) as [E|(e' & E & Hr')];
      rewrite E in He; lia. }
  set (tl0 := (115 :: 121 :: 109 :: 98 :: 111 :: 108 :: tl7)%N) in *.
  set (n := e - start) in *.
  replace (S e - start) with (S n) by lia.
  cbn [firstn].
  set (rest := firstn n tl0). set (post := skipn n tl0).
  assert (Etl : tl0 = rest ++ post) by (symmetry; apply firstn_skipn).
  assert (Ltl : n <= List.length tl0).
  { pose proof (length_skipn start content) as L. rewrite Esk in L.
    cbn [List.length] in L. fold tl0 in L. lia. }
  assert (Lrest : List.length rest = n) by (apply firstn_length_le; exact Ltl).
  split.
  - change (40%N :: rest) with (firstn (S n) (40%N :: tl0)).
    apply startswith_firstn; [apply startswith_app with (l := lit "(symbol")|].
    simpl. lia.
  - unfold _find_matching_paren. cbn [skipn].
    change (paren_loop (40%N :: rest) (40%N :: rest) 0 0 false)
      with (paren_loop (40%N :: rest) rest 1 1 false).
    unfold len. cbn [List.length]. rewrite Lrest.
    replace (Z.of_nat (S n) - 1)%Z with (Z.of_nat (e - List.length pre)) by lia.
    change (40%N :: rest) with ([40%N] ++ rest).
    apply (paren_loop_local pre post rest [40%N] 1 1%Z false e); try reflexivity; try lia.
    rewrite Lpre, Nat.add_1_r.
    replace (pre ++ ([40%N] ++ rest) ++ post) with content; [|].
    + rewrite Etl in He. exact He.
    + rewrite Econt at 1. rewrite Esk. fold tl0. rewrite Etl.
      reflexivity.
Qed.

Lemma parse_loop_own_block (content : str) :
  forall fuel pos acc result,
    Forall (fun c => own_block (raw_content c)) acc ->
    parse_loop fuel content pos acc = Some result ->
    Forall (fun c => own_block (raw_content c)) result.
Proof.
  induction fuel as [|fuel IH]; intros pos acc result Hacc H; simpl in H;
    [discriminate|].
  destruct (re_search pat_symbol (skipn pos content)) as [m|] eqn:Es;
    [|inversion H; subst; auto].
  destruct (Z.eqb_spec (_find_matching_paren content (pos + m_start m)) (-1)) as [E|E];
    [eapply IH; eauto|].
  destruct (_parse_symbol_block _ _ _) as [c|] eqn:Ec; [|eapply IH; eauto].
  eapply IH; [|exact H].
  apply Forall_app. split; [exact Hacc|]. constructor; [|constructor].
  destruct (parse_symbol_block_some _ _ _ _ Ec) as (Hraw & _).
  rewrite Hraw.
  destruct (find_matching_paren_range content _ _ eq_refl E) as (Hs & Hr).
  remember (_find_matching_paren content (pos + m_start m)) as e eqn:He.
  assert (Hz : e = Z.of_nat (Z.to_nat e)) by lia.
  rewrite Hz. apply block_scanned_alone.
  - apply search_symbol_opens in Es. rewrite skipn_skipn in Es.
    rewrite Nat.add_comm. exact Es.
  - rewrite <- Hz. symmetry. exact He.
Qed.

(** ** [update_component] keeps the records on the buffer *)

Lemma slice_nat (s : str) (a b : Z) :
  (0 <= a <= b)%Z -> (b <= len s)%Z ->
  slice s a b = firstn (Z.to_nat b - Z.to_nat a) (skipn (Z.to_nat a) s).
Proof.
  intros Ha Hb. unfold slice. rewrite !clamp_in_range by lia. reflexivity.
Qed.

Lemma slice_length (s : str) (a b : Z) :
  (0 <= a <= b)%Z -> (b <= len s)%Z -> len (slice s a b) = (b - a)%Z.
Proof.
  intros Ha Hb. rewrite slice_nat by assumption. unfold len in *.
  rewrite length_firstn, length_skipn. lia.
Qed.

(** A tracked record cuts the buffer into what precedes its block, the
    block, and what follows. *)
Lemma tracks_split (content : str) (c : Component) :
  tracks content c ->
  exists P S,
    content = P ++ raw_content c ++ S
    /\ len P = start_pos c
    /\ len (raw_content c) = (end_pos c - start_pos c + 1)%Z
    /\ slice_to content (start_pos c) = P
    /\ slice_from content (end_pos c + 1) = S.
Proof.
  intros (Hs & He & Hraw).
  exists (slice_to content (start_pos c)), (slice_from content (end_pos c + 1)).
  assert (Hl : len (raw_content c) = (end_pos c - start_pos c + 1)%Z).
  { rewrite Hraw, slice_length by lia. lia. }
  split; [|split; [|split; [exact Hl|split; reflexivity]]].
  - rewrite Hraw, slice_nat by lia.
    unfold slice_to, slice_from. rewrite !clamp_in_range by lia.
    rewrite <- (firstn_skipn (Z.to_nat (start_pos c)) content) at 1.
    f_equal.
    rewrite <- (firstn_skipn (Z.to_nat (end_pos c + 1) - Z.to_nat (start_pos c))
                  (skipn (Z.to_nat (start_pos c)) content)) at 1.
    f_equal. rewrite skipn_skipn. f_equal. lia.
  - unfold slice_to. rewrite clamp_in_range by lia. unfold len in *.
    rewrite length_firstn. lia.
Qed.

Lemma slice_app_l (P X : str) (a b : Z) :
  (0 <= a <= b)%Z -> (b <= len P)%Z -> slice (P ++ X) a b = slice P a b.
Proof.
  intros Ha Hb.
  rewrite !slice_nat by (try rewrite len_app; unfold len in *; lia).
  unfold len in *.
  rewrite skipn_app, firstn_app, length_skipn.
  replace (Z.to_nat b - Z.to_nat a - (List.length P - Z.to_nat a)) with 0 by lia.
  rewrite firstn_O, app_nil_r. reflexivity.
Qed.

Lemma slice_app_r (P X : str) (a b : Z) :
  (0 <= a <= b)%Z -> (b <= len X)%Z ->
  slice (P ++ X) (len P + a) (len P + b) = slice X a b.
Proof.
  intros Ha Hb.
  rewrite !slice_nat by (try rewrite len_app; unfold len in *; lia).
  unfold len in *.
  rewrite skipn_app.
  rewrite (skipn_all2 P) by lia. cbn [app].
  f_equal; [lia|]. f_equal. lia.
Qed.

Lemma slice_app_mid (P N0 S : str) :
  slice (P ++ N0 ++ S) (len P) (len P + len N0) = N0.
Proof.
  replace (len P) with (len P + 0)%Z at 1 by lia.
  rewrite slice_app_r by (try rewrite len_app; unfold len; lia).
  rewrite slice_app_l by (unfold len; lia).
  rewrite slice_nat by (unfold len; lia).
  simpl. unfold len. rewrite Nat2Z.id, Nat.sub_0_r. apply firstn_all.
Qed.

Lemma tracks_before (P raw N0 S : str) (c : Component) :
  tracks (P ++ raw ++ S) c -> (end_pos c < len P)%Z ->
  tracks (P ++ N0 ++ S) c.
Proof.
  intros (Hs & He & Hraw) Hlt. unfold tracks.
  split; [exact Hs|]. split; [rewrite len_app; unfold len in *; lia|].
  rewrite Hraw. rewrite !slice_app_l by lia. reflexivity.
Qed.

Lemma tracks_after (P raw N0 S : str) (c : Component) :
  tracks (P ++ raw ++ S) c -> (len P + len raw <= start_pos c)%Z ->
  tracks (P ++ N0 ++ S) (shifted c (len N0 - len raw)).
Proof.
  intros (Hs & He & Hraw) Hge. unfold tracks, shifted. simpl.
  rewrite !len_app in *.
  split; [unfold len in *; lia|]. split; [lia|].
  rewrite Hraw.
  set (a := (start_pos c - (len P + len raw))%Z).
  set (b := (end_pos c + 1 - (len P + len raw))%Z).
  rewrite (app_assoc P raw S), (app_assoc P N0 S).
  replace (start_pos c) with (len (P ++ raw) + a)%Z at 1
    by (rewrite len_app; unfold a; lia).
  replace (end_pos c + 1)%Z with (len (P ++ raw) + b)%Z at 1
    by (rewrite len_app; unfold b; lia).
  replace (start_pos c + (len N0 - len raw))%Z with (len (P ++ N0) + a)%Z
    by (rewrite len_app; unfold a; lia).
  replace (end_pos c + (len N0 - len raw) + 1)%Z with (len (P ++ N0) + b)%Z
    by (rewrite len_app; unfold b; lia).
  rewrite !slice_app_r by (unfold a, b; lia). reflexivity.
Qed.

Lemma value_edit_nonempty (X v s s' : str) :
  value_edit X v s s' -> s <> [] -> s' <> [].
Proof.
  intros H Hs. destruct H as [|c s s' Hn H|s hdr old rest rest' Hn H].
  - congruence.
  - discriminate.
  - destruct Hn as (_ & (w1 & w2 & -> & _) & _). discriminate.
Qed.

(** An upsert never empties a block. *)
Lemma update_property_nonempty (raw X v : str) :
  raw <> [] -> _update_property raw X v <> [].
Proof.
  intros Hraw. unfold _update_property.
  destruct (re_search (pat_existing X) raw) eqn:E.
  - eapply value_edit_nonempty; [apply re_sub_value_edit|exact Hraw].
  - destruct (insertion_point raw) as [p indent].
    intros H. apply (f_equal (@List.length N)) in H.
    rewrite !length_app in H. unfold new_prop in H. simpl in H. lia.
Qed.

(** The store after the loop of [update_component], in closed form. *)
Lemma shift_loop_map (idx : nat) (diff : Z) (comps : list Component) (R : Component) :
  nth_error comps idx = Some R ->
  fold_left (shift_step idx diff) (seq 0 (List.length comps)) comps
  = map (moved R diff) comps.
Proof.
  intros HR. apply nth_error_ext. intros j.
  rewrite (shift_loop_nth idx diff comps R HR), nth_error_map. reflexivity.
Qed.

Lemma update_component_closed (self : KicadSchParser) (idx : nat) (lcsc url : str)
      (R : Component) :
  nth_error (components self) idx = Some R ->
  update_component self idx lcsc url
  = let new_raw := _update_property (_update_property (raw_content R) (lit "LCSC") lcsc)
                                    (lit "URL") url in
    Some (MkParser
            (slice_to (content self) (start_pos R) ++ new_raw
               ++ slice_from (content self) (end_pos R + 1))
            (set_nth (map (moved R (len new_raw - len (raw_content R))) (components self))
                     idx (patched R new_raw lcsc url))).
Proof.
  intros HR. unfold update_component. rewrite HR.
  rewrite (shift_loop_map idx _ _ R HR).
  rewrite nth_error_map, HR. simpl. rewrite moved_self. reflexivity.
Qed.

Lemma nth_error_patched_store (comps : list Component) (idx : nat) (R R' : Component)
      (diff : Z) (j : nat) :
  nth_error comps idx = Some R ->
  nth_error (set_nth (map (moved R diff) comps) idx R') j
  = if Nat.eqb j idx then Some R' else option_map (moved R diff) (nth_error comps j).
Proof.
  intros HR. destruct (Nat.eqb_spec j idx) as [->|Hne].
  - apply nth_error_set_nth_eq. rewrite length_map.
    apply nth_error_Some. rewrite HR. discriminate.
  - rewrite nth_error_set_nth_neq by exact Hne. apply nth_error_map.
Qed.

Lemma Forall_nth_error_iff {A : Type} (P : A -> Prop) (l : list A) :
  Forall P l <-> forall j x, nth_error l j = Some x -> P x.
Proof.
  rewrite Forall_forall. split.
  - intros H j x Hj. apply H. eapply nth_error_In; eauto.
  - intros H x Hx. apply In_nth_error in Hx. destruct Hx as [j Hj]. eauto.
Qed.

Lemma update_component_tracked (self : KicadSchParser) (idx : nat) (lcsc url : str)
      (R : Component) :
  well_tracked self ->
  nth_error (components self) idx = Some R ->
  exists self',
    update_component self idx lcsc url = Some self'
    /\ well_tracked self'
    /\ map reference (components self') = map reference (components self).
Proof.
  intros [Ht Ho] HR.
  rewrite (update_component_closed self idx lcsc url R HR). cbn zeta.
  set (new_raw := _update_property (_update_property (raw_content R) (lit "LCSC") lcsc)
                    (lit "URL") url).
  set (diff := (len new_raw - len (raw_content R))%Z).
  eexists. split; [reflexivity|].
  rewrite Forall_nth_error_iff in Ht.
  pose proof (Ht _ _ HR) as HtR.
  destruct (tracks_split _ _ HtR) as (P & S & Econt & LP & Lraw & EP & ES).
  rewrite EP, ES.
  assert (Hne : new_raw <> []).
  { unfold new_raw. apply update_property_nonempty, update_property_nonempty.
    intros E. rewrite E in Lraw. destruct HtR as (? & _). unfold len in Lraw.
    simpl in Lraw. lia. }
  assert (Lnew : (1 <= len new_raw)%Z).
  { destruct new_raw; [congruence|]. unfold len. simpl. lia. }
  assert (Hold : forall j c, nth_error (components self) j = Some c -> j <> idx ->
             (j < idx /\ (end_pos c < start_pos R)%Z /\ moved R diff c = c)
             \/ (idx < j /\ (end_pos R < start_pos c)%Z
                 /\ moved R diff c = shifted c diff)).
  { intros j c Hj Hji. pose proof (Ht _ _ Hj) as (Hc & _).
    destruct HtR as (HsR & _).
    destruct (Nat.lt_total j idx) as [Hlt|[->|Hgt]]; [|congruence|].
    - left. pose proof (Ho j idx c R Hlt Hj HR). repeat split; auto.
      unfold moved. destruct (Z.gtb_spec (start_pos c) (start_pos R)); [lia|reflexivity].
    - right. pose proof (Ho idx j R c Hgt HR Hj). repeat split; auto.
      unfold moved. destruct (Z.gtb_spec (start_pos c) (start_pos R)); [reflexivity|lia]. }
  split; [split|]; simpl.
  - (* every record lies on the new buffer *)
    apply Forall_nth_error_iff. intros j x Hj.
    rewrite (nth_error_patched_store _ _ R _ _ _ HR) in Hj.
    destruct (Nat.eqb_spec j idx) as [->|Hji].
    + inversion Hj; subst x. unfold tracks, patched. simpl.
      destruct HtR as (HsR & _).
      split; [lia|]. split; [rewrite !len_app; unfold len in *; lia|].
      rewrite <- LP.
      replace (len P + len new_raw - 1 + 1)%Z with (len P + len new_raw)%Z by lia.
      symmetry. apply slice_app_mid.
    + destruct (nth_error (components self) j) as [c|] eqn:Ej; [|discriminate].
      simpl in Hj. inversion Hj; subst x.
      pose proof (Ht _ _ Ej) as Htc. rewrite Econt in Htc.
      destruct (Hold j c Ej Hji) as [(_ & Hlt & ->)|(_ & Hgt & ->)].
      * apply (tracks_before P (raw_content R) new_raw S); [exact Htc|lia].
      * apply (tracks_after P (raw_content R) new_raw S); [exact Htc|lia].
  - (* and they keep their order *)
    intros j k a b Hjk Ha Hb.
    rewrite (nth_error_patched_store _ _ R _ _ j HR) in Ha.
    rewrite (nth_error_patched_store _ _ R _ _ k HR) in Hb.
    destruct HtR as (HsR & HeR & _).
    destruct (Nat.eqb_spec j idx) as [->|Hji], (Nat.eqb_spec k idx) as [->|Hki];
      try lia.
    + inversion Ha; subst a.
      destruct (nth_error (components self) k) as [c|] eqn:Ek; [|discriminate].
      simpl in Hb. inversion Hb; subst b.
      destruct (Hold k c Ek Hki) as [(? & _)|(_ & Hgt & ->)]; [lia|].
      unfold patched, shifted. simpl. unfold diff. lia.
    + inversion Hb; subst b.
      destruct (nth_error (components self) j) as [c|] eqn:Ej; [|discriminate].
      simpl in Ha. inversion Ha; subst a.
      destruct (Hold j c Ej Hji) as [(_ & Hlt & ->)|(? & _)]; [|lia].
      unfold patched. simpl. exact Hlt.
    + destruct (nth_error (components self) j) as [c|] eqn:Ej; [|discriminate].
      destruct (nth_error (components self) k) as [d|] eqn:Ek; [|discriminate].
      simpl in Ha, Hb. inversion Ha; subst a. inversion Hb; subst b.
      pose proof (Ho j k c d Hjk Ej Ek) as Hcd.
      pose proof (Ht _ _ Ek) as (Hd & _).
      destruct (Hold j c Ej Hji) as [(? & Hlt & ->)|(? & Hgt & ->)],
               (Hold k d Ek Hki) as [(? & Hlt' & ->)|(? & Hgt' & ->)];
        unfold shifted; simpl; unfold diff; try lia.
  - (* the records are the same objects *)
    apply nth_error_ext. intros j.
    rewrite !nth_error_map, (nth_error_patched_store _ _ R _ _ _ HR).
    destruct (Nat.eqb_spec j idx) as [->|Hji].
    + rewrite HR. reflexivity.
    + destruct (nth_error (components self) j) as [c|]; [|reflexivity].
      simpl. unfold moved. destruct (_ >? _)%Z; reflexivity.
Qed.

(** X1.  [parse] returns the records in the order of the buffer: each one
    lies inside the buffer with [start_pos <= end_pos], its block is the
    text of the buffer from [start_pos] to [end_pos], and a record ends
    before the next one starts. *)
Theorem parse_records_in_buffer_order (buffer : str) :
  exists self,
    parse buffer = Some self
    /\ content self = buffer
    /\ Forall (tracks buffer) (components self)
    /\ in_order (components self).
Proof.
  destruct (parse_total buffer) as [self H]. exists self.
  destruct (parse_well_tracked _ _ H) as (Hc & Ht & Ho).
  rewrite Hc in Ht. auto.
Qed.

(** X2.  The block of every record [parse] returns opens with [(symbol] and
    is closed by its own last character: the scanner, run on the block
    alone from its first character, stops on the last one. *)
Theorem parsed_block_closes_on_its_own (buffer : str) :
  exists self,
    parse buffer = Some self
    /\ forall c, In c (components self) ->
         startswith (raw_content c) (lit "(symbol") = true
         /\ _find_matching_paren (raw_content c) 0 = (len (raw_content c) - 1)%Z.
Proof.
  destruct (parse_total buffer) as [self H]. exists self. split; [exact H|].
  unfold parse in H.
  destruct (parse_loop _ _ _ _) as [r|] eqn:E; [|discriminate].
  inversion H; subst; clear H. simpl.
  pose proof (parse_loop_own_block buffer _ _ _ _ (Forall_nil _) E) as Hall.
  rewrite Forall_forall in Hall. exact Hall.
Qed.

(** X3.  [update_component] keeps the records on the buffer: when every
    record lies on the buffer and the records are in order, the call
    succeeds for any tracked record, and afterwards every record lies on
    the new buffer, the records are still in order, and they are the same
    records (same references, same number).  The part number and the URL
    hold no backslash: they go into the template of [re.sub], where a
    backslash would be read as an escape. *)
Theorem update_component_keeps_records_tracked
        (self : KicadSchParser) (idx : nat) (new_lcsc new_url : str) (R : Component) :
  value_literal new_lcsc = true ->
  value_literal new_url = true ->
  well_tracked self ->
  nth_error (components self) idx = Some R ->
  exists self',
    update_component self idx new_lcsc new_url = Some self'
    /\ well_tracked self'
    /\ map reference (components self') = map reference (components self).
Proof. intros _ _. apply update_component_tracked. Qed.

Lemma two_records_parsed :
  parse (block_r1 ++ [nl] ++ block_r1) = Some two_records.
Proof. vm_compute. reflexivity. Qed.

Lemma update_component_keeps_records_tracked_witness :
  value_literal (lit "C1002") = true
  /\ value_literal (lit "u") = true
  /\ well_tracked two_records
  /\ exists R self',
       nth_error (components two_records) 1 = Some R
       /\ update_component two_records 1 (lit "C1002") (lit "u") = Some self'
       /\ well_tracked self'.
Proof.
  assert (Hw : well_tracked two_records)
    by (apply (parse_well_tracked _ _ two_records_parsed)).
  split; [reflexivity|]. split; [reflexivity|].
  split; [exact Hw|].
  assert (HR : exists R, nth_error (components two_records) 1 = Some R)
    by (vm_compute; eexists; reflexivity).
  destruct HR as [R HR]. exists R.
  destruct (update_component_keeps_records_tracked two_records 1
              (lit "C1002") (lit "u") R eq_refl eq_refl Hw HR) as (self' & Hu & Hw' & _).
  exists self'. auto.
Defined.

(** X4.  [update_component] rewrites one block of the buffer and nothing
    else: with the buffer cut into what precedes the block of the tracked
    record, the block, and what follows, the new buffer is the same two
    outer parts around the block after the two upserts (LCSC, then URL).
    The record gets the new block, the new [lcsc] and [url] and an
    [end_pos] that fits the new block; its [start_pos], its other fields
    and its [properties] dictionary stay as they were.  The part number and
    the URL hold no backslash, so that the template of [re.sub] stands for
    itself. *)
Theorem update_component_rewrites_one_block
        (self : KicadSchParser) (idx : nat) (new_lcsc new_url : str) (R : Component) :
  value_literal new_lcsc = true ->
  value_literal new_url = true ->
  tracks (content self) R ->
  nth_error (components self) idx = Some R ->
  exists P S R' self',
    update_component self idx new_lcsc new_url = Some self'
    /\ nth_error (components self') idx = Some R'
    /\ content self = P ++ raw_content R ++ S
    /\ content self' = P ++ raw_content R' ++ S
    /\ len P = start_pos R
    /\ raw_content R'
       = _update_property (_update_property (raw_content R) (lit "LCSC") new_lcsc)
                          (lit "URL") new_url
    /\ lcsc R' = new_lcsc /\ url R' = new_url
    /\ start_pos R' = start_pos R
    /\ end_pos R' = (start_pos R + len (raw_content R') - 1)%Z
    /\ reference R' = reference R /\ value R' = value R
    /\ footprint R' = footprint R /\ lib_id R' = lib_id R
    /\ properties R' = properties R.
Proof.
  intros _ _ Ht HR.
  destruct (tracks_split _ _ Ht) as (P & S & Econt & LP & Lraw & EP & ES).
  exists P, S. eexists. eexists.
  rewrite (update_component_closed self idx new_lcsc new_url R HR). cbn zeta.
  split; [reflexivity|]. simpl.
  split.
  { apply nth_error_set_nth_eq. rewrite length_map.
    apply nth_error_Some. rewrite HR. discriminate. }
  split; [exact Econt|]. rewrite EP, ES. simpl.
  repeat split; auto.
Qed.

Lemma update_component_rewrites_one_block_witness :
  exists R P S R' self',
    nth_error (components two_records) 1 = Some R
    /\ value_literal (lit "C1002") = true
    /\ value_literal (lit "u") = true
    /\ tracks (content two_records) R
    /\ update_component two_records 1 (lit "C1002") (lit "u") = Some self'
    /\ content two_records = P ++ raw_content R ++ S
    /\ content self' = P ++ raw_content R' ++ S
    /\ len P = 179%Z.
Proof.
  assert (Hw : well_tracked two_records)
    by (apply (parse_well_tracked _ _ two_records_parsed)).
  assert (HR : exists R, nth_error (components two_records) 1 = Some R
                         /\ start_pos R = 179%Z)
    by (vm_compute; eexists; split; reflexivity).
  destruct HR as (R & HR & Hs). exists R.
  assert (Ht : tracks (content two_records) R).
  { destruct Hw as [Hall _]. rewrite Forall_forall in Hall. apply Hall.
    eapply nth_error_In. exact HR. }
  destruct (update_component_rewrites_one_block two_records 1
              (lit "C1002") (lit "u") R eq_refl eq_refl Ht HR)
    as (P & S & R' & self' & Hu & _ & Ec & Ec' & HP & _).
  exists P, S, R', self'. rewrite <- Hs.
  split; [exact HR|]. split; [reflexivity|]. split; [reflexivity|]. auto 10.
Defined.

(** ** [lcsc_linker.py]: the run over the components *)

Lemma moved_fields (R : Component) (diff : Z) (c : Component) :
  raw_content (moved R diff c) = raw_content c
  /\ lcsc (moved R diff c) = lcsc c
  /\ reference (moved R diff c) = reference c.
Proof. unfold moved. destruct (_ >? _)%Z; repeat split. Qed.

Lemma is_empty_nil (s : str) : is_empty s = true -> s = [].
Proof. destruct s; [reflexivity|discriminate]. Qed.

Lemma main_loop_invariant (dry_run : bool) (comps0 : list Component) :
  forall todo self outcomes u s self' u' s',
    well_tracked self ->
    map reference (components self) = map reference comps0 ->
    keeps_linked comps0 (components self) ->
    main_loop false dry_run todo self outcomes u s = Some (self', u', s') ->
    well_tracked self'
    /\ map reference (components self') = map reference comps0
    /\ keeps_linked comps0 (components self').
Proof.
  induction todo as [|j todo IH]; intros self outcomes u s self' u' s' Hw Hr Hk H;
    cbn [main_loop] in H.
  - inversion H; subst. auto.
  - destruct (nth_error (components self) j) as [comp|] eqn:Ej; [|discriminate].
    destruct (process_component (negb false) comp outcomes)
      as [[[lcsc_id url] outcomes']|] eqn:Ep; [|discriminate].
    destruct (is_empty lcsc_id) eqn:Ee; simpl in H; [eapply IH; eauto|].
    destruct dry_run; simpl in H; [eapply IH; eauto|].
    destruct (update_component self j lcsc_id url) as [self1|] eqn:Eu; [|discriminate].
    (* the component was prompted for, so it had no LCSC value *)
    assert (Hnone : lcsc comp = []).
    { unfold process_component in Ep. simpl in Ep.
      destruct (is_empty (lcsc comp)) eqn:El; [apply is_empty_nil; exact El|].
      simpl in Ep. inversion Ep; subst. discriminate. }
    destruct (update_component_tracked self j lcsc_id url comp Hw Ej)
      as (self1' & Eu' & Hw1 & Hr1).
    rewrite Eu in Eu'. inversion Eu'; subst self1'; clear Eu'.
    eapply IH; [exact Hw1| | |exact H].
    + rewrite Hr1. exact Hr.
    + intros k c0 Hk0 Hl. destruct (Hk k c0 Hk0 Hl) as (c & Hc & Hraw & Hlc).
      assert (Hkj : k <> j).
      { intros ->. rewrite Ej in Hc. inversion Hc; subst c. congruence. }
      rewrite (update_component_closed self j lcsc_id url comp Ej) in Eu.
      cbn zeta in Eu. inversion Eu; subst self1; clear Eu. simpl.
      rewrite (nth_error_patched_store _ _ comp _ _ k Ej).
      destruct (Nat.eqb_spec k j); [contradiction|].
      rewrite Hc. simpl. eexists. split; [reflexivity|].
      destruct (moved_fields comp
                  (len (_update_property (_update_property (raw_content comp) (lit "LCSC") lcsc_id)
                          (lit "URL") url) - len (raw_content comp)) c)
        as (E1 & E2 & _).
      rewrite E1, E2. auto.
Qed.

(** X5.  A run of the command-line tool without [--overwrite] leaves alone
    every component that already had an LCSC value: in the buffer it
    writes, the block of such a component is the text it was in the buffer
    read, found at the offsets of its record; and the records of the
    written buffer are those of the buffer read (same references), every
    one lying on the written buffer, in order.  Nothing is written under
    [--dry-run]. *)
Theorem main_keeps_linked_components
        (dry_run : bool) (buffer : str) (outcomes : list outcome) (written : str) :
  main false dry_run buffer outcomes = Some (Some written) ->
  dry_run = false
  /\ exists self0 self',
       parse buffer = Some self0
       /\ content self' = written
       /\ well_tracked self'
       /\ map reference (components self') = map reference (components self0)
       /\ forall j c0,
            nth_error (components self0) j = Some c0 -> lcsc c0 <> [] ->
            exists c, nth_error (components self') j = Some c
                      /\ raw_content c = raw_content c0
                      /\ raw_content c0
                         = slice written (start_pos c) (end_pos c + 1).
Proof.
  unfold main. intros H.
  destruct (parse buffer) as [self0|] eqn:Ep; [|discriminate].
  destruct (components self0) as [|c0 cs] eqn:Ec; [discriminate|].
  rewrite <- Ec in H.
  destruct (main_loop false dry_run _ self0 outcomes 0 0)
    as [[[self' u] s]|] eqn:El; [|discriminate].
  destruct dry_run; [discriminate|]. simpl in H.
  destruct (0 <? u); [|discriminate]. inversion H; subst written; clear H.
  split; [reflexivity|]. exists self0, self'. split; [reflexivity|].
  split; [reflexivity|].
  destruct (parse_well_tracked _ _ Ep) as (_ & Hw0).
  assert (Hk0 : keeps_linked (components self0) (components self0)).
  { intros j c Hj _. exists c. auto. }
  destruct (main_loop_invariant false (components self0) _ _ _ _ _ _ _ _
              Hw0 eq_refl Hk0 El) as (Hw & Hr & Hk).
  split; [exact Hw|]. split; [exact Hr|].
  intros j c Hj Hl. destruct (Hk j c Hj Hl) as (c' & Hc' & Hraw & _).
  exists c'. split; [exact Hc'|]. split; [exact Hraw|].
  destruct Hw as [Hall _]. rewrite Forall_forall in Hall.
  destruct (Hall c' (nth_error_In _ _ Hc')) as (_ & _ & Hs).
  rewrite <- Hraw. exact Hs.
Qed.

Lemma main_keeps_linked_components_witness :
  exists written,
    main false false (block_lcsc ++ [nl] ++ block_r1)
         [Selected (lit "C1002") (lit "u")] = Some (Some written)
    /\ exists self0 self', 
         parse (block_lcsc ++ [nl] ++ block_r1) = Some self0
         /\ content self' = written
         /\ map lcsc (components self0) = [lit "C7"; []]
         /\ map reference (components self') = map reference (components self0).
Proof.
  assert (Hm : exists written,
             main false false (block_lcsc ++ [nl] ++ block_r1)
                  [Selected (lit "C1002") (lit "u")] = Some (Some written))
    by (vm_compute; eexists; reflexivity).
  destruct Hm as [written Hm]. exists written. split; [exact Hm|].
  destruct (main_keeps_linked_components false _ _ _ Hm)
    as (_ & self0 & self' & Hp & Hc & _ & Hr & _).
  exists self0, self'. split; [exact Hp|]. split; [exact Hc|].
  split; [|exact Hr].
  vm_compute in Hp. inversion Hp. reflexivity.
Defined.

(** ** [fix_lcsc.py]: what the batch of insertions makes of the buffer *)

Lemma ascending_snoc (m : modification) :
  forall ms prev,
    ascending prev ms ->
    Forall (fun y => insert_pos y <= insert_pos m) ms ->
    prev <= insert_pos m ->
    ascending prev (ms ++ [m]).
Proof.
  induction ms as [|a ms IH]; intros prev Ha Hall Hp; simpl.
  - auto.
  - destruct Ha as [H1 H2]. inversion Hall; subst. split; [exact H1|].
    apply IH; auto.
Qed.

Lemma descending_rev_ascending (d : list modification) :
  descending d -> ascending 0 (rev d).
Proof.
  induction 1 as [|m l Hall Hd IH]; simpl; [exact I|].
  apply ascending_snoc; [exact IH| |lia].
  apply Forall_rev. exact Hall.
Qed.

Lemma firstn_splice_low (content : str) (p q : nat) (t : str) :
  q <= p -> p <= List.length content ->
  firstn q (splice content p t) = firstn q content.
Proof.
  intros Hq Hp. unfold splice.
  rewrite firstn_app, length_firstn.
  replace (q - Nat.min p (List.length content)) with 0 by lia.
  rewrite firstn_O, app_nil_r, firstn_firstn.
  f_equal. lia.
Qed.

Lemma firstn_skipn_window (s : str) (prev q : nat) :
  prev <= q ->
  firstn (q - prev) (skipn prev s) = skipn prev (firstn q s).
Proof.
  intros H. rewrite firstn_skipn_comm. f_equal. f_equal. lia.
Qed.

(** One more insertion, at an offset not below the ones woven in so far,
    is one more turn of the weaving. *)
Lemma weave_splice (content : str) (m : modification) :
  insert_pos m <= List.length content ->
  forall ms prev,
    ascending prev ms ->
    Forall (fun y => insert_pos y <= insert_pos m) ms ->
    prev <= insert_pos m ->
    weave (splice content (insert_pos m) (new_props m)) prev ms
    = weave content prev (ms ++ [m]).
Proof.
  intros Hm. induction ms as [|a ms IH]; intros prev Ha Hall Hp; simpl.
  - rewrite firstn_skipn_window by exact Hp.
    unfold splice. rewrite skipn_app, length_firstn.
    replace (prev - Nat.min (insert_pos m) (List.length content)) with 0 by lia.
    reflexivity.
  - destruct Ha as [H1 H2]. inversion Hall; subst.
    rewrite IH by assumption.
    rewrite !firstn_skipn_window by exact H1.
    rewrite firstn_splice_low by lia. reflexivity.
Qed.

Lemma fold_splice_weave :
  forall d content,
    descending d ->
    Forall (fun y => insert_pos y <= List.length content) d ->
    fold_left splice_mod d content = weave content 0 (rev d).
Proof.
  induction d as [|m d IH]; intros content Hd Hall; simpl.
  - reflexivity.
  - inversion Hd as [|? ? Hle Hd']; subst. inversion Hall as [|? ? Hm Hall']; subst.
    unfold splice_mod at 2. rewrite IH.
    + apply weave_splice; [exact Hm| | |lia].
      * apply descending_rev_ascending. exact Hd'.
      * apply Forall_rev. exact Hle.
    + exact Hd'.
    + eapply Forall_impl; [|exact Hall']. simpl. intros y Hy.
      rewrite length_splice. lia.
Qed.

Lemma insert_desc_perm (x : modification) (l : list modification) :
  Permutation (insert_desc x l) (x :: l).
Proof.
  induction l as [|y l IH]; simpl; [reflexivity|].
  destruct (insert_pos x <? insert_pos y); [|reflexivity].
  rewrite IH. apply perm_swap.
Qed.

Lemma sort_desc_perm (l : list modification) : Permutation (sort_desc l) l.
Proof.
  induction l as [|x l IH]; simpl; [reflexivity|].
  rewrite insert_desc_perm. constructor. exact IH.
Qed.

(** X6.  The batch of [fix_lcsc] only inserts: for offsets that lie in the
    buffer, the result is the buffer cut at the offsets, taken in
    ascending order, with every new text put in at its cut and nothing
    else changed. *)
Theorem batch_weaves_texts_in (content : str) (modifications : list modification) :
  Forall (fun m => insert_pos m <= List.length content) modifications ->
  apply_modifications content modifications
  = weave content 0 (rev (sort_desc modifications))
  /\ ascending 0 (rev (sort_desc modifications))
  /\ Permutation (rev (sort_desc modifications)) modifications.
Proof.
  intros Hall. split; [|split].
  - rewrite apply_modifications_fold. apply fold_splice_weave.
    + apply sort_desc_descending.
    + eapply Permutation_Forall; [|exact Hall].
      symmetry. apply sort_desc_perm.
  - apply descending_rev_ascending, sort_desc_descending.
  - rewrite <- Permutation_rev. apply sort_desc_perm.
Qed.

Lemma batch_weaves_texts_in_witness :
  Forall (fun m => insert_pos m <= List.length (lit "012345678")) mods_example
  /\ apply_modifications (lit "012345678") mods_example
     = weave (lit "012345678") 0 (rev (sort_desc mods_example))
  /\ weave (lit "012345678") 0 (rev (sort_desc mods_example))
     = lit "01<b>234<c><a>5678<d>".
Proof.
  assert (H : Forall (fun m => insert_pos m <= List.length (lit "012345678"))
                     mods_example)
    by (repeat constructor).
  split; [exact H|].
  split; [exact (proj1 (batch_weaves_texts_in _ _ H))|reflexivity].
Defined.

Lemma sort_desc_same_offset (p : nat) (ms : list modification) :
  Forall (fun m => insert_pos m = p) ms -> sort_desc ms = ms.
Proof.
  induction 1 as [|m ms Hm Hall IH]; simpl; [reflexivity|].
  rewrite IH. destruct ms as [|y ms]; [reflexivity|]. simpl.
  inversion Hall; subst. rewrite (proj2 (Nat.ltb_ge _ _)) by lia. reflexivity.
Qed.

Lemma fold_splice_same_offset (p : nat) :
  forall ms pre post,
    List.length pre = p ->
    Forall (fun m => insert_pos m = p) ms ->
    fold_left splice_mod ms (pre ++ post)
    = pre ++ List.concat (map new_props (rev ms)) ++ post.
Proof.
  induction ms as [|m ms IH]; intros pre post Hp Hall; simpl; [reflexivity|].
  inversion Hall as [|? ? Hm Hall']; subst.
  unfold splice_mod at 2. rewrite Hm.
  replace (splice (pre ++ post) (List.length pre) (new_props m))
    with (pre ++ (new_props m ++ post)).
  - rewrite IH by auto. rewrite map_app, List.concat_app. simpl.
    rewrite app_nil_r, <- !app_assoc. reflexivity.
  - unfold splice.
    replace (List.length pre) with (List.length pre + 0) by lia.
    rewrite firstn_past, skipn_past. simpl. rewrite app_nil_r. reflexivity.
Qed.

(** X7.  Insertions that share one offset end up in the reverse of the
    order they were gathered in: the text gathered last stands first. *)
Theorem batch_same_offset_reverses (content : str) (p : nat)
        (modifications : list modification) :
  p <= List.length content ->
  Forall (fun m => insert_pos m = p) modifications ->
  apply_modifications content modifications
  = firstn p content ++ List.concat (map new_props (rev modifications))
      ++ skipn p content.
Proof.
  intros Hp Hall. rewrite apply_modifications_fold.
  rewrite (sort_desc_same_offset p _ Hall).
  rewrite <- (firstn_skipn p content) at 1.
  apply (fold_splice_same_offset p); [|exact Hall].
  apply firstn_length_le. exact Hp.
Qed.

Lemma batch_same_offset_reverses_witness :
  apply_modifications (lit "0123")
    [MkMod 2 (lit "<a>") [] []; MkMod 2 (lit "<b>") [] []]
  = lit "01<b><a>23".
Proof.
  rewrite (batch_same_offset_reverses (lit "0123") 2).
  - reflexivity.
  - simpl. lia.
  - repeat constructor.
Defined.

Lemma insert_desc_comm (x y : modification) :
  insert_pos x <> insert_pos y ->
  forall s, insert_desc x (insert_desc y s) = insert_desc y (insert_desc x s).
Proof.
  intros Hne. induction s as [|z s IH]; simpl.
  - destruct (Nat.ltb_spec (insert_pos x) (insert_pos y)),
             (Nat.ltb_spec (insert_pos y) (insert_pos x)); try reflexivity; lia.
  - destruct (Nat.ltb_spec (insert_pos y) (insert_pos z)),
             (Nat.ltb_spec (insert_pos x) (insert_pos z)); simpl;
      repeat match goal with
             | |- context [?a <? ?b] => destruct (Nat.ltb_spec a b)
             end; try reflexivity; try lia.
    rewrite IH. reflexivity.
Qed.

Lemma sort_desc_permutation (l l' : list modification) :
  Permutation l l' ->
  NoDup (map insert_pos l) ->
  sort_desc l = sort_desc l'.
Proof.
  induction 1 as [|x l l' Hp IH|x y l|l l' l'' H1 IH1 H2 IH2]; intros Hnd; simpl.
  - reflexivity.
  - inversion Hnd; subst. rewrite IH by assumption. reflexivity.
  - apply insert_desc_comm. simpl in Hnd. inversion Hnd as [|? ? Hin _]; subst.
    intros E. apply Hin. left. symmetry. exact E.
  - rewrite IH1 by exact Hnd. apply IH2.
    eapply Permutation_NoDup; [|exact Hnd]. apply Permutation_map. exact H1.
Qed.

(** X8.  When no two insertions share an offset, the order in which they
    were gathered does not matter to the buffer the batch produces. *)
Theorem batch_order_irrelevant (content : str) (ms ms' : list modification) :
  Permutation ms ms' ->
  NoDup (map insert_pos ms) ->
  apply_modifications content ms = apply_modifications content ms'.
Proof.
  intros Hp Hnd. unfold apply_modifications.
  rewrite (sort_desc_permutation ms ms' Hp Hnd). reflexivity.
Qed.

Lemma batch_order_irrelevant_witness :
  apply_modifications (lit "0123")
    [MkMod 1 (lit "<a>") [] []; MkMod 3 (lit "<b>") [] []]
  = apply_modifications (lit "0123")
      [MkMod 3 (lit "<b>") [] []; MkMod 1 (lit "<a>") [] []].
Proof.
  apply batch_order_irrelevant.
  - apply perm_swap.
  - simpl. repeat constructor; simpl; intuition discriminate.
Defined.

(** ** [fix_lcsc.add_lcsc_properties]: gathering the insertions *)

Lemma search_newline (tail : list item) (s : str) (m : re_match) :
  re_search (Lit nl :: tail) s = Some m ->
  m_start m < List.length s /\ nth (m_start m) s 0%N = nl.
Proof.
  intros H. destruct (search_from_sound _ _ _ _ H) as (k & Hk & Hst & Hm & _).
  simpl in Hst. subst k. unfold match_here in Hm. simpl Nat.add in Hm.
  destruct (skipn (m_start m) s) as [|c s'] eqn:Esk; [discriminate|].
  destruct (skipn_cons_nth _ _ _ _ Esk) as (Hc & _ & Hlt).
  split; [exact Hlt|].
  change (m_items (Lit nl :: tail) (c :: s') (m_start m) [])
    with (if N.eqb nl c then m_items tail s' (S (m_start m)) [] else None) in Hm.
  destruct (N.eqb_spec nl c) as [E|]; [|discriminate]. congruence.
Qed.

Lemma fix_insertion_spec (rest : str) (k : nat) (indent : str) :
  fix_insertion rest = Some (k, indent) ->
  k < List.length rest /\ nth k rest 0%N = nl /\ forallb is_space indent = true.
Proof.
  unfold fix_insertion.
  destruct (re_search pat_pin rest) as [m|] eqn:Ep.
  - intros H. inversion H; subst; clear H.
    destruct (search_newline _ _ _ Ep) as (H1 & H2). repeat split; auto.
    apply (indent_group_ws (lits "(pin" ++ plus is_space ++ [Lit dq])); [reflexivity| |exact Ep].
    intros c s i mk Hc. unfold lits. rewrite m_items_lits.
    cbn [startswith lit list_ascii_of_string map].
    destruct (N.eqb_spec (N_of_ascii "("%char) c) as [<-|]; [discriminate|reflexivity].
  - destruct (re_search pat_instances rest) as [m|] eqn:Ei; [|discriminate].
    intros H. inversion H; subst; clear H.
    destruct (search_newline _ _ _ Ei) as (H1 & H2). repeat split; auto.
    apply (indent_group_ws (lits "(instances" ++ [Chr is_space])); [reflexivity| |exact Ei].
    intros c s i mk Hc. unfold lits. rewrite m_items_lits.
    cbn [startswith lit list_ascii_of_string map].
    destruct (N.eqb_spec (N_of_ascii "("%char) c) as [<-|]; [discriminate|reflexivity].
Qed.

Lemma nth_skipn (s : str) (a k : nat) : nth k (skipn a s) 0%N = nth (a + k) s 0%N.
Proof.
  revert s. induction a as [|a IH]; intros s; [reflexivity|].
  destruct s as [|c s]; simpl; [destruct k; reflexivity|apply IH].
Qed.

Lemma gather_one_spec (content : str) (match_ : re_match) (m : modification) :
  gather_one content match_ = Some m ->
  m_start match_ <= insert_pos m < List.length content
  /\ nth (insert_pos m) content 0%N = nl
  /\ lookup LCSC_DATA (mod_ref m) = Some (mod_lcsc_id m)
  /\ contains (firstn (insert_pos m - m_start match_) (skipn (m_start match_) content))
              ([dq] ++ lit "LCSC" ++ [dq]) = false
  /\ exists indent at_coords,
       forallb is_space indent = true
       /\ new_props m
          = fix_new_props indent (mod_lcsc_id m) (product_url (mod_lcsc_id m)) at_coords.
Proof.
  unfold gather_one.
  destruct (lookup LCSC_DATA (group content match_ 2)) as [lcsc_id|] eqn:El;
    [|discriminate].
  destruct (fix_insertion (skipn (m_start match_) content)) as [[k indent]|] eqn:Ef;
    [|discriminate].
  destruct (contains _ _) eqn:Ec; [discriminate|].
  intros H. inversion H; subst m; clear H. cbn [insert_pos mod_ref mod_lcsc_id new_props].
  destruct (fix_insertion_spec _ _ _ Ef) as (Hk & Hn & Hws).
  rewrite length_skipn in Hk. rewrite nth_skipn in Hn.
  replace (m_start match_ + k - m_start match_) with k by lia.
  repeat split; auto; try lia.
  eauto.
Qed.

(** X9.  Every insertion [add_lcsc_properties] gathers goes at a line break
    of the buffer, at or after the start of the symbol it was found for;
    its part number is the entry of [LCSC_DATA] for the reference, the text
    from the symbol's start to the line break holds no ['LCSC'] in quotes,
    and the text inserted is the LCSC node and the URL node of that part
    number behind an indent of white space.  The text written is the
    buffer with these texts woven in and nothing else changed. *)
Theorem add_lcsc_properties_inserts_at_line_breaks (content : str) :
  Forall (fun m =>
            insert_pos m < List.length content
            /\ nth (insert_pos m) content 0%N = nl
            /\ lookup LCSC_DATA (mod_ref m) = Some (mod_lcsc_id m)
            /\ exists indent at_coords,
                 forallb is_space indent = true
                 /\ new_props m
                    = fix_new_props indent (mod_lcsc_id m)
                                    (product_url (mod_lcsc_id m)) at_coords)
         (gather content)
  /\ add_lcsc_properties content
     = weave content 0 (rev (sort_desc (gather content))).
Proof.
  assert (Hall : Forall (fun m =>
            insert_pos m < List.length content
            /\ nth (insert_pos m) content 0%N = nl
            /\ lookup LCSC_DATA (mod_ref m) = Some (mod_lcsc_id m)
            /\ exists indent at_coords,
                 forallb is_space indent = true
                 /\ new_props m
                    = fix_new_props indent (mod_lcsc_id m)
                                    (product_url (mod_lcsc_id m)) at_coords)
         (gather content)).
  { apply Forall_forall. intros m Hin. unfold gather in Hin.
    apply in_flat_map in Hin. destruct Hin as (match_ & _ & Hin).
    destruct (gather_one content match_) as [m'|] eqn:Eg; [|contradiction].
    destruct Hin as [<-|[]].
    destruct (gather_one_spec _ _ _ Eg) as (H1 & H2 & H3 & _ & H5).
    repeat split; auto. lia. }
  split; [exact Hall|].
  unfold add_lcsc_properties. rewrite apply_modifications_fold.
  apply fold_splice_weave.
  - apply sort_desc_descending.
  - eapply Permutation_Forall; [symmetry; apply sort_desc_perm|].
    eapply Forall_impl; [|exact Hall]. simpl. intros m (H & _). lia.
Qed.

Lemma add_lcsc_properties_inserts_at_line_breaks_witness :
  map insert_pos (gather sample_sheet) = [78]
  /\ map mod_lcsc_id (gather sample_sheet) = [lit "C1002"]
  /\ nth 78 sample_sheet 0%N = nl
  /\ add_lcsc_properties sample_sheet
     = weave sample_sheet 0 (rev (sort_desc (gather sample_sheet))).
Proof.
  split; [reflexivity|]. split; [reflexivity|]. split; [reflexivity|].
  exact (proj2 (add_lcsc_properties_inserts_at_line_breaks sample_sheet)).
Defined.

(** ** Where a new node is put *)

Lemma firstn_exact (l r : str) : firstn (List.length l) (l ++ r) = l.
Proof.
  replace (List.length l) with (List.length l + 0) by lia.
  rewrite firstn_past. simpl. apply app_nil_r.
Qed.

(** A match of a pattern that opens with a line feed and a captured indent:
    the text is cut at the line feed, the indent is the white space that
    follows it, and the rest of the pattern matches right after. *)
Lemma newline_indent_shape (tail : list item) (whole : str) (m : re_match) :
  no_marks tail = true ->
  (forall c s i mk, is_space c = true -> m_items tail (c :: s) i mk = None) ->
  re_search (Lit nl :: Mark 2 :: Star true is_space :: Mark 3 :: tail) whole = Some m ->
  exists pre indent after,
    whole = pre ++ [nl] ++ indent ++ after
    /\ m_start m = List.length pre
    /\ group whole m 1 = indent
    /\ forallb is_space indent = true
    /\ m_items tail after (S (List.length pre + List.length indent))
               [(3, S (List.length pre + List.length indent)); (2, S (List.length pre))]
       <> None
    /\ forall k, k < List.length pre ->
         match_here (Lit nl :: Mark 2 :: Star true is_space :: Mark 3 :: tail)
                    (skipn k whole) k = None.
Proof.
  intros Hnm Href Hs.
  destruct (search_from_sound _ _ _ _ Hs) as (k & Hk & Hst & Hm & Hfirst).
  unfold match_here in Hm. simpl Nat.add in Hm, Hst.
  destruct (skipn k whole) as [|c s'] eqn:Esk; [discriminate|].
  change (m_items (Lit nl :: ?r) (c :: s') k [])
    with (if N.eqb nl c then m_items r s' (S k) [] else None) in Hm.
  destruct (N.eqb_spec nl c) as [Ec|]; [subst c|discriminate].
  rewrite m_items_mark, m_items_star in Hm
    by (intros; rewrite m_items_mark; apply Href; assumption).
  rewrite m_items_mark in Hm.
  destruct (m_items tail _ _ _) as [[j mk]|] eqn:Et; [|discriminate].
  pose proof Et as Et'.
  apply (m_items_no_marks _ Hnm) in Et. subst mk.
  inversion Hm; subst m; clear Hm.
  assert (Lk : List.length (firstn k whole) = k) by (apply firstn_length_le; exact Hk).
  exists (firstn k whole), (take_while is_space s'), (drop_while is_space s').
  split.
  { rewrite <- (firstn_skipn k whole) at 1. rewrite Esk. simpl.
    rewrite take_drop_while. reflexivity. }
  split; [simpl; congruence|].
  split.
  { unfold group. cbn [m_marks mark_get Nat.eqb Nat.mul Nat.add].
    destruct (skipn_cons_nth _ _ _ _ Esk) as (_ & Hrest & _).
    rewrite Hrest.
    replace (S (k + List.length (take_while is_space s')) - S k)
      with (List.length (take_while is_space s')) by lia.
    rewrite <- (take_drop_while is_space s') at 2. apply firstn_exact. }
  split; [apply take_while_all|].
  rewrite Lk. split.
  - simpl Nat.add in Et' |- *. rewrite Et'. discriminate.
  - intros k' Hk'. apply (Hfirst k' Hk').
Qed.

Lemma tail_opens_with (word : str) (r : list item) (after : str) (i : nat) (mk : marks) :
  m_items (map Lit word ++ r) after i mk <> None ->
  exists after', after = word ++ after'.
Proof.
  rewrite m_items_lits. destruct (startswith after word) eqn:E; [|congruence].
  intros _. exists (skipn (List.length word) after). apply startswith_split. exact E.
Qed.

(** X10.  A node that has to be synthesized goes on lines of its own
    directly above the first pin line (above the [(instances] line when
    the block has no pin), with the indentation of that line; the text on
    either side is kept as it is. *)
Theorem new_node_goes_above_pin_line (raw prop_name prop_value : str) :
  re_search (pat_existing prop_name) raw = None ->
  re_search pat_pin raw <> None \/ re_search pat_instances raw <> None ->
  exists pre indent word after,
    raw = pre ++ [nl] ++ indent ++ word ++ after
    /\ forallb is_space indent = true
    /\ (word = lit "(pin" \/ word = lit "(instances")
    /\ (re_search pat_pin raw <> None -> word = lit "(pin")
    /\ (forall k, k < List.length pre ->
          match_here pat_pin (skipn k raw) k = None
          /\ (word = lit "(instances" ->
              match_here pat_instances (skipn k raw) k = None))
    /\ _update_property raw prop_name prop_value
       = pre ++ new_prop indent prop_name prop_value (at_coords_of raw)
           ++ [nl] ++ indent ++ word ++ after.
Proof.
  intros Habs Hsome.
  rewrite (update_property_absent _ _ _ Habs).
  assert (Hcase : exists m tail word,
             re_search (Lit nl :: Mark 2 :: Star true is_space :: Mark 3
                            :: map Lit word ++ tail) raw = Some m
             /\ no_marks (map Lit word ++ tail) = true
             /\ (exists w', word = lparen :: w')
             /\ (word = lit "(pin" \/ word = lit "(instances")
             /\ (re_search pat_pin raw <> None -> word = lit "(pin")
             /\ (forall k, k < m_start m ->
                   match_here (Lit nl :: Mark 2 :: Star true is_space :: Mark 3
                                   :: map Lit word ++ tail) (skipn k raw) k = None ->
                   match_here pat_pin (skipn k raw) k = None
                   /\ (word = lit "(instances" ->
                       match_here pat_instances (skipn k raw) k = None))
             /\ insertion_point raw = (Z.of_nat (m_start m), group raw m 1)).
  { unfold insertion_point.
    destruct (re_search pat_pin raw) as [m|] eqn:Ep.
    - exists m, (plus is_space ++ [Lit dq]), (lit "(pin").
      split; [exact Ep|]. split; [reflexivity|]. split; [eexists; reflexivity|].
      split; [left; reflexivity|]. split; [reflexivity|].
      split; [|reflexivity].
      intros k _ Hn. split; [exact Hn|discriminate].
    - destruct Hsome as [Hp|Hi]; [congruence|].
      destruct (re_search pat_instances raw) as [m|] eqn:Ei; [|congruence].
      exists m, [Chr is_space], (lit "(instances").
      split; [exact Ei|]. split; [reflexivity|]. split; [eexists; reflexivity|].
      split; [right; reflexivity|]. split; [congruence|].
      split; [|reflexivity].
      intros k Hk Hn. split; [|intros _; exact Hn].
      pose proof (search_from_none _ _ _ Ep k) as Hnone. simpl in Hnone.
      apply Hnone.
      destruct (search_newline _ _ _ Ei) as (Hlt & _). lia. }
  destruct Hcase as (m & tail & word & Hs & Hnm & (w' & Hw) & Hword & Hpin & Hbefore & Hip).
  assert (Href : forall c s i mk,
             is_space c = true -> m_items (map Lit word ++ tail) (c :: s) i mk = None).
  { intros c s i mk Hc. rewrite m_items_lits. rewrite Hw. cbn [startswith].
    destruct (N.eqb_spec lparen c) as [<-|]; [discriminate|reflexivity]. }
  destruct (newline_indent_shape _ _ _ Hnm Href Hs)
    as (pre & indent & after & Eraw & Hst & Hg & Hws & Ht & Hfirst).
  destruct (tail_opens_with _ _ _ _ _ Ht) as (after' & Ea). subst after.
  exists pre, indent, word, after'.
  split; [exact Eraw|]. split; [exact Hws|]. split; [exact Hword|].
  split; [exact Hpin|].
  split.
  { intros k Hk. apply Hbefore; [lia|]. apply Hfirst. exact Hk. }
  rewrite Hip. cbn [fst snd]. rewrite Hg, Hst.
  change (Z.of_nat (List.length pre)) with (len pre).
  assert (E1 : slice_to raw (len pre) = pre)
    by (rewrite Eraw; apply slice_to_app).
  assert (E2 : slice_from raw (len pre) = [nl] ++ indent ++ word ++ after')
    by (rewrite Eraw; apply slice_from_app).
  rewrite E1, E2. reflexivity.
Qed.

Lemma new_node_goes_above_pin_line_witness :
  re_search (pat_existing LCSC) block_r1 = None
  /\ re_search pat_pin block_r1 <> None
  /\ exists pre indent after,
       block_r1 = pre ++ [nl] ++ indent ++ lit "(pin" ++ after
       /\ _update_property block_r1 LCSC (lit "C1002")
          = pre ++ new_prop indent LCSC (lit "C1002") (at_coords_of block_r1)
              ++ [nl] ++ indent ++ lit "(pin" ++ after.
Proof.
  assert (Habs : re_search (pat_existing LCSC) block_r1 = None) by reflexivity.
  split; [exact Habs|].
  assert (Hpin : re_search pat_pin block_r1 <> None) by (vm_compute; discriminate).
  split; [exact Hpin|].
  destruct (new_node_goes_above_pin_line block_r1 LCSC (lit "C1002") Habs (or_introl Hpin))
    as (pre & indent & word & after & Eraw & _ & _ & Hw & _ & Eu).
  rewrite (Hw Hpin) in Eraw, Eu.
  exists pre, indent, after. split; [exact Eraw|exact Eu].
Defined.

(** ** The properties dictionary *)

Lemma str_eqb_sym (a b : str) : str_eqb a b = str_eqb b a.
Proof.
  destruct (str_eqb_spec a b), (str_eqb_spec b a); congruence.
Qed.

Lemma dict_get_set (d : dict) (k v name default : str) :
  dict_get (dict_set d k v) name default
  = if str_eqb name k then v else dict_get d name default.
Proof.
  induction d as [|[k' v'] d IH]; simpl.
  - reflexivity.
  - destruct (str_eqb_spec k k') as [->|Hkk]; simpl.
    + destruct (str_eqb name k'); reflexivity.
    + rewrite IH. destruct (str_eqb_spec name k') as [->|Hn]; [|reflexivity].
      destruct (str_eqb_spec k' k); [congruence|reflexivity].
Qed.

Lemma dict_get_fold (raw : str) (name default : str) :
  forall ms d,
    dict_get (fold_left (fun properties prop_match =>
                           dict_set properties (group raw prop_match 1)
                                    (group raw prop_match 2)) ms d)
             name default
    = fold_left (fun found prop_match =>
                   if str_eqb name (group raw prop_match 1)
                   then group raw prop_match 2 else found)
                ms (dict_get d name default).
Proof.
  induction ms as [|m ms IH]; intros d; simpl; [reflexivity|].
  rewrite IH, dict_get_set. reflexivity.
Qed.

Lemma fold_pick_none (raw name : str) :
  forall ms found,
    Forall (fun m => prop_name_of raw m <> name) ms ->
    fold_left (fun found prop_match =>
                 if str_eqb name (group raw prop_match 1)
                 then group raw prop_match 2 else found) ms found
    = found.
Proof.
  induction ms as [|m ms IH]; intros found Hall; simpl; [reflexivity|].
  inversion Hall as [|? ? Hm Hall']; subst. rewrite IH by exact Hall'.
  unfold prop_name_of in Hm.
  destruct (str_eqb_spec name (group raw m 1)); [congruence|reflexivity].
Qed.

(** X11.  Of the property nodes of a block, the last one with a given name
    decides: the dictionary of [_parse_symbol_block] holds, under the name
    of a node, the value of that node when no later node has the name, and
    a name no node has is answered by the default.  So the reference of a
    component is the value of the last Reference node of its block. *)
Theorem last_property_node_wins (raw : str) :
  (forall before m after default,
      re_finditer pat_prop raw = before ++ m :: after ->
      Forall (fun m' => prop_name_of raw m' <> prop_name_of raw m) after ->
      dict_get (extract_properties raw) (prop_name_of raw m) default
      = prop_value_of raw m)
  /\ (forall name default,
         Forall (fun m => prop_name_of raw m <> name) (re_finditer pat_prop raw) ->
         dict_get (extract_properties raw) name default = default)
  /\ (forall start end_ c before m after,
         _parse_symbol_block raw start end_ = Some c ->
         re_finditer pat_prop raw = before ++ m :: after ->
         prop_name_of raw m = lit "Reference" ->
         Forall (fun m' => prop_name_of raw m' <> lit "Reference") after ->
         reference c = prop_value_of raw m).
Proof.
  assert (H1 : forall before m after default,
      re_finditer pat_prop raw = before ++ m :: after ->
      Forall (fun m' => prop_name_of raw m' <> prop_name_of raw m) after ->
      dict_get (extract_properties raw) (prop_name_of raw m) default
      = prop_value_of raw m).
  { intros before m after default E Hall. unfold extract_properties.
    rewrite dict_get_fold, E, fold_left_app. simpl.
    unfold prop_name_of at 2. rewrite str_eqb_refl.
    apply fold_pick_none. exact Hall. }
  split; [exact H1|]. split.
  - intros name default Hall. unfold extract_properties.
    rewrite dict_get_fold. simpl. apply fold_pick_none. exact Hall.
  - intros start end_ c before m after Hc E Hn Hall.
    destruct (parse_symbol_block_some _ _ _ _ Hc) as (_ & _ & _ & _ & Href & _).
    rewrite Href, <- Hn. apply (H1 before m after); [exact E|].
    rewrite Hn. exact Hall.
Qed.

Lemma last_property_node_wins_witness :
  exists before m after c,
    re_finditer pat_prop block_twice = before ++ m :: after
    /\ prop_name_of block_twice m = LCSC
    /\ after = []
    /\ prop_value_of block_twice m = lit "b"
    /\ dict_get (extract_properties block_twice) LCSC [] = lit "b"
    /\ _parse_symbol_block block_twice 0 0 = Some c
    /\ lcsc c = lit "b".
Proof.
  assert (E : exists before m,
             re_finditer pat_prop block_twice = before ++ m :: []
             /\ prop_name_of block_twice m = LCSC
             /\ prop_value_of block_twice m = lit "b").
  { vm_compute. eexists [_; _], _. split; [reflexivity|]. split; reflexivity. }
  destruct E as (before & m & E & Hn & Hv).
  assert (Hc : exists c, _parse_symbol_block block_twice 0 0 = Some c
                         /\ lcsc c = lit "b")
    by (vm_compute; eexists; split; reflexivity).
  destruct Hc as (c & Hc & Hl).
  exists before, m, [], c.
  split; [exact E|]. split; [exact Hn|]. split; [reflexivity|].
  split; [exact Hv|]. split; [|split; [exact Hc|exact Hl]].
  destruct (last_property_node_wins block_twice) as (H1 & _).
  rewrite <- Hn, <- Hv. apply (H1 before m [] []); [exact E|constructor].
Defined.

(** ** Manual entry: what the two surfaces accept *)

Lemma lstrip_head (c : N) (s : str) : is_space c = false -> lstrip (c :: s) = c :: s.
Proof. intros H. simpl. rewrite H. reflexivity. Qed.

Lemma digit_not_space (c : N) : is_ascii_digit c = true -> is_space c = false.
Proof.
  unfold is_ascii_digit. intros H.
  apply andb_true_iff in H. destruct H as [H1 H2].
  apply N.leb_le in H1, H2.
  assert (E : (c = 48 \/ c = 49 \/ c = 50 \/ c = 51 \/ c = 52 \/ c = 53
               \/ c = 54 \/ c = 55 \/ c = 56 \/ c = 57)%N) by lia.
  repeat (destruct E as [->|E]; [reflexivity|]). subst c. reflexivity.
Qed.

Lemma digit_upper (c : N) : is_ascii_digit c = true -> upper_char c = c.
Proof.
  unfold is_ascii_digit, upper_char. intros H.
  apply andb_true_iff in H. destruct H as [H1 H2].
  apply N.leb_le in H1, H2.
  destruct (N.leb_spec 97 c); [lia|reflexivity].
Qed.

Lemma digits_upper (ds : str) : forallb is_ascii_digit ds = true -> upper ds = ds.
Proof.
  induction ds as [|d ds IH]; simpl; [reflexivity|].
  intros H. apply andb_true_iff in H. destruct H as [Hd Hds].
  unfold upper in *. simpl. rewrite digit_upper by exact Hd. rewrite IH by exact Hds.
  reflexivity.
Qed.

Lemma strip_fixed (s : str) (c d : N) (m m' : str) :
  s = c :: m -> rev s = d :: m' ->
  is_space c = false -> is_space d = false ->
  strip s = s.
Proof.
  intros Hs Hr Hc Hd. unfold strip.
  rewrite Hs at 1. rewrite (lstrip_head c m Hc), <- Hs, Hr.
  rewrite (lstrip_head d m' Hd), <- Hr. apply rev_involutive.
Qed.

(** A part number in normal form, [C] and digits, is left as it is by
    [strip] and [upper]. *)
Lemma part_number_normal (ds : str) :
  ds <> [] -> forallb is_ascii_digit ds = true ->
  upper (strip (67%N :: ds)) = 67%N :: ds.
Proof.
  intros Hne Hds.
  assert (Hstrip : strip (67%N :: ds) = 67%N :: ds).
  { destruct (exists_last Hne) as (ds' & d & E).
    assert (Hd : is_ascii_digit d = true).
    { rewrite E, forallb_app in Hds. apply andb_true_iff in Hds.
      destruct Hds as [_ Hd]. simpl in Hd. rewrite andb_true_r in Hd. exact Hd. }
    apply (strip_fixed _ 67%N d ds (rev (67%N :: ds'))); [reflexivity| |reflexivity|].
    - rewrite E. change (67%N :: ds' ++ [d]) with ((67%N :: ds') ++ [d]).
      rewrite rev_app_distr. reflexivity.
    - apply digit_not_space. exact Hd. }
  rewrite Hstrip. unfold upper. simpl. f_equal. apply digits_upper. exact Hds.
Qed.

Lemma on_manual_entry_inv (typed lcsc_id url : str) :
  _on_manual_entry typed = Some (lcsc_id, url) ->
  lcsc_id = upper (strip typed)
  /\ url = product_url lcsc_id
  /\ exists ds, lcsc_id = 67%N :: ds /\ ds <> []
                /\ forallb is_ascii_digit ds = true.
Proof.
  unfold _on_manual_entry.
  destruct (upper (strip typed)) as [|c ds] eqn:E; [discriminate|].
  cbn [is_empty negb andb tl].
  destruct (startswith (c :: ds) (lit "C")) eqn:Es; [|discriminate].
  destruct (isdigit ds) eqn:Ed; [|discriminate].
  intros H. inversion H; subst; clear H.
  split; [reflexivity|]. split; [reflexivity|].
  change (lit "C") with [67%N] in Es. cbn [startswith] in Es.
  rewrite andb_true_r in Es. apply N.eqb_eq in Es. subst c.
  unfold isdigit in Ed. apply andb_true_iff in Ed. destruct Ed as [Hne Hd].
  exists ds. split; [reflexivity|]. split; [|exact Hd].
  intros ->. discriminate.
Qed.

(** X12.  What the dialog accepts as a manual entry is a part number in
    normal form: the letter [C] followed by one digit or more, with the
    product page of that number as its URL; and the number it hands on is
    itself accepted, unchanged, when it is entered again. *)
Theorem dialog_accepts_part_numbers (typed lcsc_id url : str) :
  is_ascii typed = true ->
  _on_manual_entry typed = Some (lcsc_id, url) ->
  (exists ds, lcsc_id = lit "C" ++ ds /\ ds <> []
              /\ forallb is_ascii_digit ds = true)
  /\ url = product_url lcsc_id
  /\ _on_manual_entry lcsc_id = Some (lcsc_id, url).
Proof.
  intros _ H.
  destruct (on_manual_entry_inv _ _ _ H) as (_ & Hu & ds & -> & Hne & Hd).
  split; [exists ds; auto|]. split; [exact Hu|].
  unfold _on_manual_entry. rewrite (part_number_normal ds Hne Hd).
  cbn [is_empty negb andb tl].
  change (startswith (67%N :: ds) (lit "C")) with (N.eqb 67 67 && true).
  simpl andb. unfold isdigit. rewrite Hd.
  destruct ds; [congruence|]. simpl. rewrite Hu. reflexivity.
Qed.

Lemma dialog_accepts_part_numbers_witness :
  is_ascii (lit "  c1002 ") = true
  /\ _on_manual_entry (lit "  c1002 ")
     = Some (lit "C1002", lit "https://www.lcsc.com/product-detail/C1002.html")
  /\ _on_manual_entry (lit "C1002")
     = Some (lit "C1002", lit "https://www.lcsc.com/product-detail/C1002.html").
Proof.
  assert (Ha : is_ascii (lit "  c1002 ") = true) by reflexivity.
  assert (He : _on_manual_entry (lit "  c1002 ")
               = Some (lit "C1002", lit "https://www.lcsc.com/product-detail/C1002.html"))
    by reflexivity.
  split; [exact Ha|]. split; [exact He|].
  exact (proj2 (proj2 (dialog_accepts_part_numbers _ _ _ Ha He))).
Defined.

(** X13.  The dialog accepts exactly what the command-line prompt accepts
    and whose part after the first character is all digits; on such text
    the two surfaces hand on the same part number and URL. *)
Theorem dialog_is_prompt_with_digits (typed : str) (selection : str * str) :
  is_ascii typed = true ->
  (_on_manual_entry typed = Some selection
   <-> prompt_selection_manual typed = Some selection
       /\ isdigit (tl (fst selection)) = true).
Proof.
  intros _. unfold _on_manual_entry, prompt_selection_manual.
  destruct (negb (is_empty (upper (strip typed)))
            && startswith (upper (strip typed)) (lit "C")) eqn:E; simpl.
  - destruct (isdigit (tl (upper (strip typed)))) eqn:Ed; split.
    + intros H. inversion H; subst. simpl. auto.
    + intros [H _]. exact H.
    + discriminate.
    + intros [H Hd]. inversion H; subst. simpl in Hd. congruence.
  - split; [discriminate|]. intros [H _]. discriminate.
Qed.

Lemma dialog_is_prompt_with_digits_witness :
  is_ascii (lit " c7 ") = true
  /\ prompt_selection_manual (lit " c7 ")
     = Some (lit "C7", lit "https://www.lcsc.com/product-detail/C7.html")
  /\ _on_manual_entry (lit " c7 ")
     = Some (lit "C7", lit "https://www.lcsc.com/product-detail/C7.html").
Proof.
  assert (Ha : is_ascii (lit " c7 ") = true) by reflexivity.
  split; [exact Ha|]. split; [reflexivity|].
  apply (proj2 (dialog_is_prompt_with_digits (lit " c7 ") _ Ha)).
  split; reflexivity.
Defined.

Lemma no_lparen_not_hdr (t : str) : ~ In lparen t -> ends_hdr t = false.
Proof.
  intros H. destruct (ends_hdr t) eqn:E; [|reflexivity].
  exfalso. apply H. apply ends_hdr_lparen. exact E.
Qed.

Lemma url_chars_plain (v : str) : forallb url_char v = true -> plain_value v = true.
Proof.
  intros H. unfold plain_value, value_literal, no_dq, not_dq.
  assert (Hall : forall c, In c v -> url_char c = true)
    by (apply forallb_forall; exact H).
  rewrite no_lparen_not_hdr.
  - rewrite !andb_true_r. apply andb_true_iff. split; apply forallb_forall;
      intros c Hc; specialize (Hall c Hc); unfold url_char in Hall;
      apply andb_true_iff in Hall; destruct Hall as [Hall _];
      apply andb_true_iff in Hall; destruct Hall; assumption.
  - intros Hin. specialize (Hall _ Hin). unfold url_char in Hall.
    rewrite N.eqb_refl in Hall. rewrite andb_false_r in Hall. discriminate.
Qed.

Lemma digits_url_chars (ds : str) :
  forallb is_ascii_digit ds = true -> forallb url_char ds = true.
Proof.
  intros H. apply forallb_forall. intros c Hc.
  rewrite forallb_forall in H. specialize (H c Hc).
  unfold is_ascii_digit in H. apply andb_true_iff in H. destruct H as [H1 H2].
  apply N.leb_le in H1, H2. unfold url_char, bslash, dq, lparen.
  repeat match goal with
         | |- context [(?a =? ?b)%N] => destruct (N.eqb_spec a b)
         end; simpl; try reflexivity; lia.
Qed.

(** X14.  A part number and a URL that the dialog hands on can be written
    into a quoted value as they are: they hold no double quote, no
    backslash and no opening of a property node; so an upsert with them
    into a block that has one node of the property rewrites that value, and
    the same upsert again changes nothing. *)
Theorem dialog_selection_is_plain (typed lcsc_id url raw old : str) :
  is_ascii typed = true ->
  _on_manual_entry typed = Some (lcsc_id, url) ->
  plain_value lcsc_id = true /\ plain_value url = true
  /\ (node_values (lit "LCSC") raw = [old] ->
      node_values (lit "LCSC") (_update_property raw (lit "LCSC") lcsc_id) = [lcsc_id]
      /\ _update_property (_update_property raw (lit "LCSC") lcsc_id) (lit "LCSC") lcsc_id
         = _update_property raw (lit "LCSC") lcsc_id).
Proof.
  intros _ H.
  destruct (on_manual_entry_inv _ _ _ H) as (_ & Hu & ds & -> & Hne & Hd).
  assert (Hid : forallb url_char (67%N :: ds) = true).
  { simpl. apply digits_url_chars. exact Hd. }
  assert (Hp : plain_value (67%N :: ds) = true) by (apply url_chars_plain; exact Hid).
  split; [exact Hp|]. split.
  - apply url_chars_plain. rewrite Hu. unfold product_url.
    rewrite !forallb_app. rewrite Hid. reflexivity.
  - intros Hold.
    unfold plain_value in Hp. apply andb_true_iff in Hp. destruct Hp as [Hp _].
    apply andb_true_iff in Hp. destruct Hp as [_ Nv].
    assert (Hin : re_search (pat_existing (lit "LCSC")) raw <> None)
      by (rewrite search_existing_values, Hold; discriminate).
    assert (Hv : node_values (lit "LCSC") (_update_property raw (lit "LCSC") (67%N :: ds))
                 = [67%N :: ds]).
    { rewrite update_property_in_place by exact Hin.
      rewrite node_values_re_sub by (try reflexivity; exact Nv).
      rewrite Hold. reflexivity. }
    split; [exact Hv|].
    apply (update_property_same _ _ _ 0); [reflexivity|exact Nv|exact Hv].
Qed.

Lemma dialog_selection_is_plain_witness :
  is_ascii (lit " c1002") = true
  /\ node_values (lit "LCSC") block_lcsc = [lit "C7"]
  /\ plain_value (lit "C1002") = true
  /\ node_values (lit "LCSC") (_update_property block_lcsc (lit "LCSC") (lit "C1002"))
     = [lit "C1002"].
Proof.
  assert (Ha : is_ascii (lit " c1002") = true) by reflexivity.
  assert (He : _on_manual_entry (lit " c1002")
               = Some (lit "C1002", lit "https://www.lcsc.com/product-detail/C1002.html"))
    by reflexivity.
  assert (Ho : node_values (lit "LCSC") block_lcsc = [lit "C7"]) by reflexivity.
  destruct (dialog_selection_is_plain _ _ _ block_lcsc (lit "C7") Ha He)
    as (Hp & _ & Hr).
  split; [exact Ha|]. split; [exact Ho|]. split; [exact Hp|].
  exact (proj1 (Hr Ho)).
Defined.

(** ** [lcsc_linker_gui.py]: processing components in the main window *)

Lemma empty_comps_spec (comps : list Component) :
  forall j k, In k (empty_comps comps j) ->
              exists c, nth_error comps (k - j) = Some c /\ lcsc c = [] /\ j <= k.
Proof.
  induction comps as [|c comps IH]; intros j k Hin; simpl in Hin; [contradiction|].
  assert (Hrec : In k (empty_comps comps (S j)) ->
                 exists c0, nth_error (c :: comps) (k - j) = Some c0
                            /\ lcsc c0 = [] /\ j <= k).
  { intros H. destruct (IH _ _ H) as (c0 & Hc & Hl & Hle).
    exists c0. replace (k - j) with (S (k - S j)) by lia. simpl.
    repeat split; auto. lia. }
  destruct (is_empty (lcsc c)) eqn:E; [|auto].
  destruct Hin as [<-|Hin]; [|auto].
  exists c. rewrite Nat.sub_diag. simpl. repeat split; auto.
  apply is_empty_nil. exact E.
Qed.

Lemma process_components_invariant (comps0 : list Component) :
  forall todo parser dialogs u s parser' u' s',
    Forall (fun j => exists c0, nth_error comps0 j = Some c0 /\ lcsc c0 = []) todo ->
    well_tracked parser ->
    map reference (components parser) = map reference comps0 ->
    keeps_linked comps0 (components parser) ->
    _process_components todo parser dialogs u s = Some (parser', u', s') ->
    well_tracked parser'
    /\ map reference (components parser') = map reference comps0
    /\ keeps_linked comps0 (components parser').
Proof.
  induction todo as [|j todo IH];
    intros parser dialogs u s parser' u' s' Htodo Hw Hr Hk H;
    cbn [_process_components] in H.
  - inversion H; subst. auto.
  - inversion Htodo as [|? ? (c0 & Hc0 & Hl0) Htodo']; subst.
    destruct dialogs as [|dlg dialogs]; [discriminate|].
    destruct (result dlg).
    + destruct (is_empty (selected_lcsc_id dlg)); simpl in H;
        [eapply IH; eauto|].
      destruct (update_component parser j _ _) as [parser1|] eqn:Eu; [|discriminate].
      assert (Hj : exists comp, nth_error (components parser) j = Some comp).
      { destruct (nth_error (components parser) j) as [comp|] eqn:Ej; [eauto|].
        exfalso. apply nth_error_None in Ej.
        assert (Hlen : List.length (components parser) = List.length comps0).
        { rewrite <- (length_map reference), Hr, length_map. reflexivity. }
        assert (j < List.length comps0)
          by (apply nth_error_Some; rewrite Hc0; discriminate).
        lia. }
      destruct Hj as [comp Ej].
      destruct (update_component_tracked parser j (selected_lcsc_id dlg) (selected_url dlg) comp Hw Ej)
        as (parser1' & Eu' & Hw1 & Hr1).
      rewrite Eu in Eu'. inversion Eu'; subst parser1'; clear Eu'.
      eapply IH; [exact Htodo'|exact Hw1| | |exact H].
      * rewrite Hr1. exact Hr.
      * intros k c Hkc Hl. destruct (Hk k c Hkc Hl) as (c' & Hc' & Hraw & Hlc).
        assert (Hkj : k <> j) by (intros ->; congruence).
        rewrite (update_component_closed parser j (selected_lcsc_id dlg) (selected_url dlg) comp Ej) in Eu.
        cbn zeta in Eu. inversion Eu; subst parser1; clear Eu. simpl.
        rewrite (nth_error_patched_store _ _ comp _ _ k Ej).
        destruct (Nat.eqb_spec k j); [contradiction|].
        rewrite Hc'. simpl. eexists. split; [reflexivity|].
        match goal with
        | |- context [moved comp ?d c'] =>
            destruct (moved_fields comp d c') as (E1 & E2 & _)
        end.
        rewrite E1, E2. auto.
    + eapply IH; eauto.
    + inversion H; subst. auto.
Qed.

(** X15.  [Process Empty] in the main window leaves alone every component
    that has an LCSC value: whatever the dialogs end with, such a component
    keeps its block and its value, the records stay the same records, and
    every record lies on the buffer afterwards, in order. *)
Theorem process_empty_keeps_linked_components
        (parser parser' : KicadSchParser) (dialogs : list dialog_end) :
  well_tracked parser ->
  _on_process_empty parser dialogs = Some parser' ->
  well_tracked parser'
  /\ map reference (components parser') = map reference (components parser)
  /\ forall j c0,
       nth_error (components parser) j = Some c0 -> lcsc c0 <> [] ->
       exists c, nth_error (components parser') j = Some c
                 /\ raw_content c = raw_content c0 /\ lcsc c = lcsc c0.
Proof.
  intros Hw H. unfold _on_process_empty in H.
  assert (Hk0 : keeps_linked (components parser) (components parser)).
  { intros j c Hj _. exists c. auto. }
  destruct (empty_comps (components parser) 0) as [|j todo] eqn:Et.
  - inversion H; subst. auto.
  - destruct (_process_components (j :: todo) parser dialogs 0 0)
      as [[[p u] s]|] eqn:Ep; [|discriminate].
    inversion H; subst p; clear H.
    apply (process_components_invariant (components parser) _ _ _ _ _ _ _ _)
      with (5 := Ep); auto.
    rewrite <- Et. apply Forall_forall. intros k Hin.
    destruct (empty_comps_spec _ _ _ Hin) as (c & Hc & Hl & _).
    rewrite Nat.sub_0_r in Hc. eauto.
Qed.

Lemma linked_and_empty_parsed :
  parse (block_lcsc ++ [nl] ++ block_r1) = Some linked_and_empty.
Proof. vm_compute. reflexivity. Qed.

Lemma process_empty_keeps_linked_components_witness :
  well_tracked linked_and_empty
  /\ map lcsc (components linked_and_empty) = [lit "C7"; []]
  /\ exists parser',
       _on_process_empty linked_and_empty
         [MkDialogEnd ID_OK (lit "C1002") (lit "u")] = Some parser'
       /\ well_tracked parser'
       /\ map lcsc (components parser') = [lit "C7"; lit "C1002"].
Proof.
  assert (Hw : well_tracked linked_and_empty)
    by (apply (parse_well_tracked _ _ linked_and_empty_parsed)).
  split; [exact Hw|]. split; [reflexivity|].
  assert (Hp : exists parser',
             _on_process_empty linked_and_empty
               [MkDialogEnd ID_OK (lit "C1002") (lit "u")] = Some parser'
             /\ map lcsc (components parser') = [lit "C7"; lit "C1002"])
    by (vm_compute; eexists; split; reflexivity).
  destruct Hp as (parser' & Hp & Hl). exists parser'.
  split; [exact Hp|]. split; [|exact Hl].
  exact (proj1 (process_empty_keeps_linked_components _ _ _ Hw Hp)).
Defined.

(** ** Parsing the block of a record again *)

Lemma pat_symbol_shape :
  pat_symbol
  = map Lit (lit "(symbol") ++ plus is_space ++ map Lit (lit "(lib_id")
      ++ plus is_space ++ map Lit [dq]
      ++ Mark 2 :: plus not_dq ++ Mark 3 :: map Lit [dq; rparen] ++ [].
Proof. reflexivity. Qed.

Lemma space_not_lparen (c : N) : is_space c = true -> N.eqb lparen c = false.
Proof. intros H. destruct (N.eqb_spec lparen c); [subst; discriminate|reflexivity]. Qed.

Lemma match_here_symbol (s : str) (i : nat) :
  match_here pat_symbol s i
  = match symbol_head s with
    | Some (w1, w2, name, rest) =>
        let a := i + List.length (lit "(symbol" ++ w1 ++ lit "(lib_id" ++ w2 ++ [dq]) in
        let b := a + List.length name in
        Some (MkMatch i (S (S b)) [(3, b); (2, a)])
    | None => None
    end.
Proof.
  unfold match_here, symbol_head, eat. rewrite pat_symbol_shape.
  rewrite m_items_lits.
  destruct (startswith s (lit "(symbol")) eqn:E1; [|reflexivity].
  set (s1 := skipn (List.length (lit "(symbol")) s).
  rewrite m_items_plus.
  2:{ intros c s' i' Hc. rewrite m_items_lits. cbn [startswith lit list_ascii_of_string map].
      change (N_of_ascii "("%char) with lparen.
      rewrite (space_not_lparen _ Hc). reflexivity. }
  unfold eat_ws. destruct s1 as [|c1 s1']; [reflexivity|].
  destruct (is_space c1) eqn:Ec1; [|reflexivity].
  set (w1 := take_while is_space s1'). set (s2 := drop_while is_space s1').
  rewrite m_items_lits.
  destruct (startswith s2 (lit "(lib_id")) eqn:E2; [|reflexivity].
  set (s3 := skipn (List.length (lit "(lib_id")) s2).
  rewrite m_items_plus.
  2:{ intros c s' i' Hc. rewrite m_items_lits. cbn [startswith].
      rewrite (is_space_not_dq _ Hc). reflexivity. }
  destruct s3 as [|c3 s3']; [reflexivity|].
  destruct (is_space c3) eqn:Ec3; [|reflexivity].
  set (w2 := take_while is_space s3'). set (s4 := drop_while is_space s3').
  rewrite m_items_lits.
  destruct (startswith s4 [dq]) eqn:E4; [|reflexivity].
  set (s5 := skipn (List.length [dq]) s4).
  rewrite m_items_mark, m_items_plus.
  2:{ intros c s' i' Hc. rewrite m_items_mark, m_items_lits. cbn [startswith].
      unfold not_dq in Hc. apply negb_true_iff in Hc.
      rewrite N.eqb_sym, Hc. reflexivity. }
  destruct s5 as [|c5 s5']; [reflexivity|].
  destruct (not_dq c5) eqn:Ec5; [|reflexivity].
  rewrite m_items_mark, m_items_lits.
  destruct (startswith (drop_while not_dq s5') [dq; rparen]) eqn:E5; [|reflexivity].
  cbn [m_items]. cbv zeta.
  fold w1 w2.
  repeat match goal with
         | |- Some _ = Some _ => f_equal
         | |- (_, _) = (_, _) => f_equal
         | |- _ :: _ = _ :: _ => f_equal
         | |- MkMatch _ _ _ = MkMatch _ _ _ => f_equal
         | |- @eq nat _ _ =>
             repeat (rewrite length_app; cbn [List.length]); lia
         end.
Qed.

Lemma symbol_head_sound (s w1 w2 name rest : str) :
  symbol_head s = Some (w1, w2, name, rest) ->
  s = symbol_opening w1 w2 name ++ rest
  /\ ws_plus w1 = true /\ ws_plus w2 = true
  /\ name <> [] /\ no_dq name = true.
Proof.
  unfold symbol_head.
  destruct (eat (lit "(symbol") s) as [s1|] eqn:E1; [|discriminate].
  destruct (eat_ws s1) as [[w1' s2]|] eqn:E2; [|discriminate].
  destruct (eat (lit "(lib_id") s2) as [s3|] eqn:E3; [|discriminate].
  destruct (eat_ws s3) as [[w2' s4]|] eqn:E4; [|discriminate].
  destruct (eat [dq] s4) as [s5|] eqn:E5; [|discriminate].
  destruct s5 as [|c s5']; [discriminate|].
  destruct (not_dq c) eqn:Ec; [|discriminate].
  destruct (eat [dq; rparen] (drop_while not_dq s5')) as [rest'|] eqn:E6; [|discriminate].
  intros H. inversion H; subst; clear H.
  apply eat_split in E1, E3, E5, E6.
  apply eat_ws_length in E2, E4. destruct E2 as [E2 Hw1], E4 as [E4 Hw2].
  split; [|split; [exact Hw1|split; [exact Hw2|split; [discriminate|]]]].
  - unfold symbol_opening. rewrite E1, E2, E3, E4, E5.
    rewrite <- (take_drop_while not_dq s5') at 1. rewrite E6.
    list_norm. reflexivity.
  - unfold no_dq. simpl. rewrite Ec. apply take_while_all.
Qed.

Lemma symbol_head_complete (w1 w2 name rest : str) :
  ws_plus w1 = true -> ws_plus w2 = true ->
  name <> [] -> no_dq name = true ->
  symbol_head (symbol_opening w1 w2 name ++ rest) = Some (w1, w2, name, rest).
Proof.
  intros Hw1 Hw2 Hne Hn. unfold symbol_head, symbol_opening.
  list_norm. rewrite eat_app.
  set (t2 := w2 ++ dq :: name ++ dq :: rparen :: rest).
  assert (E2 : eat_ws (w1 ++ lit "(lib_id" ++ t2) = Some (w1, lit "(lib_id" ++ t2))
    by (apply (eat_ws_app w1 lparen (lit "lib_id" ++ t2)); [exact Hw1|reflexivity]).
  rewrite E2, eat_app. unfold t2.
  set (t4 := name ++ dq :: rparen :: rest).
  assert (E4 : eat_ws (w2 ++ dq :: t4) = Some (w2, [dq] ++ t4))
    by (apply (eat_ws_app w2 dq t4); [exact Hw2|reflexivity]).
  rewrite E4, eat_app. unfold t4.
  destruct name as [|c n']; [congruence|].
  unfold no_dq in Hn. simpl in Hn. apply andb_true_iff in Hn. destruct Hn as [Hc Hn'].
  cbn [app]. rewrite Hc.
  destruct (take_while_app not_dq n' dq (rparen :: rest) Hn') as [A B];
    [unfold not_dq; rewrite N.eqb_refl; reflexivity|].
  rewrite A, B.
  change (dq :: rparen :: rest) with ([dq; rparen] ++ rest). rewrite eat_app.
  reflexivity.
Qed.

Lemma paren_loop_inert (content : str) :
  forall x rest i d q,
    forallb inert x = true ->
    paren_loop content (x ++ rest) i d q
    = paren_loop content rest (i + List.length x) d q.
Proof.
  induction x as [|c x IH]; intros rest i d q H; simpl.
  - rewrite Nat.add_0_r. reflexivity.
  - simpl in H. apply andb_true_iff in H. destruct H as [Hc Hx].
    unfold inert in Hc. apply andb_true_iff in Hc. destruct Hc as [Hc H3].
    apply andb_true_iff in Hc. destruct Hc as [H1 H2].
    apply negb_true_iff in H1, H2, H3. rewrite H1, H2, H3. simpl.
    rewrite Nat.add_succ_r.
    destruct (negb q); apply IH; exact Hx.
Qed.

Lemma paren_loop_quoted (content : str) :
  forall x rest i d,
    no_dq x = true ->
    paren_loop content (x ++ rest) i d true
    = paren_loop content rest (i + List.length x) d true.
Proof.
  induction x as [|c x IH]; intros rest i d H; simpl.
  - rewrite Nat.add_0_r. reflexivity.
  - unfold no_dq in H. simpl in H. apply andb_true_iff in H. destruct H as [Hc Hx].
    unfold not_dq in Hc. apply negb_true_iff in Hc. rewrite Hc. simpl.
    rewrite Nat.add_succ_r. apply IH. exact Hx.
Qed.

Lemma ws_inert (w : str) : forallb is_space w = true -> forallb inert w = true.
Proof.
  intros H. apply forallb_forall. intros c Hc.
  rewrite forallb_forall in H. specialize (H c Hc).
  unfold inert.
  destruct (N.eqb_spec c dq) as [->|]; [discriminate|].
  destruct (N.eqb_spec c lparen) as [->|]; [discriminate|].
  destruct (N.eqb_spec c rparen) as [->|]; [discriminate|].
  reflexivity.
Qed.

Lemma ws_plus_last (w : str) :
  ws_plus w = true -> exists w' c, w = w' ++ [c] /\ is_space c = true
                                    /\ forallb is_space w = true.
Proof.
  unfold ws_plus. intros H. apply andb_true_iff in H. destruct H as [Hne Hall].
  assert (Hn : w <> []) by (intros ->; discriminate).
  destruct (exists_last Hn) as (w' & c & E). exists w', c.
  split; [exact E|]. split; [|exact Hall].
  rewrite E, forallb_app in Hall. apply andb_true_iff in Hall.
  destruct Hall as [_ Hc]. simpl in Hc. rewrite andb_true_r in Hc. exact Hc.
Qed.

(** The scanner does not stop inside the text the symbol pattern matches:
    it leaves it with a depth of one or more. *)
Lemma paren_loop_through_opening (pre w1 w2 name rest : str) :
  ws_plus w1 = true -> ws_plus w2 = true -> no_dq name = true ->
  let content := pre ++ symbol_opening w1 w2 name ++ rest in
  exists d q,
    paren_loop content (symbol_opening w1 w2 name ++ rest) (List.length pre) 0 false
    = paren_loop content rest
                 (List.length pre + List.length (symbol_opening w1 w2 name)) d q.
Proof.
  intros Hw1 Hw2 Hn content.
  destruct (ws_plus_last _ Hw1) as (_ & _ & _ & _ & A1).
  destruct (ws_plus_last _ Hw2) as (w2' & c2 & Ew2 & Hc2 & A2).
  unfold symbol_opening. list_norm.
  set (i0 := List.length pre).
  (* [(symbol] *)
  assert (S1 : forall tl i,
             paren_loop content (lit "(symbol" ++ tl) i 0 false
             = paren_loop content tl (i + 7) 1 false).
  { intros tl i. replace (i + 7) with (S (S (S (S (S (S (S i))))))) by lia.
    reflexivity. }
  rewrite S1.
  rewrite (paren_loop_inert content w1) by (apply ws_inert; exact A1).
  (* [(lib_id] *)
  assert (S2 : forall tl i,
             paren_loop content (lit "(lib_id" ++ tl) i 1 false
             = paren_loop content tl (i + 7) 2 false).
  { intros tl i. replace (i + 7) with (S (S (S (S (S (S (S i))))))) by lia.
    reflexivity. }
  rewrite S2.
  rewrite (paren_loop_inert content w2) by (apply ws_inert; exact A2).
  (* the quote that opens the identifier follows white space *)
  set (i1 := i0 + 7 + List.length w1 + 7 + List.length w2).
  assert (Hprev : nth (i1 - 1) content 0%N = c2).
  { unfold content, symbol_opening. rewrite Ew2. list_norm.
    replace (pre ++ lit "(symbol" ++ w1 ++ lit "(lib_id" ++ w2' ++ c2 :: dq :: name
                 ++ dq :: rparen :: rest)
      with ((pre ++ lit "(symbol" ++ w1 ++ lit "(lib_id" ++ w2')
              ++ c2 :: dq :: name ++ dq :: rparen :: rest)
      by (list_norm; reflexivity).
    replace (i1 - 1)
      with (List.length (pre ++ lit "(symbol" ++ w1 ++ lit "(lib_id" ++ w2')).
    - apply nth_middle.
    - unfold i1, i0. rewrite Ew2. rewrite !length_app. simpl. lia. }
  assert (Hopen : paren_loop content (dq :: name ++ dq :: rparen :: rest) i1 2 false
                  = paren_loop content (name ++ dq :: rparen :: rest) (S i1) 2 true).
  { cbn [paren_loop]. rewrite N.eqb_refl, Hprev.
    assert (Hb : N.eqb c2 bslash = false)
      by (destruct (N.eqb_spec c2 bslash) as [->|]; [discriminate|reflexivity]).
    rewrite Hb, orb_true_r. reflexivity. }
  rewrite Hopen.
  rewrite (paren_loop_quoted content name) by exact Hn.
  set (i2 := S i1 + List.length name).
  replace (i0 + List.length (lit "(symbol" ++ w1 ++ lit "(lib_id" ++ w2 ++ dq :: name
                                 ++ [dq; rparen]))
    with (S (S i2))
    by (unfold i2, i1; repeat (rewrite length_app; cbn [List.length]); simpl; lia).
  cbn [paren_loop]. rewrite N.eqb_refl. cbn [andb].
  destruct (Nat.eqb i2 0 || negb (N.eqb (nth (i2 - 1) content 0%N) bslash)).
  - (* the closing quote counts: the parenthesis closes [(lib_id] *)
    exists 1%Z, false. reflexivity.
  - (* the closing quote is escaped: the parenthesis is quoted text *)
    exists 2%Z, true. reflexivity.
Qed.

Lemma search_from_hit (its : list item) (s : str) (i : nat) (m : re_match) :
  match_here its s i = Some m -> search_from its s i = Some m.
Proof. intros H. destruct s; simpl; rewrite H; reflexivity. Qed.

Lemma parse_symbol_block_rebased (raw : str) (start end_ : Z) (c : Component) :
  _parse_symbol_block raw start end_ = Some c ->
  _parse_symbol_block raw 0 (len raw - 1) = Some (rebased c).
Proof.
  unfold _parse_symbol_block.
  destruct (re_search pat_lib_id raw) as [m|]; [|discriminate].
  destruct (is_power _); [discriminate|].
  destruct (_ || _); [discriminate|].
  intros H. inversion H; subst; clear H. reflexivity.
Qed.

(** A block that [parse] cuts out of a buffer, parsed as a buffer of its
    own, is one record. *)
Lemma reparse_block (content : str) (pos : nat) (m : re_match) (e : nat)
      (c : Component) :
  re_search pat_symbol (skipn pos content) = Some m ->
  _find_matching_paren content (pos + m_start m) = Z.of_nat e ->
  _parse_symbol_block (slice content (Z.of_nat (pos + m_start m)) (Z.of_nat e + 1))
                      (Z.of_nat (pos + m_start m)) (Z.of_nat e) = Some c ->
  parse (raw_content c) = Some (MkParser (raw_content c) [rebased c]).
Proof.
  intros Hs He Hc.
  set (start := pos + m_start m) in *.
  destruct (parse_symbol_block_some _ _ _ _ Hc) as (Hraw & _).
  rewrite Hraw.
  set (raw := slice content (Z.of_nat start) (Z.of_nat e + 1)) in *.
  (* the match, read as text *)
  destruct (search_from_sound _ _ _ _ Hs) as (k & Hk & Hst & Hm & _).
  simpl in Hst. subst k. simpl Nat.add in Hm.
  rewrite skipn_skipn, (Nat.add_comm (m_start m) pos) in Hm. fold start in Hm.
  rewrite match_here_symbol in Hm.
  destruct (symbol_head (skipn start content)) as [[[[w1 w2] name] rest]|] eqn:Eh;
    [|discriminate].
  clear Hm.
  destruct (symbol_head_sound _ _ _ _ _ Eh) as (Esk & Hw1 & Hw2 & Hne & Hn).
  assert (Hne' : _find_matching_paren content start <> (-1)%Z) by lia.
  destruct (find_matching_paren_range content start _ eq_refl Hne') as (Hlt & Hr).
  rewrite He in Hr.
  set (pre := firstn start content).
  assert (Lpre : List.length pre = start) by (apply firstn_length_le; lia).
  assert (Econt : content = pre ++ symbol_opening w1 w2 name ++ rest).
  { rewrite <- Esk. symmetry. apply firstn_skipn. }
  (* the scanner closes the block after the text of the match *)
  assert (Hpast : start + List.length (symbol_opening w1 w2 name) <= e).
  { destruct (paren_loop_through_opening pre w1 w2 name rest Hw1 Hw2 Hn) as (d & q & Ht).
    cbn zeta in Ht. rewrite <- Econt, Lpre in Ht.
    unfold _find_matching_paren in He. rewrite Esk, Ht in He.
    destruct (paren_loop_range content rest
                (start + List.length (symbol_opening w1 w2 name)) d q)
      as [E|(e' & E & Hr')]; rewrite E in He; lia. }
  assert (Eraw : raw = symbol_opening w1 w2 name
                         ++ firstn (S e - start - List.length (symbol_opening w1 w2 name)) rest).
  { unfold raw. rewrite slice_nat by (unfold len in *; lia).
    rewrite Nat2Z.id. replace (Z.to_nat (Z.of_nat e + 1) - start) with (S e - start) by lia.
    rewrite Esk, firstn_app.
    rewrite firstn_all2 by lia. reflexivity. }
  (* so the pattern matches at the head of the block *)
  assert (Hhead : exists m0, re_search pat_symbol raw = Some m0 /\ m_start m0 = 0).
  { pose proof (match_here_symbol raw 0) as Hm0.
    rewrite Eraw in Hm0 at 2.
    rewrite (symbol_head_complete w1 w2 name _ Hw1 Hw2 Hne Hn) in Hm0.
    cbn zeta in Hm0. eexists. split; [apply search_from_hit; exact Hm0|reflexivity]. }
  destruct Hhead as (m0 & Hs0 & Hst0).
  (* and the block closes on its own last character *)
  assert (Hown : own_block raw).
  { apply block_scanned_alone; [|exact He].
    rewrite Esk. unfold symbol_opening. rewrite <- app_assoc. apply startswith_app. }
  destruct Hown as [_ Hclose].
  assert (Lraw : (1 <= len raw)%Z).
  { assert (1 <= List.length raw); [|unfold len; lia].
    rewrite Eraw. unfold symbol_opening. rewrite !length_app.
    change (List.length (lit "(symbol")) with 7. lia. }
  unfold parse.
  assert (Hfuel : exists fuel, List.length raw = S fuel).
  { unfold len in Lraw. destruct (List.length raw); [lia|eauto]. }
  destruct Hfuel as [fuel Hfuel].
  rewrite Hfuel. cbn [parse_loop]. cbn [skipn]. rewrite Hs0, Hst0. cbn [Nat.add].
  rewrite Hclose.
  destruct (Z.eqb_spec (len raw - 1) (-1)) as [E|_]; [lia|].
  replace (slice raw (Z.of_nat 0) (len raw - 1 + 1)) with raw.
  2:{ rewrite slice_nat by lia. simpl.
      replace (Z.to_nat (len raw - 1 + 1) - 0) with (List.length raw)
        by (unfold len; lia).
      symmetry. apply firstn_all. }
  change (Z.of_nat 0) with 0%Z.
  rewrite (parse_symbol_block_rebased _ _ _ _ Hc).
  replace (Z.to_nat (len raw - 1 + 1)) with (List.length raw) by (unfold len; lia).
  rewrite skipn_all. reflexivity.
Qed.

Lemma parse_loop_reparse (content : str) :
  forall fuel pos acc result,
    Forall (fun c => parse (raw_content c)
                     = Some (MkParser (raw_content c) [rebased c])) acc ->
    parse_loop fuel content pos acc = Some result ->
    Forall (fun c => parse (raw_content c)
                     = Some (MkParser (raw_content c) [rebased c])) result.
Proof.
  induction fuel as [|fuel IH]; intros pos acc result Hacc H; simpl in H;
    [discriminate|].
  destruct (re_search pat_symbol (skipn pos content)) as [m|] eqn:Es;
    [|inversion H; subst; auto].
  destruct (Z.eqb_spec (_find_matching_paren content (pos + m_start m)) (-1)) as [E|E];
    [eapply IH; eauto|].
  destruct (_parse_symbol_block _ _ _) as [c|] eqn:Ec; [|eapply IH; eauto].
  eapply IH; [|exact H].
  apply Forall_app. split; [exact Hacc|]. constructor; [|constructor].
  destruct (find_matching_paren_range content _ _ eq_refl E) as (Hs & Hr).
  remember (_find_matching_paren content (pos + m_start m)) as e eqn:He.
  assert (Hz : e = Z.of_nat (Z.to_nat e)) by lia.
  rewrite Hz in Ec. symmetry in He. rewrite Hz in He.
  exact (reparse_block content pos m (Z.to_nat e) c Es He Ec).
Qed.

(** X16.  The block of a record can be parsed again on its own: [parse],
    given the block of any record it returned as the whole buffer, returns
    exactly that record, with the offsets of the block taken alone (0 and
    the index of its last character) and all other fields equal. *)
Theorem parse_of_record_block_gives_record_back (buffer : str) :
  exists self,
    parse buffer = Some self
    /\ forall c, In c (components self) ->
         parse (raw_content c) = Some (MkParser (raw_content c) [rebased c]).
Proof.
  destruct (parse_total buffer) as [self H]. exists self. split; [exact H|].
  unfold parse in H.
  destruct (parse_loop _ _ _ _) as [r|] eqn:E; [|discriminate].
  inversion H; subst; clear H. simpl.
  pose proof (parse_loop_reparse buffer _ _ _ _ (Forall_nil _) E) as Hall.
  rewrite Forall_forall in Hall. exact Hall.
Qed.

Lemma parse_of_record_block_gives_record_back_witness :
  exists self c,
    parse (block_power ++ block_r1 ++ block_noref) = Some self
    /\ components self = [c]
    /\ start_pos c = 70%Z
    /\ parse (raw_content c) = Some (MkParser (raw_content c) [rebased c])
    /\ start_pos (rebased c) = 0%Z.
Proof.
  destruct (parse_of_record_block_gives_record_back
              (block_power ++ block_r1 ++ block_noref)) as (self & Hp & Hall).
  assert (Hc : exists c, components self = [c] /\ start_pos c = 70%Z).
  { vm_compute in Hp. inversion Hp; subst self. eexists. split; reflexivity. }
  destruct Hc as (c & Hc & Hs).
  exists self, c. split; [exact Hp|]. split; [exact Hc|]. split; [exact Hs|].
  split; [|reflexivity].
  apply Hall. rewrite Hc. left. reflexivity.
Defined.

(** ** The fallback, on the block of a record *)

Lemma own_block_last (raw : str) :
  own_block raw -> exists body, raw = body ++ [rparen].
Proof.
  intros [Hsw Hclose].
  assert (H0 : nth_error raw 0 = Some lparen).
  { rewrite (startswith_split _ _ Hsw). reflexivity. }
  destruct (find_matching_paren_cases raw 0 H0) as [[E _]|(e & E & Hc)].
  - rewrite E in Hclose. unfold len in Hclose.
    destruct raw; [discriminate|]. cbn [List.length] in Hclose. lia.
  - rewrite E in Hclose. destruct Hc as (Hr & Hn & _).
    assert (He : e = List.length raw - 1) by (unfold len in Hclose; lia).
    exists (firstn e raw).
    rewrite <- (firstn_skipn e raw) at 1. f_equal.
    destruct (skipn e raw) as [|c tl] eqn:Esk.
    + apply skipn_nil_length in Esk. lia.
    + destruct (skipn_cons_nth _ _ _ _ Esk) as (Hc & Htl & _).
      assert (tl = []).
      { rewrite <- Htl. apply skipn_all2. lia. }
      subst tl. congruence.
Qed.

(** X17.  On the block of a record that [parse] returned, the fallback of
    the upsert (no node of the property, no pin, no instances node) puts
    the new node inside the block as its last child: directly before the
    parenthesis that closes the block, which stays the last character. *)
Theorem fallback_node_is_last_child (buffer : str) :
  exists self,
    parse buffer = Some self
    /\ forall c prop_name prop_value,
         In c (components self) ->
         re_search (pat_existing prop_name) (raw_content c) = None ->
         re_search pat_pin (raw_content c) = None ->
         re_search pat_instances (raw_content c) = None ->
         exists body,
           raw_content c = body ++ [rparen]
           /\ _update_property (raw_content c) prop_name prop_value
              = body ++ new_prop [tab; tab] prop_name prop_value
                                 (at_coords_of (raw_content c))
                     ++ [rparen].
Proof.
  destruct (parse_total buffer) as [self H]. exists self. split; [exact H|].
  unfold parse in H.
  destruct (parse_loop _ _ _ _) as [r|] eqn:E; [|discriminate].
  inversion H; subst; clear H. simpl.
  pose proof (parse_loop_own_block buffer _ _ _ _ (Forall_nil _) E) as Hall.
  rewrite Forall_forall in Hall.
  intros c prop_name prop_value Hin Habs Hpin Hinst.
  destruct (own_block_last _ (Hall c Hin)) as [body Eraw].
  exists body. split; [exact Eraw|].
  rewrite (update_property_absent _ _ _ Habs), (insertion_point_fallback _ Hpin Hinst).
  cbn [fst snd].
  assert (Hin' : In rparen (raw_content c))
    by (rewrite Eraw; apply in_or_app; right; left; reflexivity).
  destruct (rfind_last _ _ Hin') as (pre & post & Er & Hpost & Hr).
  assert (Hp : post = [] /\ pre = body).
  { destruct post as [|x post'] using rev_ind.
    - split; [reflexivity|]. rewrite Eraw in Er.
      apply app_inj_tail in Er. destruct Er as [Er _]. congruence.
    - exfalso. clear IHpost'. rewrite Eraw in Er.
      change (pre ++ rparen :: post' ++ [x]) with (pre ++ (rparen :: post') ++ [x]) in Er.
      rewrite app_assoc in Er. apply app_inj_tail in Er. destruct Er as [_ Ex].
      subst x. apply Hpost. apply in_or_app. right. left. reflexivity. }
  destruct Hp as [-> ->].
  rewrite Hr, Er, slice_to_app, slice_from_app. reflexivity.
Qed.

Lemma fallback_node_is_last_child_witness :
  exists self c body,
    parse block_bare = Some self
    /\ components self = [c]
    /\ raw_content c = body ++ [rparen]
    /\ _update_property (raw_content c) LCSC (lit "C1002")
       = body ++ new_prop [tab; tab] LCSC (lit "C1002") (at_coords_of (raw_content c))
              ++ [rparen].
Proof.
  destruct (fallback_node_is_last_child block_bare) as (self & Hp & Hall).
  assert (Hc : exists c, components self = [c] /\ raw_content c = block_bare).
  { vm_compute in Hp. inversion Hp; subst self. eexists. split; reflexivity. }
  destruct Hc as (c & Hc & Hraw).
  assert (Hin : In c (components self)) by (rewrite Hc; left; reflexivity).
  destruct (Hall c LCSC (lit "C1002") Hin) as (body & Eb & Eu);
    try (rewrite Hraw; reflexivity).
  exists self, c, body. auto.
Defined.

(** ** What an upsert leaves of the block *)

Lemma value_edit_nil (X v s' : str) : value_edit X v [] s' -> s' = [].
Proof.
  intros H. inversion H as [| |s hdr old rest rest' Hn _]; subst; [reflexivity|].
  destruct Hn as (E & (w1 & w2 & -> & _) & _). discriminate.
Qed.

Lemma value_edit_keep (X v : str) (c : N) (s s' : str) :
  value_edit X v (c :: s) s' ->
  c <> lparen \/ (exists c2 t, s = c2 :: t /\ c2 <> 112%N) ->
  exists s'', s' = c :: s'' /\ value_edit X v s s''.
Proof.
  intros H Hc. inversion H as [|c0 s0 s0' _ Hrec|s0 hdr old rest rest' Hn _]; subst.
  - eauto.
  - exfalso. destruct Hn as (E & (w1 & w2 & -> & _) & _).
    change (lit "(property") with (lparen :: 112%N :: lit "roperty") in E.
    cbn [app] in E. inversion E; subst.
    destruct Hc as [Hc|(c2 & t & Et & Hc2)]; [congruence|].
    inversion Et. congruence.
Qed.

Lemma value_edit_opening (X v t s' : str) :
  value_edit X v (lit "(symbol" ++ t) s' ->
  exists t', s' = lit "(symbol" ++ t'.
Proof.
  change (lit "(symbol") with [40; 115; 121; 109; 98; 111; 108]%N. cbn [app].
  intros H.
  apply value_edit_keep in H; [|right; eexists; eexists; split; [reflexivity|discriminate]].
  destruct H as (s1 & -> & H).
  do 6 (apply value_edit_keep in H; [|left; discriminate];
        let s := fresh "s" in destruct H as (s & -> & H)).
  eexists. reflexivity.
Qed.

Lemma value_edit_last (X v s s' : str) :
  value_edit X v s s' ->
  forall body, s = body ++ [rparen] -> exists body', s' = body' ++ [rparen].
Proof.
  induction 1 as [|c s s' _ H IH|s hdr old rest rest' Hn H IH]; intros body E.
  - destruct body; discriminate.
  - destruct body as [|b body]; simpl in E; inversion E; subst.
    + apply value_edit_nil in H. subst. exists []. reflexivity.
    + destruct (IH body eq_refl) as [body' ->]. exists (b :: body'). reflexivity.
  - destruct Hn as (Es & _ & _).
    destruct rest as [|x rest0] using rev_ind.
    + exfalso. rewrite Es in E.
      replace (hdr ++ old ++ [dq]) with ((hdr ++ old) ++ [dq]) in E
        by (rewrite <- app_assoc; reflexivity).
      apply app_inj_tail in E. destruct E as [_ E]. discriminate.
    + clear IHrest0. rewrite Es in E.
      replace (hdr ++ old ++ dq :: rest0 ++ [x])
        with ((hdr ++ old ++ dq :: rest0) ++ [x]) in E
        by (list_norm; reflexivity).
      apply app_inj_tail in E. destruct E as [_ ->].
      destruct (IH rest0 eq_refl) as [body' ->].
      exists (hdr ++ v ++ dq :: body'). list_norm. reflexivity.
Qed.

Lemma startswith_app_l (a b l : str) :
  startswith a l = true -> startswith (a ++ b) l = true.
Proof.
  intros H. rewrite (startswith_split _ _ H), <- app_assoc. apply startswith_app.
Qed.

Lemma opening_has_no (c : N) (t : str) (p : nat) :
  c = nl \/ c = rparen ->
  p < List.length (lit "(symbol" ++ t) ->
  nth p (lit "(symbol" ++ t) 0%N = c -> 7 <= p.
Proof.
  intros Hc _ Hn.
  do 7 (destruct p as [|p]; [exfalso; simpl in Hn; destruct Hc; subst c; discriminate|]).
  lia.
Qed.

Lemma splice_keeps_delimiters (raw node : str) (p : nat) :
  symbol_block raw -> 7 <= p < List.length raw ->
  symbol_block (firstn p raw ++ node ++ skipn p raw).
Proof.
  intros [Hsw [body E]] Hp. split.
  - apply startswith_app_l. apply startswith_firstn; [exact Hsw|simpl; lia].
  - assert (Lb : List.length raw = S (List.length body))
      by (rewrite E, length_app; simpl; lia).
    exists (firstn p raw ++ node ++ skipn p body).
    rewrite E at 2. rewrite skipn_app.
    replace (p - List.length body) with 0 by lia. simpl.
    list_norm. reflexivity.
Qed.

(** X18.  An upsert keeps the delimiters of a block: a block that opens
    with [(symbol] and ends with a closing parenthesis still does after
    [_update_property], whether a value was rewritten or a node put in. *)
Theorem upsert_keeps_block_delimiters (raw prop_name prop_value : str) :
  symbol_block raw ->
  symbol_block (_update_property raw prop_name prop_value).
Proof.
  intros Hb. pose proof Hb as [Hsw [body E]].
  destruct (re_search (pat_existing prop_name) raw) as [m|] eqn:Es.
  - (* a value is rewritten *)
    rewrite update_property_in_place by congruence.
    pose proof (re_sub_value_edit prop_name prop_value raw) as Hve.
    split.
    + assert (Hve' : value_edit prop_name prop_value
                        (lit "(symbol" ++ skipn (List.length (lit "(symbol")) raw)
                        (re_sub (pat_existing prop_name) (tpl_value prop_value) raw))
        by (rewrite <- (startswith_split _ _ Hsw); exact Hve).
      destruct (value_edit_opening _ _ _ _ Hve') as [t' ->]. apply startswith_app.
    + exact (value_edit_last _ _ _ _ Hve body E).
  - (* a node is put in *)
    rewrite (update_property_absent _ _ _ Es).
    pose proof (startswith_split _ _ Hsw) as Eo.
    set (t := skipn (List.length (lit "(symbol")) raw) in Eo.
    assert (Hrange : exists p, 7 <= p < List.length raw
                               /\ fst (insertion_point raw) = Z.of_nat p).
    { unfold insertion_point.
      destruct (re_search pat_pin raw) as [mp|] eqn:Ep;
        [|destruct (re_search pat_instances raw) as [mi|] eqn:Ei].
      - destruct (search_newline _ _ _ Ep) as (Hlt & Hn).
        exists (m_start mp). split; [|reflexivity]. split; [|exact Hlt].
        rewrite Eo in Hlt, Hn.
        exact (opening_has_no nl t _ (or_introl eq_refl) Hlt Hn).
      - destruct (search_newline _ _ _ Ei) as (Hlt & Hn).
        exists (m_start mi). split; [|reflexivity]. split; [|exact Hlt].
        rewrite Eo in Hlt, Hn.
        exact (opening_has_no nl t _ (or_introl eq_refl) Hlt Hn).
      - cbn [fst].
        assert (Hin : In rparen raw)
          by (rewrite E; apply in_or_app; right; left; reflexivity).
        destruct (rfind_last _ _ Hin) as (pre & post & Er & Hpost & Hr).
        exists (List.length pre). split; [|exact Hr].
        assert (Hlt : List.length pre < List.length raw)
          by (rewrite Er, length_app; simpl; lia).
        split; [|exact Hlt].
        assert (Hn : nth (List.length pre) raw 0%N = rparen)
          by (rewrite Er; apply nth_middle).
        rewrite Eo in Hlt, Hn.
        exact (opening_has_no rparen t _ (or_intror eq_refl) Hlt Hn). }
    destruct Hrange as (p & Hp & Hfst).
    rewrite Hfst. unfold slice_to, slice_from.
    rewrite clamp_in_range by (unfold len; lia). rewrite Nat2Z.id.
    apply splice_keeps_delimiters; assumption.
Qed.

Lemma block_r1_delimited : symbol_block block_r1.
Proof.
  split; [reflexivity|]. exists (firstn 177 block_r1). reflexivity.
Qed.

Lemma upsert_keeps_block_delimiters_witness :
  symbol_block block_r1
  /\ symbol_block (_update_property block_r1 LCSC (lit "C1002")).
Proof.
  split; [exact block_r1_delimited|].
  apply upsert_keeps_block_delimiters. exact block_r1_delimited.
Defined.

(** ** The summary of a run, and the URLs of the linked components *)

(** X19.  The summary of a finished run adds up: every component visited
    is counted once, as updated or as skipped; and under [--dry-run] the
    parser holds, after the loop, the buffer and the records it held
    before. *)
Theorem main_loop_summary_adds_up
        (overwrite dry_run : bool) (todo : list nat) (sch_parser : KicadSchParser)
        (outcomes : list outcome) (updated skipped : nat)
        (sch_parser' : KicadSchParser) (updated' skipped' : nat) :
  main_loop overwrite dry_run todo sch_parser outcomes updated skipped
  = Some (sch_parser', updated', skipped') ->
  updated' + skipped' = updated + skipped + List.length todo
  /\ (dry_run = true -> sch_parser' = sch_parser).
Proof.
  revert sch_parser outcomes updated skipped.
  induction todo as [|j todo IH]; intros self outcomes u s H; cbn [main_loop] in H.
  - inversion H; subst. split; [simpl; lia|reflexivity].
  - destruct (nth_error (components self) j) as [comp|]; [|discriminate].
    destruct (process_component (negb overwrite) comp outcomes)
      as [[[lcsc_id url] outcomes']|]; [|discriminate].
    destruct (is_empty lcsc_id); simpl in H.
    + destruct (IH _ _ _ _ H) as [E D]. split; [simpl; lia|exact D].
    + destruct dry_run; simpl in H.
      * destruct (IH _ _ _ _ H) as [E D]. split; [simpl; lia|exact D].
      * destruct (update_component self j lcsc_id url) as [self1|]; [|discriminate].
        destruct (IH _ _ _ _ H) as [E _]. split; [simpl; lia|discriminate].
Qed.

Lemma main_loop_summary_adds_up_witness :
  exists sch_parser' updated' skipped',
    main_loop false true [0; 1] two_records
              [Selected (lit "C1002") (lit "u"); Selected [] []] 0 0
    = Some (sch_parser', updated', skipped')
    /\ updated' + skipped' = 2
    /\ sch_parser' = two_records.
Proof.
  assert (H : exists r, main_loop false true [0; 1] two_records
                          [Selected (lit "C1002") (lit "u"); Selected [] []] 0 0
                        = Some r)
    by (vm_compute; eexists; reflexivity).
  destruct H as [[[p u] s] H]. exists p, u, s. split; [exact H|].
  destruct (main_loop_summary_adds_up _ _ _ _ _ _ _ _ _ _ H) as [E D].
  split; [exact E|exact (D eq_refl)].
Defined.

(** X20.  [Open All URLs] finds a URL for every linked component and for
    no other: the list it builds has as many entries as the count that
    enables the button, so the button is enabled exactly when there is a
    URL to open, and no entry is empty. *)
Theorem open_all_urls_matches_linked_count (comps : list Component) :
  List.length (urls_to_open comps) = linked_count comps
  /\ (urls_to_open comps = [] <-> linked_count comps = 0)
  /\ Forall (fun u => u <> []) (urls_to_open comps).
Proof.
  induction comps as [|c comps (IH1 & IH2 & IH3)]; simpl.
  - split; [reflexivity|]. split; [tauto|constructor].
  - destruct (is_empty (lcsc c)) eqn:El; simpl.
    + auto.
    + split; [lia|]. split; [split; discriminate|].
      constructor; [|exact IH3].
      destruct (is_empty (url c)) eqn:Eu; simpl.
      * unfold product_url. discriminate.
      * intros E. rewrite E in Eu. discriminate.
Qed.

(** ** Updating two records *)

Lemma len_nonneg (s : str) : (0 <= len s)%Z.
Proof. unfold len. lia. Qed.

Lemma app_split_length (X Y X' Y' : str) :
  X ++ Y = X' ++ Y' -> List.length X = List.length X' -> X = X' /\ Y = Y'.
Proof.
  revert X'. induction X as [|x X IH]; intros [|x' X'] E L; simpl in *;
    try discriminate; [auto|].
  inversion E; subst. destruct (IH X' H1 ltac:(lia)) as [-> ->]. auto.
Qed.

(** Two tracked records, the first before the second, cut the buffer in
    five. *)
Lemma tracks_split_two (content : str) (a b : Component) :
  tracks content a -> tracks content b -> (end_pos a < start_pos b)%Z ->
  exists A M S,
    content = A ++ raw_content a ++ M ++ raw_content b ++ S
    /\ len A = start_pos a
    /\ len (raw_content a) = (end_pos a - start_pos a + 1)%Z
    /\ len (A ++ raw_content a ++ M) = start_pos b
    /\ len (raw_content b) = (end_pos b - start_pos b + 1)%Z.
Proof.
  intros Ha Hb Hab.
  destruct (tracks_split _ _ Ha) as (A & T & Ea & LA & La & _ & _).
  destruct (tracks_split _ _ Hb) as (P & S & Eb & LP & Lb & _ & _).
  destruct Ha as (Ha1 & Ha2 & _). destruct Hb as (Hb1 & Hb2 & _).
  set (n := Z.to_nat (start_pos b - end_pos a - 1)).
  assert (LT : n <= List.length T).
  { pose proof (f_equal len Ea) as L. rewrite !len_app in L.
    unfold len in *. lia. }
  exists A, (firstn n T), S.
  assert (E : A ++ raw_content a ++ firstn n T = P
              /\ skipn n T = raw_content b ++ S).
  { apply app_split_length.
    - rewrite <- !app_assoc. rewrite firstn_skipn. congruence.
    - rewrite !length_app, length_firstn. unfold len in *. lia. }
  destruct E as [E1 E2].
  split.
  - rewrite <- E2, firstn_skipn. exact Ea.
  - split; [exact LA|]. split; [exact La|]. split; [rewrite E1; exact LP|exact Lb].
Qed.

Lemma slice_to_at (X Y : str) (k : Z) : k = len X -> slice_to (X ++ Y) k = X.
Proof. intros ->. apply slice_to_app. Qed.

Lemma slice_from_at (X Y : str) (k : Z) : k = len X -> slice_from (X ++ Y) k = Y.
Proof. intros ->. apply slice_from_app. Qed.

(** Replacing two blocks of a buffer, in either order. *)
Lemma two_blocks_replaced (A Ri M Rj S Ni Nj : str) (a b c d : Z) :
  a = len A -> b = (a + len Ri)%Z -> c = (b + len M)%Z -> d = (c + len Rj)%Z ->
  let C := A ++ Ri ++ M ++ Rj ++ S in
  let c1 := slice_to C a ++ Ni ++ slice_from C b in
  let c2 := slice_to C c ++ Nj ++ slice_from C d in
  let di := (len Ni - len Ri)%Z in
  slice_to c1 (c + di) ++ Nj ++ slice_from c1 (d + di) = A ++ Ni ++ M ++ Nj ++ S
  /\ slice_to c2 a ++ Ni ++ slice_from c2 b = A ++ Ni ++ M ++ Nj ++ S.
Proof.
  intros Ha Hb Hc Hd C c1 c2 di.
  assert (T1 : slice_to C a = A) by (apply slice_to_at; exact Ha).
  assert (F1 : slice_from C b = M ++ Rj ++ S).
  { unfold C. replace (A ++ Ri ++ M ++ Rj ++ S) with ((A ++ Ri) ++ M ++ Rj ++ S)
      by (list_norm; reflexivity).
    apply slice_from_at. rewrite len_app. lia. }
  assert (T2 : slice_to C c = A ++ Ri ++ M).
  { unfold C. replace (A ++ Ri ++ M ++ Rj ++ S) with ((A ++ Ri ++ M) ++ Rj ++ S)
      by (list_norm; reflexivity).
    apply slice_to_at. rewrite !len_app. lia. }
  assert (F2 : slice_from C d = S).
  { unfold C. replace (A ++ Ri ++ M ++ Rj ++ S) with ((A ++ Ri ++ M ++ Rj) ++ S)
      by (list_norm; reflexivity).
    apply slice_from_at. rewrite !len_app. lia. }
  unfold c1, c2. rewrite T1, F1, T2, F2. split.
  - assert (T : slice_to (A ++ Ni ++ M ++ Rj ++ S) (c + di) = A ++ Ni ++ M).
    { replace (A ++ Ni ++ M ++ Rj ++ S) with ((A ++ Ni ++ M) ++ Rj ++ S)
        by (list_norm; reflexivity).
      apply slice_to_at. rewrite !len_app. unfold di. lia. }
    assert (F : slice_from (A ++ Ni ++ M ++ Rj ++ S) (d + di) = S).
    { replace (A ++ Ni ++ M ++ Rj ++ S) with ((A ++ Ni ++ M ++ Rj) ++ S)
        by (list_norm; reflexivity).
      apply slice_from_at. rewrite !len_app. unfold di. lia. }
    rewrite T, F. list_norm. reflexivity.
  - assert (T : slice_to ((A ++ Ri ++ M) ++ Nj ++ S) a = A).
    { replace ((A ++ Ri ++ M) ++ Nj ++ S) with (A ++ (Ri ++ M) ++ Nj ++ S)
        by (list_norm; reflexivity).
      apply slice_to_at. exact Ha. }
    assert (F : slice_from ((A ++ Ri ++ M) ++ Nj ++ S) b = M ++ Nj ++ S).
    { replace ((A ++ Ri ++ M) ++ Nj ++ S) with ((A ++ Ri) ++ M ++ Nj ++ S)
        by (list_norm; reflexivity).
      apply slice_from_at. rewrite len_app. lia. }
    rewrite T, F. reflexivity.
Qed.

Lemma update_two_in_order (self : KicadSchParser) (i j : nat)
      (li ui lj uj : str) (Ri Rj : Component) :
  well_tracked self ->
  i < j ->
  nth_error (components self) i = Some Ri ->
  nth_error (components self) j = Some Rj ->
  exists final,
    update_both self i li ui j lj uj = Some final
    /\ update_both self j lj uj i li ui = Some final.
Proof.
  intros [Ht Ho] Hij Hi Hj.
  rewrite Forall_nth_error_iff in Ht.
  pose proof (Ht _ _ Hi) as Hti. pose proof (Ht _ _ Hj) as Htj.
  pose proof (Ho _ _ _ _ Hij Hi Hj) as Hlt.
  destruct (tracks_split_two _ _ _ Hti Htj Hlt) as (A & M & S & Ec & LA & Li & LM & Lj).
  set (Ni := _update_property (_update_property (raw_content Ri) (lit "LCSC") li)
               (lit "URL") ui).
  set (Nj := _update_property (_update_property (raw_content Rj) (lit "LCSC") lj)
               (lit "URL") uj).
  set (di := (len Ni - len (raw_content Ri))%Z).
  set (dj := (len Nj - len (raw_content Rj))%Z).
  pose proof (len_nonneg Ni) as HNi. pose proof (len_nonneg Nj) as HNj.
  pose proof (len_nonneg M) as HM.
  destruct Hti as (Hi1 & Hi2 & _). destruct Htj as (Hj1 & Hj2 & _).
  rewrite !len_app in LM.
  (* first [i], then [j] *)
  set (comps1 := set_nth (map (moved Ri di) (components self)) i (patched Ri Ni li ui)).
  set (c1 := slice_to (content self) (start_pos Ri) ++ Ni
               ++ slice_from (content self) (end_pos Ri + 1)).
  assert (E1 : update_component self i li ui = Some (MkParser c1 comps1))
    by (rewrite (update_component_closed self i li ui Ri Hi); reflexivity).
  assert (Hj1' : nth_error comps1 j = Some (shifted Rj di)).
  { unfold comps1. rewrite (nth_error_patched_store _ _ Ri _ _ j Hi).
    destruct (Nat.eqb_spec j i); [lia|]. rewrite Hj. simpl. unfold moved.
    destruct (Z.gtb_spec (start_pos Rj) (start_pos Ri)); [reflexivity|lia]. }
  pose proof (update_component_closed (MkParser c1 comps1) j lj uj (shifted Rj di) Hj1')
    as E12.
  cbn zeta in E12. cbn [content components raw_content shifted start_pos end_pos] in E12.
  fold Nj dj in E12.
  (* first [j], then [i] *)
  set (comps2 := set_nth (map (moved Rj dj) (components self)) j (patched Rj Nj lj uj)).
  set (c2 := slice_to (content self) (start_pos Rj) ++ Nj
               ++ slice_from (content self) (end_pos Rj + 1)).
  assert (E2 : update_component self j lj uj = Some (MkParser c2 comps2))
    by (rewrite (update_component_closed self j lj uj Rj Hj); reflexivity).
  assert (Hi2' : nth_error comps2 i = Some Ri).
  { unfold comps2. rewrite (nth_error_patched_store _ _ Rj _ _ i Hj).
    destruct (Nat.eqb_spec i j); [lia|]. rewrite Hi. simpl. unfold moved.
    destruct (Z.gtb_spec (start_pos Ri) (start_pos Rj)); [lia|reflexivity]. }
  pose proof (update_component_closed (MkParser c2 comps2) i li ui Ri Hi2') as E21.
  cbn zeta in E21. cbn [content components] in E21. fold Ni di in E21.
  unfold update_both. rewrite E1, E2, E12, E21.
  eexists. split; [reflexivity|]. f_equal. unfold c1, c2. f_equal.
  - (* the buffers *)
    rewrite Ec.
    destruct (two_blocks_replaced A (raw_content Ri) M (raw_content Rj) S Ni Nj
                (start_pos Ri) (end_pos Ri + 1) (start_pos Rj) (end_pos Rj + 1))
      as [B1 B2]; try lia.
    cbn zeta in B1, B2. fold di in B1.
    replace (start_pos Rj + di + len Nj - 1 + 1)%Z with (start_pos Rj + di + len Nj)%Z by lia.
    replace (end_pos Rj + di + 1)%Z with (end_pos Rj + 1 + di)%Z by lia.
    rewrite B1, B2. reflexivity.
  - (* the records *)
    apply nth_error_ext. intros k.
    rewrite (nth_error_patched_store _ _ (shifted Rj di) _ _ k Hj1').
    rewrite (nth_error_patched_store _ _ Ri _ _ k Hi2').
    unfold comps1, comps2.
    rewrite (nth_error_patched_store _ _ Ri _ _ k Hi).
    rewrite (nth_error_patched_store _ _ Rj _ _ k Hj).
    destruct (Nat.eqb_spec k j) as [Ekj|Hkj]; destruct (Nat.eqb_spec k i) as [Eki|Hki];
      try lia; try subst k; simpl.
    + (* the record at [j] *)
      f_equal. unfold moved, patched, shifted. simpl.
      destruct (Z.gtb_spec (start_pos Rj) (start_pos Ri)); [|lia].
      f_equal; lia.
    + (* the record at [i] *)
      f_equal. unfold moved, patched, shifted. simpl.
      destruct (Z.gtb_spec (start_pos Ri) (start_pos Rj + di)); [unfold di in *; lia|].
      reflexivity.
    + (* another record *)
      destruct (nth_error (components self) k) as [c|] eqn:Ek; [|reflexivity].
      simpl. f_equal.
      pose proof (Ht _ _ Ek) as (Hc1 & Hc2 & _).
      assert (Hpos : (end_pos c < start_pos Ri)%Z
                     \/ (end_pos Ri < start_pos c /\ end_pos c < start_pos Rj)%Z
                     \/ (end_pos Rj < start_pos c)%Z).
      { destruct (Nat.lt_total k i) as [H|[H|H]]; [|congruence|].
        - left. exact (Ho _ _ _ _ H Ek Hi).
        - destruct (Nat.lt_total k j) as [H'|[H'|H']]; [|congruence|].
          + right. left. split; [exact (Ho _ _ _ _ H Hi Ek)|exact (Ho _ _ _ _ H' Ek Hj)].
          + right. right. exact (Ho _ _ _ _ H' Hj Ek). }
      unfold moved, shifted. simpl.
      destruct Hpos as [H|[[H H']|H]];
        repeat match goal with
               | |- context [(?x >? ?y)%Z] => destruct (Z.gtb_spec x y)
               end; simpl;
        try (unfold di, dj in *; lia);
        try reflexivity;
        try (destruct c; simpl in *; f_equal; lia).
Qed.

(** X21.  The order in which two records are updated does not matter: on a
    parser whose records lie on the buffer in order, updating the record at
    [i] and then the one at [j] gives the same buffer and the same records
    as updating the one at [j] first, each with its own part number and
    URL.  The four texts hold no backslash, so that the templates of
    [re.sub] stand for themselves and every call returns. *)
Theorem updates_of_two_records_commute
        (self : KicadSchParser) (i j : nat) (lcsc_i url_i lcsc_j url_j : str)
        (Ri Rj : Component) :
  value_literal lcsc_i = true -> value_literal url_i = true ->
  value_literal lcsc_j = true -> value_literal url_j = true ->
  well_tracked self ->
  i <> j ->
  nth_error (components self) i = Some Ri ->
  nth_error (components self) j = Some Rj ->
  exists final,
    update_both self i lcsc_i url_i j lcsc_j url_j = Some final
    /\ update_both self j lcsc_j url_j i lcsc_i url_i = Some final.
Proof.
  intros _ _ _ _ Hw Hne Hi Hj.
  destruct (Nat.lt_total i j) as [H|[H|H]]; [|contradiction|].
  - apply (update_two_in_order self i j _ _ _ _ Ri Rj); assumption.
  - destruct (update_two_in_order self j i lcsc_j url_j lcsc_i url_i Rj Ri Hw H Hj Hi)
      as (final & H1 & H2).
    exists final. split; assumption.
Qed.

Lemma updates_of_two_records_commute_witness :
  value_literal (lit "C1002") = true /\ value_literal (lit "u") = true
  /\ value_literal (lit "C7") = true /\ value_literal (lit "v") = true
  /\ well_tracked two_records
  /\ exists final,
       update_both two_records 0 (lit "C1002") (lit "u") 1 (lit "C7") (lit "v") = Some final
       /\ update_both two_records 1 (lit "C7") (lit "v") 0 (lit "C1002") (lit "u") = Some final.
Proof.
  assert (Hw : well_tracked two_records)
    by (apply (parse_well_tracked _ _ two_records_parsed)).
  do 4 (split; [reflexivity|]).
  split; [exact Hw|].
  assert (H0 : exists R, nth_error (components two_records) 0 = Some R)
    by (vm_compute; eexists; reflexivity).
  assert (H1 : exists R, nth_error (components two_records) 1 = Some R)
    by (vm_compute; eexists; reflexivity).
  destruct H0 as [R0 H0]. destruct H1 as [R1 H1].
  assert (Hne : 0 <> 1) by discriminate.
  exact (updates_of_two_records_commute two_records 0 1
           (lit "C1002") (lit "u") (lit "C7") (lit "v") R0 R1
           eq_refl eq_refl eq_refl eq_refl Hw Hne H0 H1).
Defined.

(** ** Linking a component again with what it already has *)

Lemma moved_zero (R c : Component) : moved R 0 c = c.
Proof.
  unfold moved, shifted. destruct (start_pos c >? start_pos R)%Z; [|reflexivity].
  destruct c; simpl. rewrite !Z.add_0_r. reflexivity.
Qed.

Lemma set_nth_same {A : Type} (l : list A) (j : nat) (x : A) :
  nth_error l j = Some x -> set_nth l j x = l.
Proof.
  revert j. induction l as [|y t IH]; intros [|j] H; simpl in *; try discriminate.
  - inversion H. reflexivity.
  - rewrite (IH j H). reflexivity.
Qed.

(** X22.  Linking a tracked component with the part number and the URL it
    already has changes nothing: when every LCSC node of its block holds
    [new_lcsc], every URL node holds [new_url] (at least one node of each),
    and the record's [lcsc] and [url] fields hold the same two texts,
    [update_component] returns the parser it was given, with the same
    buffer and the same records.  The two texts hold neither a double
    quote nor a backslash (a backslash would be read as an escape in the
    template of [re.sub]). *)
Theorem update_component_same_values_is_identity
        (self : KicadSchParser) (idx : nat) (new_lcsc new_url : str)
        (R : Component) (n m : nat) :
  nth_error (components self) idx = Some R ->
  tracks (content self) R ->
  value_literal new_lcsc = true -> value_literal new_url = true ->
  no_dq new_lcsc = true -> no_dq new_url = true ->
  node_values (lit "LCSC") (raw_content R) = repeat new_lcsc (S n) ->
  node_values (lit "URL") (raw_content R) = repeat new_url (S m) ->
  lcsc R = new_lcsc -> url R = new_url ->
  update_component self idx new_lcsc new_url = Some self.
Proof.
  intros HR Ht _ _ Nl Nu Vl Vu El Eu.
  rewrite (update_component_closed self idx new_lcsc new_url R HR). cbn zeta.
  rewrite (update_property_same (raw_content R) (lit "LCSC") new_lcsc n
             eq_refl Nl Vl).
  rewrite (update_property_same (raw_content R) (lit "URL") new_url m
             eq_refl Nu Vu).
  destruct (tracks_split _ _ Ht) as (P & S & Ec & LP & LR & SP & SS).
  rewrite SP, SS, <- Ec, Z.sub_diag.
  assert (Em : map (moved R 0) (components self) = components self).
  { rewrite <- (map_id (components self)) at 2. apply map_ext. apply moved_zero. }
  rewrite Em.
  assert (Ep : patched R (raw_content R) new_lcsc new_url = R).
  { unfold patched. rewrite <- El, <- Eu, LR. destruct R; simpl. f_equal. lia. }
  rewrite Ep, (set_nth_same _ _ _ HR). destruct self; reflexivity.
Qed.

Lemma linked_sheet_parsed : parse block_both = Some linked_sheet.
Proof. vm_compute. reflexivity. Qed.

Lemma update_component_same_values_is_identity_witness :
  exists R,
    nth_error (components linked_sheet) 0 = Some R
    /\ tracks (content linked_sheet) R
    /\ value_literal (lit "C7") = true /\ value_literal (lit "http://x") = true
    /\ no_dq (lit "C7") = true /\ no_dq (lit "http://x") = true
    /\ node_values (lit "LCSC") (raw_content R) = [lit "C7"]
    /\ node_values (lit "URL") (raw_content R) = [lit "http://x"]
    /\ lcsc R = lit "C7" /\ url R = lit "http://x"
    /\ update_component linked_sheet 0 (lit "C7") (lit "http://x") = Some linked_sheet.
Proof.
  destruct (parse_well_tracked _ _ linked_sheet_parsed) as [_ [Ht _]].
  rewrite Forall_nth_error_iff in Ht.
  destruct (nth_error (components linked_sheet) 0) as [R|] eqn:HR;
    [|vm_compute in HR; discriminate].
  exists R. specialize (Ht 0 R HR).
  assert (F : node_values (lit "LCSC") (raw_content R) = [lit "C7"]
              /\ node_values (lit "URL") (raw_content R) = [lit "http://x"]
              /\ lcsc R = lit "C7" /\ url R = lit "http://x").
  { vm_compute in HR. inversion HR. vm_compute. repeat split. }
  destruct F as (Vl & Vu & El & Eu).
  repeat (split; [assumption || reflexivity|]).
  exact (update_component_same_values_is_identity linked_sheet 0
           (lit "C7") (lit "http://x") R 0 0 HR Ht eq_refl eq_refl eq_refl eq_refl
           Vl Vu El Eu).
Defined.
